(** * A bounded-depth explorer for a four-in-a-row game on a 6 x 7 grid

    Shallow embedding of [src/pasOpti.ts] (the plain recursive explorer
    [exploreGameTree]), of the second TypeScript file (the explorer
    [exploreGameTreeSmart], which returns early on a decisive move) and of the
    parts of [src/GO/puissance4.go] that differ from them.

    Conventions.
    - JavaScript numbers used as indices, moves and depths are integers: [Z].
    - [Cell = 0 | Player] is an inductive type; a read [board[r][c]] yields
      [option Cell], [None] standing for JavaScript's [undefined].
    - Arrays are lists, read with stdpp's lookup and written with [alter] and
      insert.
    - The recursion of the explorers is driven by a fuel argument; running out
      of fuel is the explicit result [None], and the theorems show how much
      fuel is enough. *)

From Stdlib Require Import ZArith Lia List Bool Sorted.
From stdpp Require Import base tactics option list numbers.

Local Open Scope Z_scope.

(** ** Board engine *)

Inductive Player := P1 | P2.
Inductive Cell := Empty | Mark (p : Player).

#[global] Instance Player_eq_dec : EqDecision Player.
Proof. solve_decision. Defined.
#[global] Instance Cell_eq_dec : EqDecision Cell.
Proof. solve_decision. Defined.

(** [type Board = Cell[][]]: a list of rows, row 0 at the top. *)
Abbreviation Board := (list (list Cell)).

Definition ROWS : Z := 6.
Definition COLS : Z := 7.

(** [createBoard]: [ROWS] rows of [COLS] zeros. *)
Definition createBoard : Board :=
  replicate (Z.to_nat ROWS) (replicate (Z.to_nat COLS) Empty).

(** [board.map(row => [...row])]. *)
Definition cloneBoard (board : Board) : Board :=
  (fun row => row) <$> board.

(** The read [board[row][col]].  A column index outside the row yields
    [undefined] ([None]).  A row index outside the board makes the source
    raise a [TypeError]; the model answers [None] there too, and every theorem
    about a function that reads rows assumes [wf_board], under which the rows
    [0 .. ROWS-1] that the code indexes all exist. *)
Definition cellAt (board : Board) (row col : Z) : option Cell :=
  if (0 <=? row) && (0 <=? col) then
    match board !! Z.to_nat row with
    | Some r => r !! Z.to_nat col
    | None => None
    end
  else None.

(** The loop [for (row = n - 1; row >= 0; row--)] of [getAvailableRow]. *)
Fixpoint scanRows (board : Board) (col : Z) (n : nat) : option Z :=
  match n with
  | O => None
  | S k =>
      if bool_decide (cellAt board (Z.of_nat k) col = Some Empty)
      then Some (Z.of_nat k)
      else scanRows board col k
  end.

(** [getAvailableRow]: [None] is the source's [null]. *)
Definition getAvailableRow (board : Board) (col : Z) : option Z :=
  scanRows board col (Z.to_nat ROWS).

(** [dropPiece]: the assignment [board[row][col] = player].  With a negative
    index or an index past the end the model leaves the board as it is (the
    source raises for a missing row and extends the row for a missing column);
    the explorers only pass a [row] obtained from [getAvailableRow]. *)
Definition dropPiece (board : Board) (row col : Z) (player : Player) : Board :=
  if (0 <=? row) && (0 <=? col) then
    alter (fun r => <[Z.to_nat col := Mark player]> r) (Z.to_nat row) board
  else board.

Definition directions : list (Z * Z) := [(0, 1); (1, 0); (1, 1); (1, -1)].

(** [nr >= 0 && nr < ROWS && nc >= 0 && nc < COLS]. *)
Definition inBounds (nr nc : Z) : bool :=
  (0 <=? nr) && (nr <? ROWS) && (0 <=? nc) && (nc <? COLS).

(** [board[r][c] === player]. *)
Definition holds (board : Board) (player : Player) (r c : Z) : bool :=
  bool_decide (cellAt board r c = Some (Mark player)).

(** The innermost loop of [isWinningMove]: [count] after [i = 0 .. 3]. *)
Definition countRun (board : Board) (player : Player) (r c : Z) (d : Z * Z) : Z :=
  fold_left
    (fun count i =>
       let nr := r + d.1 * i in
       let nc := c + d.2 * i in
       if inBounds nr nc && holds board player nr nc then count + 1 else count)
    [0; 1; 2; 3] 0.

(** The loop over [directions]; it returns [true] at the first direction
    whose count is 4. *)
Definition winsFrom (board : Board) (player : Player) (r c : Z) : bool :=
  existsb (fun d => countRun board player r c d =? 4) directions.

(** [isWinningMove]: the loops over [r] and [c], skipping the cells that do
    not hold [player]. *)
Definition isWinningMove (board : Board) (player : Player) : bool :=
  existsb
    (fun r =>
       existsb (fun c => holds board player r c && winsFrom board player r c)
         (seqZ 0 COLS))
    (seqZ 0 ROWS).

(** [[...Array(COLS).keys()].filter(col => getAvailableRow(board, col) !== null)]. *)
Definition getValidColumns (board : Board) : list Z :=
  filter (fun col => is_Some (getAvailableRow board col)) (seqZ 0 COLS).

(** The comparator of [sort((a, b) => Math.abs(3 - a) - Math.abs(3 - b))]
    orders by [centerDistance]; [Array.prototype.sort] is stable, so equal
    keys keep their order.  [sortByCenter] is the stable insertion sort. *)
Definition centerDistance (a : Z) : Z := Z.abs (3 - a).

Fixpoint insertByCenter (a : Z) (l : list Z) : list Z :=
  match l with
  | [] => [a]
  | b :: l' =>
      if centerDistance a <=? centerDistance b then a :: l
      else b :: insertByCenter a l'
  end.

Definition sortByCenter (l : list Z) : list Z := foldr insertByCenter [] l.

(** ** Outcome model *)

Inductive GameOutcome := WIN_P1 | WIN_P2 | DRAW.

#[global] Instance GameOutcome_eq_dec : EqDecision GameOutcome.
Proof. solve_decision. Defined.

#[warnings="-register-all"]
Inductive GameNode := mkNode {
  move : Z;
  outcome : GameOutcome;
  children : list GameNode
}.

(** [currentPlayer === 1 ? 2 : 1]. *)
Definition other (player : Player) : Player :=
  match player with P1 => P2 | P2 => P1 end.

(** [player === 1 ? "WIN_P1" : "WIN_P2"] and its mirror image. *)
Definition winOf (player : Player) : GameOutcome :=
  match player with P1 => WIN_P1 | P2 => WIN_P2 end.

Definition loseOf (player : Player) : GameOutcome :=
  match player with P1 => WIN_P2 | P2 => WIN_P1 end.

(** [summarizeOutcomes]: [some], then [every], then ["DRAW"]. *)
Definition summarizeOutcomes (nodes : list GameNode) (player : Player) : GameOutcome :=
  let win := winOf player in
  let lose := loseOf player in
  if existsb (fun n => bool_decide (outcome n = win)) nodes then win
  else if forallb (fun n => bool_decide (outcome n = lose)) nodes then lose
  else DRAW.

(** ** Tree explorer *)

(** The leaf returned at the depth cut-off and on a board without a legal
    move: [{ move: -1, outcome: "DRAW", children: [] }]. *)
Definition sentinel : GameNode := mkNode (-1) DRAW [].

(** The node pushed for an immediately winning placement. *)
Definition winNode (col : Z) (player : Player) : GameNode :=
  mkNode col (winOf player) [].

(** The type of the recursive call made from inside the loop. *)
Abbreviation Explorer := (Board -> Player -> Z -> option (list GameNode)).

(** The loop [for (const col of validCols)] of [exploreGameTree], with
    [results] as accumulator.  No iteration returns early: a winning
    placement is pushed like any other node. *)
Fixpoint exploreLoop (rec : Explorer) (board : Board) (currentPlayer opponent : Player)
    (depth : Z) (cols : list Z) (results : list GameNode) : option (list GameNode) :=
  match cols with
  | [] => Some results
  | col :: rest =>
      match getAvailableRow board col with
      | None => exploreLoop rec board currentPlayer opponent depth rest results
      | Some row =>
          let newBoard := dropPiece (cloneBoard board) row col currentPlayer in
          if isWinningMove newBoard currentPlayer then
            exploreLoop rec board currentPlayer opponent depth rest
              (results ++ [winNode col currentPlayer])
          else
            match rec newBoard opponent (depth - 1) with
            | None => None
            | Some nextMoves =>
                exploreLoop rec board currentPlayer opponent depth rest
                  (results ++
                   [mkNode col (summarizeOutcomes nextMoves currentPlayer) nextMoves])
            end
      end
  end.

(** The body of [exploreGameTree], the recursive call abstracted as [rec]. *)
Definition exploreBody (rec : Explorer) (board : Board) (currentPlayer : Player)
    (depth : Z) : option (list GameNode) :=
  let opponent := other currentPlayer in
  let validCols := sortByCenter (getValidColumns board) in
  if (depth =? 0) || (length validCols =? 0)%nat then Some [sentinel]
  else exploreLoop rec board currentPlayer opponent depth validCols [].

(** [exploreGameTree] of [src/pasOpti.ts]; [None] only when the fuel runs out. *)
Fixpoint exploreGameTree (fuel : nat) : Explorer :=
  match fuel with
  | O => fun _ _ _ => None
  | S fuel' => exploreBody (exploreGameTree fuel')
  end.

(** The branch [depth <= 3] of [exploreGameTreeSmart]: one node per reply of
    the opponent, none of them expanded.  The callbacks handed to
    [Promise.all] contain no [await], so they run in column order;
    [filter(Boolean)] drops the [null]s. *)
Definition shallowReplies (newBoard : Board) (opponent : Player) : list GameNode :=
  omap
    (fun subCol =>
       match getAvailableRow newBoard subCol with
       | None => None
       | Some subRow =>
           let subBoard := dropPiece (cloneBoard newBoard) subRow subCol opponent in
           if isWinningMove subBoard opponent
           then Some (mkNode subCol (winOf opponent) [])
           else Some (mkNode subCol DRAW [])
       end)
    (getValidColumns newBoard).

(** The loop of [exploreGameTreeSmart]; both [return] statements inside it
    leave the function with a one-element array. *)
Fixpoint smartLoop (rec : Explorer) (board : Board) (currentPlayer opponent : Player)
    (depth : Z) (cols : list Z) (results : list GameNode) : option (list GameNode) :=
  match cols with
  | [] => Some results
  | col :: rest =>
      match getAvailableRow board col with
      | None => smartLoop rec board currentPlayer opponent depth rest results
      | Some row =>
          let newBoard := dropPiece (cloneBoard board) row col currentPlayer in
          if isWinningMove newBoard currentPlayer then
            Some [winNode col currentPlayer]
          else
            match (if depth <=? 3 then Some (shallowReplies newBoard opponent)
                   else rec newBoard opponent (depth - 1)) with
            | None => None
            | Some children =>
                let outcome := summarizeOutcomes children currentPlayer in
                let result := mkNode col outcome children in
                if bool_decide (outcome = winOf currentPlayer) then Some [result]
                else smartLoop rec board currentPlayer opponent depth rest
                       (results ++ [result])
            end
      end
  end.

Definition smartBody (rec : Explorer) (board : Board) (currentPlayer : Player)
    (depth : Z) : option (list GameNode) :=
  let opponent := other currentPlayer in
  let validCols := sortByCenter (getValidColumns board) in
  if (depth =? 0) || (length validCols =? 0)%nat then Some [sentinel]
  else smartLoop rec board currentPlayer opponent depth validCols [].

(** [exploreGameTreeSmart]; the [await]s are sequential, so the function is
    modelled as the synchronous computation it performs. *)
Fixpoint exploreGameTreeSmart (fuel : nat) : Explorer :=
  match fuel with
  | O => fun _ _ _ => None
  | S fuel' => smartBody (exploreGameTreeSmart fuel')
  end.

(** ** Path extractor *)

(** The update of the captured variable [shortest] at a hit:
    [if (!shortest || newPath.length < shortest.length) shortest = newPath]. *)
Definition keepShorter (shortest : option (list Z)) (newPath : list Z) : option (list Z) :=
  match shortest with
  | None => Some newPath
  | Some s => if (length newPath <? length s)%nat then Some newPath else Some s
  end.

(** One iteration of the loop of [dfs], for the node [node]; the captured
    variable [shortest] is threaded through.  The parameters [depth] and
    [currentPlayer] are carried as in the source, which never reads them. *)
Fixpoint dfsNode (target : GameOutcome) (path : list Z) (node : GameNode)
    (depth : Z) (currentPlayer : Player) (shortest : option (list Z)) : option (list Z) :=
  match node with
  | mkNode mv oc ch =>
      let newPath := path ++ [mv] in
      if bool_decide (oc = target) && (length ch =? 0)%nat then
        keepShorter shortest newPath
      else if (0 <? length ch)%nat then
        fold_left
          (fun sh child => dfsNode target newPath child (depth + 1) (other currentPlayer) sh)
          ch shortest
      else shortest
  end.

(** [dfs(path, children, depth, currentPlayer)]. *)
Definition dfs (target : GameOutcome) (path : list Z) (nodes : list GameNode)
    (depth : Z) (currentPlayer : Player) (shortest : option (list Z)) : option (list Z) :=
  fold_left (fun sh node => dfsNode target path node depth currentPlayer sh) nodes shortest.

(** [findShortestWinningPath]: [None] is the source's [null]. *)
Definition findShortestWinningPath (nodes : list GameNode) (target : GameOutcome)
    : option (list Z) :=
  dfs target [] nodes 0 P1 None.

(** ** Well-formed boards *)

(** The fixed dimensions: [ROWS] rows of [COLS] cells. *)
Definition wf_board (board : Board) : Prop :=
  length board = Z.to_nat ROWS /\
  Forall (fun row => length row = Z.to_nat COLS) board.

Definition occupiedb (board : Board) (r c : Z) : bool :=
  match cellAt board r c with
  | Some (Mark _) => true
  | _ => false
  end.

(** The cell holds a player's mark. *)
Definition occupied (board : Board) (r c : Z) : Prop := occupiedb board r c = true.

(** Gravity: an occupied cell above the bottom row rests on an occupied cell. *)
Definition gravity (board : Board) : Prop :=
  forall r c, 0 <= r < ROWS - 1 -> 0 <= c < COLS ->
    occupied board r c -> occupied board (r + 1) c.

(** An executable check of [gravity], for concrete boards. *)
Definition gravityb (board : Board) : bool :=
  forallb
    (fun r =>
       forallb (fun c => implb (occupiedb board r c) (occupiedb board (r + 1) c))
         (seqZ 0 COLS))
    (seqZ 0 (ROWS - 1)).

(** No cell of the column is empty. *)
Definition columnFull (board : Board) (col : Z) : Prop :=
  forall r, 0 <= r < ROWS -> cellAt board r col <> Some Empty.


(** ** Notions used to state the properties of the tree *)

(** The number of empty cells, the measure that decreases along the
    recursion of the explorers. *)
Definition emptyInRow (row : list Cell) : nat :=
  length (filter (fun x => x = Empty) row).

Definition countEmpty (board : Board) : nat := sum_list (emptyInRow <$> board).

(** The number of marks of a player on the board. *)
Definition marksInRow (player : Player) (row : list Cell) : nat :=
  length (filter (fun x => x = Mark player) row).

Definition countMarks (player : Player) (board : Board) : nat :=
  sum_list (marksInRow player <$> board).

(** [reaches forest path n]: the node [n] occurs in [forest], and [path] is
    the list of the moves from a root of the forest down to [n], the move of
    [n] included. *)
Inductive reaches : list GameNode -> list Z -> GameNode -> Prop :=
| reaches_here (forest : list GameNode) (n : GameNode) :
    In n forest -> reaches forest [move n] n
| reaches_below (forest : list GameNode) (m : GameNode) (path : list Z) (n : GameNode) :
    In m forest -> reaches (children m) path n -> reaches forest (move m :: path) n.

(** A hit: the outcome is the target and the node has no children. *)
Definition hit (target : GameOutcome) (n : GameNode) : Prop :=
  outcome n = target /\ children n = [].

(** The player to move at a ply, plies counted from 0 at the roots: the
    player passed at the root at the even plies, the opponent at the odd
    ones.  The opponent is written out on the two players; the definition
    does not go through the function [other] of the code. *)
Definition moverAt (root : Player) (ply : nat) : Player :=
  if Nat.even ply then root
  else match root with P1 => P2 | P2 => P1 end.

(** The tree invariant, for a node produced when [mover] was to move: a node
    with children carries the summary of its children, and the children
    satisfy the invariant for the other player. *)
#[warnings="-register-all"]
Inductive TreeInv : Player -> GameNode -> Prop :=
| TreeInv_node (mover : Player) (n : GameNode) :
    (children n <> [] -> outcome n = summarizeOutcomes (children n) mover) ->
    Forall (TreeInv (other mover)) (children n) ->
    TreeInv mover n.

(** The node that an explorer builds for the column [col], where [kids]
    computes the children of a placement that does not win at once. *)
Definition nodeFor (kids : Board -> option (list GameNode)) (board : Board)
    (player : Player) (col : Z) (n : GameNode) : Prop :=
  exists row, getAvailableRow board col = Some row /\
    let newBoard := dropPiece (cloneBoard board) row col player in
    (isWinningMove newBoard player = true /\ n = winNode col player) \/
    (isWinningMove newBoard player = false /\
     exists next, kids newBoard = Some next /\
       n = mkNode col (summarizeOutcomes next player) next).

(** The children computed by [exploreGameTreeSmart] for a placement. *)
Definition smartKids (rec : Explorer) (opponent : Player) (depth : Z)
    (newBoard : Board) : option (list GameNode) :=
  if depth <=? 3 then Some (shallowReplies newBoard opponent)
  else rec newBoard opponent (depth - 1).

(** Replaying a list of moves, the players alternating from [player] on:
    [None] when a move is not legal, otherwise the final board. *)
Fixpoint playMoves (board : Board) (player : Player) (moves : list Z) : option Board :=
  match moves with
  | [] => Some board
  | col :: rest =>
      match getAvailableRow board col with
      | None => None
      | Some row =>
          playMoves (dropPiece (cloneBoard board) row col player) (other player) rest
      end
  end.

(** The paths of the hits below a node, in the order in which [dfs] meets
    them. *)
Fixpoint hitPathsNode (target : GameOutcome) (path : list Z) (node : GameNode)
    : list (list Z) :=
  match node with
  | mkNode mv oc ch =>
      if bool_decide (oc = target) && (length ch =? 0)%nat then [path ++ [mv]]
      else flat_map (hitPathsNode target (path ++ [mv])) ch
  end.

Definition hitPaths (target : GameOutcome) (path : list Z) (nodes : list GameNode)
    : list (list Z) :=
  flat_map (hitPathsNode target path) nodes.

(** The terminal check of the explorers: the budget is spent or no column
    is legal. *)
Definition terminal (board : Board) (depth : Z) : Prop :=
  depth = 0 \/ getValidColumns board = [].

(** [winningLine board player moves]: the moves are legal placements in
    columns of the grid, made in turn from [player] on; the last one wins at
    once for the player who makes it and no earlier one does. *)
Fixpoint winningLine (board : Board) (player : Player) (moves : list Z) : bool :=
  match moves with
  | [] => false
  | col :: rest =>
      match getAvailableRow board col with
      | None => false
      | Some row =>
          let newBoard := dropPiece (cloneBoard board) row col player in
          (0 <=? col) && (col <? COLS) &&
          match rest with
          | [] => isWinningMove newBoard player
          | _ :: _ =>
              negb (isWinningMove newBoard player) &&
              winningLine newBoard (other player) rest
          end
      end
  end.

(** ** The first program of [src/GO/puissance4.go]

    The functions that are written differently from the TypeScript ones.
    [isWinningMove] and [dropPiece] are the same line for line, [cloneBoard]
    yields the same copy of a 6 x 7 board, and the recursive
    [findShortestWinningPath] copies the path before it extends it, as [dfs]
    does.

    The models describe the Go functions on 6 x 7 boards and columns 0 to 6.
    Elsewhere the Go program stops with an index out of range (a column
    outside the grid, a board with a missing row, [cloneBoard] on a board
    with more than 6 rows), which the models do not represent: the
    statements about these functions assume [wf_board] and a column of the
    grid. *)
Module Go1.

(** [getAvailableRow] (first Go program): [-1] instead of [null]. *)
Fixpoint scanRows (board : Board) (col : Z) (n : nat) : Z :=
  match n with
  | O => -1
  | S k =>
      if bool_decide (cellAt board (Z.of_nat k) col = Some Empty)
      then Z.of_nat k
      else scanRows board col k
  end.

Definition getAvailableRow (board : Board) (col : Z) : Z :=
  scanRows board col (Z.to_nat ROWS).

(** [getValidColumns] (first Go program). *)
Definition getValidColumns (board : Board) : list Z :=
  filter (fun c => getAvailableRow board c <> -1) (seqZ 0 COLS).

(** [summarizeOutcomes] (first Go program): one loop that returns at the
    first win and clears [allLose] at a child that is not a loss. *)
Fixpoint summarizeLoop (win lose : GameOutcome) (nodes : list GameNode)
    (allLose : bool) : GameOutcome :=
  match nodes with
  | [] => if allLose then lose else DRAW
  | node :: rest =>
      if bool_decide (outcome node = win) then win
      else summarizeLoop win lose rest
             (if bool_decide (outcome node <> lose) then false else allLose)
  end.

Definition summarizeOutcomes (nodes : list GameNode) (player : Player) : GameOutcome :=
  summarizeLoop (winOf player) (loseOf player) nodes true.

(** [prioritizeCenter] (first Go program): the inner step compares
    [sorted[j]] with [sorted[i]] and swaps them when the former is closer to
    the centre column.  The indices are in range by construction; outside
    the range the source panics and the model leaves the list unchanged. *)
Definition swapIfCloser (center : Z) (i : nat) (sorted : list Z) (j : nat) : list Z :=
  match sorted !! i, sorted !! j with
  | Some si, Some sj =>
      if Z.abs (center - sj) <? Z.abs (center - si)
      then <[i := sj]> (<[j := si]> sorted)
      else sorted
  | _, _ => sorted
  end.

Definition prioritizeCenter (cols : list Z) : list Z :=
  let center := COLS / 2 in
  fold_left
    (fun sorted i =>
       fold_left (swapIfCloser center i) (seq (S i) (length cols - S i)) sorted)
    (seq 0 (length cols - 1)) cols.

(** The loop of [exploreGameTree] (first Go program). *)
Fixpoint exploreLoop (rec : Explorer) (board : Board) (currentPlayer opponent : Player)
    (depth : Z) (cols : list Z) (results : list GameNode) : option (list GameNode) :=
  match cols with
  | [] => Some results
  | col :: rest =>
      let row := getAvailableRow board col in
      if row =? -1 then exploreLoop rec board currentPlayer opponent depth rest results
      else
        let newBoard := dropPiece (cloneBoard board) row col currentPlayer in
        if isWinningMove newBoard currentPlayer then
          exploreLoop rec board currentPlayer opponent depth rest
            (results ++ [mkNode col (winOf currentPlayer) []])
        else
          match rec newBoard opponent (depth - 1) with
          | None => None
          | Some children =>
              exploreLoop rec board currentPlayer opponent depth rest
                (results ++
                 [mkNode col (summarizeOutcomes children currentPlayer) children])
          end
  end.

Definition exploreBody (rec : Explorer) (board : Board) (currentPlayer : Player)
    (depth : Z) : option (list GameNode) :=
  let opponent := other currentPlayer in
  let validCols := prioritizeCenter (getValidColumns board) in
  if (depth =? 0) || (length validCols =? 0)%nat then Some [sentinel]
  else exploreLoop rec board currentPlayer opponent depth validCols [].

(** [exploreGameTree] (first Go program); [None] only when the fuel runs out. *)
Fixpoint exploreGameTree (fuel : nat) : Explorer :=
  match fuel with
  | O => fun _ _ _ => None
  | S fuel' => exploreBody (exploreGameTree fuel')
  end.

End Go1.

(** ** The second program of [src/GO/puissance4.go]: the stack-based path
    extractor

    The second [findShortestWinningPath] of the Go file keeps the pending
    paths on an explicit stack and builds each child path with
    [append(item.path, node.Move)], without copying [item.path] first.  Go's
    [append] writes into the backing array of its argument whenever the
    capacity allows, so sibling paths can share storage; the model therefore
    keeps the backing arrays in an explicit memory. *)
Module Go2.

(** A value of type [[]int]: the backing array it points into, its length
    and its capacity.  Every slice of the extractor starts at offset 0. *)
Record slice := mkSlice { arr : nat; len : nat; cap : nat }.

(** The backing arrays, in allocation order. *)
Abbreviation heap := (list (list Z)).

(** [[]int{}]: length 0, capacity 0, no storage behind it. *)
Definition emptySlice : slice := mkSlice 0 0 0.

(** The elements a slice currently shows. *)
Definition elems (h : heap) (s : slice) : list Z :=
  take (len s) (default [] (h !! arr s)).

(** The capacity chosen when [append] has to grow by one element: the
    runtime doubles a capacity below 256 (and takes the needed length when
    that is larger); for 8-byte elements the doubled sizes are allocation
    size classes, so no rounding changes them. *)
Definition nextCap (oldCap newLen : nat) : nat :=
  if (oldCap + oldCap <? newLen)%nat then newLen else (oldCap + oldCap)%nat.

(** [append(s, x)]: in place when [len s < cap s], otherwise into a fresh
    array that receives a copy of the elements. *)
Definition append (h : heap) (s : slice) (x : Z) : heap * slice :=
  if (len s <? cap s)%nat then
    (alter (fun a => <[len s := x]> a) (arr s) h,
     mkSlice (arr s) (S (len s)) (cap s))
  else
    let c := nextCap (cap s) (S (len s)) in
    (h ++ [elems h s ++ x :: replicate (c - S (len s)) 0],
     mkSlice (length h) (S (len s)) c).

(** An entry of the stack. *)
Record item := mkItem { path : slice; nodes : list GameNode; player : Player }.

(** The variables of the function: the memory, the stack (its top first)
    and [shortest], which is always a fresh copy and so is kept as a value;
    [None] is Go's [nil]. *)
Record state := mkState {
  mem : heap;
  stack : list item;
  shortest : option (list Z)
}.

(** One iteration of [for _, node := range item.children]. *)
Definition visit (target : GameOutcome) (it : item) (st : state) (node : GameNode)
    : state :=
  let (h, newPath) := append (mem st) (path it) (move node) in
  if bool_decide (outcome node = target) && (length (children node) =? 0)%nat then
    match shortest st with
    | None => mkState h (stack st) (Some (elems h newPath))
    | Some s =>
        if (len newPath <? length s)%nat
        then mkState h (stack st) (Some (elems h newPath))
        else mkState h (stack st) (Some s)
    end
  else if (0 <? length (children node))%nat then
    mkState h (mkItem newPath (children node) (other (player it)) :: stack st)
      (shortest st)
  else mkState h (stack st) (shortest st).

(** The loop [for len(stack) > 0], one entry popped per unit of fuel. *)
Fixpoint drain (fuel : nat) (target : GameOutcome) (st : state)
    : option (option (list Z)) :=
  match fuel with
  | O => None
  | S fuel' =>
      match stack st with
      | [] => Some (shortest st)
      | it :: rest =>
          drain fuel' target
            (fold_left (visit target it) (nodes it)
               (mkState (mem st) rest (shortest st)))
      end
  end.

(** [findShortestWinningPath]; the outer [None] means that the fuel ran out. *)
Definition findShortestWinningPath (fuel : nat) (forest : list GameNode)
    (target : GameOutcome) : option (option (list Z)) :=
  drain fuel target (mkState [] [mkItem emptySlice forest P1] None).

(** The counting loop of [isWinningMove] (second Go program): it walks from
    the start cell and breaks at the first cell that is outside the grid or
    does not hold the player's mark. *)
Fixpoint runLoop (board : Board) (p : Player) (n : nat) (nr nc : Z) (d : Z * Z)
    (count : Z) : Z :=
  match n with
  | O => count
  | S k =>
      if (nr <? 0) || (ROWS <=? nr) || (nc <? 0) || (COLS <=? nc)
         || negb (holds board p nr nc)
      then count
      else runLoop board p k (nr + d.1) (nc + d.2) d (count + 1)
  end.

Definition isWinningMove (board : Board) (player : Player) : bool :=
  existsb
    (fun r =>
       existsb
         (fun c =>
            holds board player r c &&
            existsb (fun d => runLoop board player 4 r c d 0 =? 4) directions)
         (seqZ 0 COLS))
    (seqZ 0 ROWS).

(** [getAvailableRow] and [summarizeOutcomes] of the second program: the
    first is the one of the first program, the second makes the two passes
    of the TypeScript function. *)
Definition getAvailableRow : Board -> Z -> Z := Go1.getAvailableRow.

(** [getValidColumns] (second Go program): the columns whose top cell is
    empty. *)
Definition getValidColumns (board : Board) : list Z :=
  filter (fun c => cellAt board 0 c = Some Empty) (seqZ 0 COLS).

(** What the workers of [exploreGameTreeSmart] compute, one task per valid
    column.  A task is a function of its own copy of the board and of its
    column only, and the node it sends is stored at the index of its column,
    so the array returned does not depend on the schedule: the tasks are
    modelled in index order.  A task whose column has no free row sends
    nothing (the source would then wait forever for the missing result; a
    column whose top cell is empty always has a free row). *)
Fixpoint runTasks (rec : Explorer) (board : Board) (currentPlayer opponent : Player)
    (depth : Z) (cols : list Z) (resultNodes : list GameNode) : option (list GameNode) :=
  match cols with
  | [] => Some resultNodes
  | col :: rest =>
      let row := getAvailableRow board col in
      if row =? -1 then runTasks rec board currentPlayer opponent depth rest resultNodes
      else
        let newBoard := dropPiece board row col currentPlayer in
        if isWinningMove newBoard currentPlayer then
          runTasks rec board currentPlayer opponent depth rest
            (resultNodes ++ [mkNode col (winOf currentPlayer) []])
        else
          match rec newBoard opponent (depth - 1) with
          | None => None
          | Some children =>
              runTasks rec board currentPlayer opponent depth rest
                (resultNodes ++
                 [mkNode col (summarizeOutcomes children currentPlayer) children])
          end
  end.

Definition exploreBody (rec : Explorer) (board : Board) (currentPlayer : Player)
    (depth : Z) : option (list GameNode) :=
  if depth =? 0 then Some [sentinel]
  else
    let validCols := getValidColumns board in
    if (length validCols =? 0)%nat then Some [sentinel]
    else runTasks rec board currentPlayer (other currentPlayer) depth validCols [].

(** [exploreGameTreeSmart] (second Go program). *)
Fixpoint exploreGameTreeSmart (fuel : nat) : Explorer :=
  match fuel with
  | O => fun _ _ _ => None
  | S fuel' => exploreBody (exploreGameTreeSmart fuel')
  end.

End Go2.

(** ** Example boards and forests *)

(** Player 1 holds columns 1 to 3 of the bottom row and player 2 the cells
    above them; player 1 is to move and wins at once in column 0 or 4. *)
Definition threeInRow : Board :=
  dropPiece (dropPiece (dropPiece (dropPiece (dropPiece (dropPiece createBoard
    5 1 P1) 4 1 P2) 5 2 P1) 4 2 P2) 5 3 P1) 4 3 P2.

(** A forest on which the sharing shows: after the moves 3 3 3 the mover has
    two replies, column 2 (after which column 3 wins for player 1) and
    column 4 (a leaf that is not a hit). *)
Definition sharedPrefixForest : list GameNode :=
  [mkNode 3 WIN_P1
     [mkNode 3 WIN_P1
        [mkNode 3 WIN_P1
           [mkNode 2 WIN_P1 [mkNode 3 WIN_P1 []];
            mkNode 4 WIN_P2 []]]]].

(** A board written with the numbers of the source: 0 for an empty cell, 1
    and 2 for the marks of the players. *)
Definition boardOf (rows : list (list Z)) : Board :=
  map (map (fun z => if z =? 1 then Mark P1 else if z =? 2 then Mark P2 else Empty)) rows.

(** A position after 34 legal moves, player 1 to move, no line of four yet;
    columns 1 and 2 are the only ones left. *)
Definition lateBoard : Board :=
  boardOf
    [[2; 0; 0; 1; 2; 1; 1];
     [2; 0; 0; 2; 1; 2; 1];
     [2; 0; 0; 2; 1; 1; 1];
     [1; 0; 1; 2; 2; 1; 2];
     [2; 0; 2; 1; 2; 2; 1];
     [1; 2; 1; 1; 2; 2; 1]].

(** ** Further notions *)

(** The lists obtained from [l] by dropping some of its elements. *)
Fixpoint sublists (l : list Z) : list (list Z) :=
  match l with
  | [] => [[]]
  | x :: rest => map (cons x) (sublists rest) ++ sublists rest
  end.

(** A position after 41 legal moves without a line of four: the top cell of
    column 0 is the only empty one and player 2 is to move. *)
Definition lastCellBoard : Board :=
  boardOf
    [[0; 2; 1; 1; 2; 2; 2];
     [1; 1; 1; 2; 1; 1; 2];
     [2; 2; 1; 2; 2; 1; 1];
     [1; 1; 2; 2; 1; 2; 2];
     [1; 1; 2; 1; 1; 2; 1];
     [2; 1; 2; 1; 2; 2; 1]].

(** ** Random self-play *)

(** The loop of [simulateGame].  The column is [validCols[Math.floor(
    Math.random() * validCols.length)]]; the model takes the index of the
    [k]-th draw among [n] columns from [random k n].  An index outside
    [validCols] reads [undefined], for which [getAvailableRow] finds no
    empty cell, so that nothing is placed and the mover stays. *)
Fixpoint simulateLoop (random : nat -> nat -> nat) (k : nat) (board : Board)
    (currentPlayer : Player) (moves : nat) : Board :=
  match moves with
  | O => board
  | S moves' =>
      let validCols := getValidColumns board in
      if (length validCols =? 0)%nat then board
      else
        match validCols !! random k (length validCols) with
        | Some col =>
            match getAvailableRow board col with
            | Some row =>
                simulateLoop random (S k) (dropPiece board row col currentPlayer)
                  (other currentPlayer) moves'
            | None => simulateLoop random (S k) board currentPlayer moves'
            end
        | None => simulateLoop random (S k) board currentPlayer moves'
        end
  end.

(** [simulateGame(board, moves)]: player 1 starts; [while (moves-- > 0)]
    runs [moves] times for a positive integer and not at all otherwise. *)
Definition simulateGame (random : nat -> nat -> nat) (board : Board) (moves : Z) : Board :=
  simulateLoop random 0 board P1 (Z.to_nat moves).

(** ** Notions for the stack-based extractor *)

(** The number of nodes of a tree and of a forest. *)
Fixpoint nodeCount (n : GameNode) : nat :=
  match n with
  | mkNode _ _ ch => S (sum_list (map nodeCount ch))
  end.

Definition forestCount (forest : list GameNode) : nat := sum_list (map nodeCount forest).

(** A slice is backed by the memory [h]: its length is within its capacity
    and, when the capacity is not 0, its backing array exists and has as
    many elements as the capacity. *)
Definition backed (h : list (list Z)) (s : Go2.slice) : Prop :=
  (Go2.len s <= Go2.cap s)%nat /\
  ((0 < Go2.cap s)%nat ->
   exists a, h !! Go2.arr s = Some a /\ length a = Go2.cap s).

(** What the loops of the extractor still have in sight: the path kept in
    [shortest], the hits below the entries of the stack, and the hits below
    the nodes [todo] that the inner loop has not visited yet, whose parent
    path has [d] moves.  A candidate is given by its length [L] and its last
    move [m]. *)
Definition goCandidate (target : GameOutcome) (stack : list Go2.item)
    (shortest : option (list Z)) (d : nat) (todo : list GameNode) (L : nat) (m : Z)
    : Prop :=
  (exists s, shortest = Some s /\ length s = L /\ list.last s = Some m) \/
  (exists it q n, In it stack /\ reaches (Go2.nodes it) q n /\ hit target n /\
                  L = (Go2.len (Go2.path it) + length q)%nat /\ m = move n) \/
  (exists q n, reaches todo q n /\ hit target n /\
               L = (d + length q)%nat /\ m = move n).

(** The entries of the stack have backed paths, and a path kept in
    [shortest] is not empty. *)
Definition stackInv (st : Go2.state) : Prop :=
  (forall it, In it (Go2.stack st) -> backed (Go2.mem st) (Go2.path it)) /\
  (forall s, Go2.shortest st = Some s -> s <> []).

(** The pops that a stack still needs: one per entry and one per node below
    it. *)
Definition stackWeight (stack : list Go2.item) : nat :=
  sum_list (map (fun it => S (forestCount (Go2.nodes it))) stack).

(** Two sets of candidates with the same shortest lengths: [Q] is part of
    [P], and every candidate of [P] has one in [Q] that is not longer. *)
Definition sameShortest (P Q : nat -> Z -> Prop) : Prop :=
  (forall L m, Q L m -> P L m) /\
  (forall L m, P L m -> exists L' m', (L' <= L)%nat /\ Q L' m').

(** [r] is a shortest candidate of [P], or [None] when [P] has none. *)
Definition shortestOf (P : nat -> Z -> Prop) (r : option (list Z)) : Prop :=
  match r with
  | None => forall L m, ~ P L m
  | Some p => (exists m, list.last p = Some m /\ P (length p) m) /\
              forall L m, P L m -> (length p <= L)%nat
  end.

(** ** Forced wins in the forest of [exploreGameTree]

    The explorer classifies a node bottom-up with [summarizeOutcomes]: the
    node of a placement by player 1 that does not win at once is [WIN_P1]
    when some reply below it is, and the node of a reply by player 2 that
    does not win at once is [WIN_P1] when every node below it is.  The
    functions below follow this classification on the boards themselves,
    without building the forest. *)

(** Conjunction and disjunction over a list, stopping at the first element
    that decides. *)
Fixpoint allOf {A : Type} (f : A -> bool) (l : list A) : bool :=
  match l with
  | [] => true
  | x :: rest => if f x then allOf f rest else false
  end.

Fixpoint someOf {A : Type} (f : A -> bool) (l : list A) : bool :=
  match l with
  | [] => false
  | x :: rest => if f x then true else someOf f rest
  end.

(** [notWinP1 d board mover col] is a sufficient test for: the node that
    [exploreGameTree board mover (d + 1)] builds for the column [col] does
    not carry [WIN_P1].  For a placement by player 1: it does not win at
    once and no reply passes for [WIN_P1].  For a reply by player 2: it wins
    at once, or its children are the sentinel, or some placement of player 1
    below it fails to be [WIN_P1]. *)
Fixpoint notWinP1 (d : nat) (board : Board) (mover : Player) (col : Z) : bool :=
  match getAvailableRow board col with
  | None => false
  | Some row =>
      let newBoard := dropPiece (cloneBoard board) row col mover in
      match mover with
      | P1 =>
          if isWinningMove newBoard P1 then false
          else
            match d with
            | O => true
            | S d' => allOf (notWinP1 d' newBoard P2) (getValidColumns newBoard)
            end
      | P2 =>
          match d with
          | O => true
          | S d' =>
              if isWinningMove newBoard P2 then true
              else
                match getValidColumns newBoard with
                | [] => true
                | cols => someOf (notWinP1 d' newBoard P1) cols
                end
          end
      end
  end.
(** ** Facts about the board engine *)

Lemma In_seqZ (m n k : Z) : In k (seqZ m n) <-> m <= k < m + n.
Proof. rewrite <- list_elem_of_In. apply elem_of_seqZ. Qed.

Lemma gravityb_sound (board : Board) : gravityb board = true -> gravity board.
Proof.
  unfold gravityb, gravity, occupied. intros H r c Hr Hc Ho.
  rewrite forallb_forall in H.
  specialize (H r). rewrite In_seqZ in H.
  assert (Hin : 0 <= r < 0 + (ROWS - 1)) by lia.
  specialize (H Hin). rewrite forallb_forall in H.
  specialize (H c). rewrite In_seqZ in H.
  assert (Hic : 0 <= c < 0 + COLS) by lia.
  specialize (H Hic). rewrite Ho in H. exact H.
Qed.

Lemma cloneBoard_id (board : Board) : cloneBoard board = board.
Proof. unfold cloneBoard. apply list_fmap_id. Qed.

Lemma wf_board_createBoard : wf_board createBoard.
Proof. split; [reflexivity | repeat constructor]. Qed.

Lemma wf_board_cell (board : Board) (r c : Z) :
  wf_board board -> 0 <= r < ROWS -> 0 <= c < COLS ->
  exists x, cellAt board r c = Some x.
Proof.
  intros [Hlen Hrows] Hr Hc. unfold cellAt.
  replace ((0 <=? r) && (0 <=? c)) with true
    by (symmetry; apply andb_true_intro; split; apply Z.leb_le; lia).
  destruct (board !! Z.to_nat r) as [row|] eqn:Erow.
  - rewrite Forall_forall in Hrows.
    assert (Hl : length row = Z.to_nat COLS).
    { apply Hrows. apply list_elem_of_In. eapply list_elem_of_lookup_2; eauto. }
    destruct (row !! Z.to_nat c) as [x|] eqn:Ex; [eauto|].
    apply lookup_ge_None in Ex. unfold COLS in *. lia.
  - apply lookup_ge_None in Erow. unfold ROWS in *. lia.
Qed.

Lemma scanRows_None (board : Board) (col : Z) (n : nat) :
  scanRows board col n = None <->
  forall r, 0 <= r < Z.of_nat n -> cellAt board r col <> Some Empty.
Proof.
  induction n as [|k IH]; simpl.
  - split; [intros _ r Hr; lia | reflexivity].
  - case_bool_decide as Hc.
    + split; [discriminate|]. intros H. exfalso. apply (H (Z.of_nat k)); [lia|exact Hc].
    + rewrite IH. split; intros H r Hr.
      * destruct (decide (r = Z.of_nat k)) as [->|Hne]; [exact Hc|]. apply H. lia.
      * apply H. lia.
Qed.

Lemma scanRows_Some (board : Board) (col : Z) (n : nat) (row : Z) :
  scanRows board col n = Some row ->
  0 <= row < Z.of_nat n /\ cellAt board row col = Some Empty /\
  forall r, row < r < Z.of_nat n -> cellAt board r col <> Some Empty.
Proof.
  induction n as [|k IH]; simpl; [discriminate|].
  case_bool_decide as Hc.
  - intros [= <-]. repeat split; [lia | lia | exact Hc | intros r Hr; lia].
  - intros H. destruct (IH H) as (Hr & He & Habove).
    repeat split; [lia | lia | exact He |].
    intros r Hrr. destruct (decide (r = Z.of_nat k)) as [->|Hne]; [exact Hc|].
    apply Habove. lia.
Qed.

Lemma getAvailableRow_Some (board : Board) (col row : Z) :
  getAvailableRow board col = Some row ->
  0 <= row < ROWS /\ cellAt board row col = Some Empty /\
  forall r, row < r < ROWS -> cellAt board r col <> Some Empty.
Proof. unfold getAvailableRow. intros H. apply scanRows_Some in H. exact H. Qed.

Lemma getAvailableRow_None (board : Board) (col : Z) :
  getAvailableRow board col = None <-> columnFull board col.
Proof. unfold getAvailableRow, columnFull. rewrite scanRows_None. reflexivity. Qed.

Lemma gravity_column (board : Board) (col : Z) :
  gravity board -> 0 <= col < COLS -> occupied board 0 col ->
  forall r, 0 <= r < ROWS -> occupied board r col.
Proof.
  intros Hg Hc H0 r Hr.
  assert (Hnat : forall n : nat, Z.of_nat n < ROWS -> occupied board (Z.of_nat n) col).
  { induction n as [|n IH]; intros Hn; [exact H0|].
    replace (Z.of_nat (S n)) with (Z.of_nat n + 1) by lia.
    apply Hg; [unfold ROWS in *; lia | exact Hc | apply IH; lia]. }
  replace r with (Z.of_nat (Z.to_nat r)) by lia. apply Hnat. lia.
Qed.

Lemma occupied_not_empty (board : Board) (r c : Z) :
  occupied board r c -> cellAt board r c <> Some Empty.
Proof.
  unfold occupied, occupiedb. intros H E. rewrite E in H. discriminate.
Qed.

(** ** C7: legality consistency *)

(** C7.  On a 6 x 7 board that satisfies gravity, for a column in [0, COLS):
    [getAvailableRow] answers [None] exactly when the column is full, which is
    exactly when its top cell is occupied; and when it answers [Some row],
    [row] is an empty cell of the column and no empty cell of the column lies
    lower (has a larger row index), so it is the unique lowest empty row. *)
Theorem getAvailableRow_legality (board : Board) (col : Z) :
  wf_board board -> gravity board -> 0 <= col < COLS ->
  (getAvailableRow board col = None <-> columnFull board col) /\
  (columnFull board col <-> occupied board 0 col) /\
  (forall row, getAvailableRow board col = Some row ->
     0 <= row < ROWS /\ cellAt board row col = Some Empty /\
     (forall r, 0 <= r < ROWS -> cellAt board r col = Some Empty -> r <= row) /\
     (forall row', 0 <= row' < ROWS -> cellAt board row' col = Some Empty ->
        (forall r, 0 <= r < ROWS -> cellAt board r col = Some Empty -> r <= row') ->
        row' = row)).
Proof.
  intros Hwf Hg Hc. split; [apply getAvailableRow_None|]. split.
  - split.
    + intros Hfull. unfold occupied, occupiedb.
      destruct (wf_board_cell board 0 col Hwf) as [x Hx]; [unfold ROWS; lia | exact Hc |].
      rewrite Hx. destruct x as [|p]; [|reflexivity].
      exfalso. apply (Hfull 0); [unfold ROWS; lia | exact Hx].
    + intros H0 r Hr. apply occupied_not_empty. apply gravity_column; assumption.
  - intros row H. apply getAvailableRow_Some in H. destruct H as (Hr & He & Hbelow).
    assert (Hmax : forall r, 0 <= r < ROWS -> cellAt board r col = Some Empty -> r <= row).
    { intros r Hrr Hre. destruct (Z_le_gt_dec r row) as [Hle|Hgt]; [exact Hle|].
      exfalso. apply (Hbelow r); [lia | exact Hre]. }
    repeat split; try tauto; try lia; try exact Hmax.
    intros row' Hr' He' Hmax'.
    pose proof (Hmax row' Hr' He'). pose proof (Hmax' row Hr He). lia.
Qed.

Lemma getAvailableRow_legality_witness :
  (getAvailableRow createBoard 3 = None <-> columnFull createBoard 3) /\
  (columnFull createBoard 3 <-> occupied createBoard 0 3) /\
  (forall row, getAvailableRow createBoard 3 = Some row ->
     0 <= row < ROWS /\ cellAt createBoard row 3 = Some Empty /\
     (forall r, 0 <= r < ROWS -> cellAt createBoard r 3 = Some Empty -> r <= row) /\
     (forall row', 0 <= row' < ROWS -> cellAt createBoard row' 3 = Some Empty ->
        (forall r, 0 <= r < ROWS -> cellAt createBoard r 3 = Some Empty -> r <= row') ->
        row' = row)).
Proof.
  apply (getAvailableRow_legality createBoard 3).
  - exact wf_board_createBoard.
  - apply gravityb_sound. vm_compute. reflexivity.
  - unfold COLS. lia.
Defined.

(** ** C4: win detection *)

Lemma inBounds_true (nr nc : Z) :
  inBounds nr nc = true <-> 0 <= nr < ROWS /\ 0 <= nc < COLS.
Proof.
  unfold inBounds. rewrite !andb_true_iff, !Z.leb_le, !Z.ltb_lt. tauto.
Qed.

Lemma holds_true (board : Board) (player : Player) (r c : Z) :
  holds board player r c = true <-> cellAt board r c = Some (Mark player).
Proof. unfold holds. apply bool_decide_eq_true. Qed.

(** The counter reaches 4 exactly when each of the four steps passes the
    test of the innermost loop. *)
Lemma countRun_four (board : Board) (player : Player) (r c : Z) (d : Z * Z) :
  countRun board player r c d = 4 <->
  forall i, 0 <= i < 4 ->
    inBounds (r + d.1 * i) (c + d.2 * i) = true /\
    holds board player (r + d.1 * i) (c + d.2 * i) = true.
Proof.
  unfold countRun. cbn [fold_left].
  set (t := fun i => inBounds (r + d.1 * i) (c + d.2 * i)
                     && holds board player (r + d.1 * i) (c + d.2 * i)).
  assert (Hall : (forall i, 0 <= i < 4 -> t i = true) <->
                 (t 0 = true /\ t 1 = true /\ t 2 = true /\ t 3 = true)).
  { split.
    - intros H. repeat split; apply H; lia.
    - intros (H0 & H1 & H2 & H3) i Hi.
      assert (Hcase : i = 0 \/ i = 1 \/ i = 2 \/ i = 3) by lia.
      destruct Hcase as [-> | [-> | [-> | ->]]]; assumption. }
  assert (Ht : (forall i, 0 <= i < 4 ->
                  inBounds (r + d.1 * i) (c + d.2 * i) = true /\
                  holds board player (r + d.1 * i) (c + d.2 * i) = true) <->
               (forall i, 0 <= i < 4 -> t i = true)).
  { unfold t. split; intros H i Hi; specialize (H i Hi).
    - apply andb_true_intro. exact H.
    - apply andb_true_iff in H. exact H. }
  rewrite Ht, Hall. fold (t 0) (t 1) (t 2) (t 3).
  destruct (t 0), (t 1), (t 2), (t 3); cbn; split; intros H;
    try lia; try tauto; try (destruct H as (? & ? & ? & ?); discriminate).
Qed.

(** C4.  On a 6 x 7 board, [isWinningMove board player] is [true] exactly when
    there are a start cell [(r, c)] and one of the four directions
    [(dr, dc)] (horizontal, vertical, the two diagonals) such that the four
    cells [(r + dr * i, c + dc * i)], [i = 0 .. 3], are all inside the grid
    and all hold [player]'s mark. *)
Theorem isWinningMove_iff_run (board : Board) (player : Player) :
  wf_board board ->
  (isWinningMove board player = true <->
   exists r c dr dc,
     ((dr, dc) = (0, 1) \/ (dr, dc) = (1, 0) \/ (dr, dc) = (1, 1) \/ (dr, dc) = (1, -1)) /\
     forall i, 0 <= i < 4 ->
       (0 <= r + dr * i < ROWS /\ 0 <= c + dc * i < COLS) /\
       cellAt board (r + dr * i) (c + dc * i) = Some (Mark player)).
Proof.
  intros _. unfold isWinningMove, winsFrom. split.
  - intros H. apply existsb_exists in H. destruct H as (r & Hr & H).
    apply existsb_exists in H. destruct H as (c & Hc & H).
    apply andb_true_iff in H. destruct H as [_ H].
    apply existsb_exists in H. destruct H as ([dr dc] & Hd & H).
    apply Z.eqb_eq in H. rewrite countRun_four in H. cbn [fst snd] in H.
    exists r, c, dr, dc. split.
    + unfold directions in Hd. cbn in Hd. intuition congruence.
    + intros i Hi. destruct (H i Hi) as [Hb Hh].
      apply inBounds_true in Hb. apply holds_true in Hh. tauto.
  - intros (r & c & dr & dc & Hd & H).
    assert (H0 := H 0 ltac:(lia)). rewrite !Z.mul_0_r, !Z.add_0_r in H0.
    destruct H0 as [[Hr Hc] Hcell].
    apply existsb_exists. exists r. split; [apply In_seqZ; lia|].
    apply existsb_exists. exists c. split; [apply In_seqZ; lia|].
    apply andb_true_intro. split; [apply holds_true; exact Hcell|].
    apply existsb_exists. exists (dr, dc). split.
    + unfold directions. cbn. intuition congruence.
    + apply Z.eqb_eq. apply countRun_four. cbn [fst snd]. intros i Hi.
      destruct (H i Hi) as [Hb Hh]. split; [apply inBounds_true | apply holds_true]; tauto.
Qed.

Lemma isWinningMove_iff_run_witness :
  isWinningMove (dropPiece threeInRow 5 4 P1) P1 = true /\
  exists r c dr dc,
    ((dr, dc) = (0, 1) \/ (dr, dc) = (1, 0) \/ (dr, dc) = (1, 1) \/ (dr, dc) = (1, -1)) /\
    forall i, 0 <= i < 4 ->
      (0 <= r + dr * i < ROWS /\ 0 <= c + dc * i < COLS) /\
      cellAt (dropPiece threeInRow 5 4 P1) (r + dr * i) (c + dc * i) = Some (Mark P1).
Proof.
  assert (Hwf : wf_board (dropPiece threeInRow 5 4 P1))
    by (split; [reflexivity | repeat constructor]).
  assert (Hwin : isWinningMove (dropPiece threeInRow 5 4 P1) P1 = true)
    by (vm_compute; reflexivity).
  split; [exact Hwin|].
  exact (proj1 (isWinningMove_iff_run (dropPiece threeInRow 5 4 P1) P1 Hwf) Hwin).
Defined.

(** ** C3: summarization *)

Lemma existsb_outcome (nodes : list GameNode) (o : GameOutcome) :
  existsb (fun n => bool_decide (outcome n = o)) nodes = true <->
  Exists (fun n => outcome n = o) nodes.
Proof.
  rewrite existsb_exists, Exists_exists.
  split; intros (n & Hin & H); exists n; (split; [exact Hin|]).
  - apply bool_decide_eq_true in H. exact H.
  - apply bool_decide_eq_true. exact H.
Qed.

Lemma forallb_outcome (nodes : list GameNode) (o : GameOutcome) :
  forallb (fun n => bool_decide (outcome n = o)) nodes = true <->
  Forall (fun n => outcome n = o) nodes.
Proof.
  rewrite forallb_forall, Forall_forall. split; intros H n Hin.
  - apply H in Hin. apply bool_decide_eq_true in Hin. exact Hin.
  - apply bool_decide_eq_true. apply H. exact Hin.
Qed.

Lemma winOf_ne_loseOf (player : Player) : winOf player <> loseOf player.
Proof. destruct player; discriminate. Qed.

(** C3.  [summarizeOutcomes nodes M] is M's win exactly when some child is
    M's win; it is M's loss exactly when no child is M's win and every child
    is M's loss; it is [DRAW] in every other case. *)
Theorem summarizeOutcomes_correct (nodes : list GameNode) (M : Player) :
  (summarizeOutcomes nodes M = winOf M <->
     Exists (fun n => outcome n = winOf M) nodes) /\
  (summarizeOutcomes nodes M = loseOf M <->
     ~ Exists (fun n => outcome n = winOf M) nodes /\
     Forall (fun n => outcome n = loseOf M) nodes) /\
  (summarizeOutcomes nodes M = DRAW <->
     ~ Exists (fun n => outcome n = winOf M) nodes /\
     ~ Forall (fun n => outcome n = loseOf M) nodes).
Proof.
  unfold summarizeOutcomes.
  pose proof (existsb_outcome nodes (winOf M)) as He.
  pose proof (forallb_outcome nodes (loseOf M)) as Hf.
  pose proof (winOf_ne_loseOf M) as Hne.
  destruct (existsb _ nodes) eqn:Ee.
  - assert (Hex : Exists (fun n => outcome n = winOf M) nodes) by (apply He; reflexivity).
    split; [tauto|]. split; (split; [intros Heq; exfalso | tauto]).
    + apply Hne. exact Heq.
    + destruct M; discriminate Heq.
  - assert (Hnex : ~ Exists (fun n => outcome n = winOf M) nodes).
    { intros Hx. apply He in Hx. discriminate. }
    destruct (forallb _ nodes) eqn:Ef.
    + assert (Hall : Forall (fun n => outcome n = loseOf M) nodes) by (apply Hf; reflexivity).
      split; [|split]; (split; [intros Heq | tauto]); try tauto; exfalso.
      * apply Hne. symmetry. exact Heq.
      * destruct M; discriminate Heq.
    + assert (Hnall : ~ Forall (fun n => outcome n = loseOf M) nodes).
      { intros Hx. apply Hf in Hx. discriminate. }
      split; [|split]; (split; [intros Heq | tauto]); try tauto; exfalso;
        destruct M; discriminate Heq.
Qed.

(** ** Placing a piece *)

Lemma dropPiece_wf (board : Board) (row col : Z) (player : Player) :
  wf_board board -> wf_board (dropPiece board row col player).
Proof.
  intros [Hlen Hrows]. unfold dropPiece.
  destruct ((0 <=? row) && (0 <=? col)); [|split; assumption].
  split.
  - rewrite length_alter. exact Hlen.
  - revert Hrows. generalize (Z.to_nat row). clear Hlen.
    induction board as [|r0 board IH]; intros n Hrows; [constructor|].
    inversion Hrows as [|? ? Hr0 Hrest]; subst.
    destruct n as [|n]; cbn.
    + constructor; [rewrite length_insert; exact Hr0 | exact Hrest].
    + constructor; [exact Hr0 | apply IH; exact Hrest].
Qed.

Lemma emptyInRow_insert (row : list Cell) (i : nat) (player : Player) :
  row !! i = Some Empty ->
  (emptyInRow (<[i := Mark player]> row) + 1 = emptyInRow row)%nat.
Proof.
  unfold emptyInRow. revert i. induction row as [|x row IH]; intros i Hi; [discriminate|].
  destruct i as [|i]; cbn in Hi |- *.
  - injection Hi as ->.
    destruct (decide (Mark player = Empty)) as [Heq|_]; [discriminate|].
    destruct (decide (Empty = Empty)) as [_|Hne]; [|congruence].
    cbn. lia.
  - specialize (IH i Hi).
    destruct (decide (x = Empty)); cbn; [f_equal|]; exact IH.
Qed.

Lemma countEmpty_dropPiece (board : Board) (row col : Z) (player : Player) :
  cellAt board row col = Some Empty ->
  (countEmpty (dropPiece board row col player) + 1 = countEmpty board)%nat.
Proof.
  unfold cellAt, dropPiece, countEmpty.
  destruct ((0 <=? row) && (0 <=? col)); [|discriminate].
  generalize (Z.to_nat row) as i. generalize (Z.to_nat col) as j.
  intros j. induction board as [|r0 board IH]; intros i Hc; [discriminate|].
  destruct i as [|i]; simpl in Hc |- *.
  - pose proof (emptyInRow_insert r0 j player Hc). lia.
  - specialize (IH i Hc). unfold fmap, alter in IH. lia.
Qed.

(** The placement made by an explorer removes one empty cell. *)
Lemma countEmpty_move (board : Board) (col row : Z) (player : Player) :
  getAvailableRow board col = Some row ->
  (countEmpty (dropPiece (cloneBoard board) row col player) < countEmpty board)%nat.
Proof.
  intros H. apply getAvailableRow_Some in H. destruct H as (_ & He & _).
  rewrite cloneBoard_id.
  pose proof (countEmpty_dropPiece board row col player He). lia.
Qed.

Lemma wf_board_move (board : Board) (col row : Z) (player : Player) :
  wf_board board -> wf_board (dropPiece (cloneBoard board) row col player).
Proof. intros H. rewrite cloneBoard_id. apply dropPiece_wf. exact H. Qed.

(** ** Candidate columns *)

Lemma In_insertByCenter (a x : Z) (l : list Z) :
  In x (insertByCenter a l) <-> x = a \/ In x l.
Proof.
  induction l as [|b l IH]; cbn; [intuition|].
  destruct (centerDistance a <=? centerDistance b); cbn; [intuition|].
  rewrite IH. intuition.
Qed.

Lemma In_sortByCenter (x : Z) (l : list Z) : In x (sortByCenter l) <-> In x l.
Proof.
  induction l as [|a l IH]; cbn; [reflexivity|].
  rewrite In_insertByCenter, IH. intuition.
Qed.

Lemma length_insertByCenter (a : Z) (l : list Z) :
  length (insertByCenter a l) = S (length l).
Proof.
  induction l as [|b l IH]; cbn; [reflexivity|].
  destruct (centerDistance a <=? centerDistance b); cbn; [reflexivity|].
  rewrite IH. reflexivity.
Qed.

Lemma length_sortByCenter (l : list Z) : length (sortByCenter l) = length l.
Proof.
  unfold sortByCenter. induction l as [|a l IH]; cbn; [reflexivity|].
  rewrite length_insertByCenter, IH. reflexivity.
Qed.

Lemma In_getValidColumns (board : Board) (col : Z) :
  In col (getValidColumns board) <->
  0 <= col < COLS /\ is_Some (getAvailableRow board col).
Proof.
  unfold getValidColumns. rewrite <- list_elem_of_In, list_elem_of_filter, elem_of_seqZ.
  intuition lia.
Qed.

Lemma candidates_valid (board : Board) :
  Forall (fun col => is_Some (getAvailableRow board col))
    (sortByCenter (getValidColumns board)).
Proof.
  apply Forall_forall. intros col Hin.
  apply In_sortByCenter, In_getValidColumns in Hin. tauto.
Qed.

(** ** The loop of [exploreGameTree] *)

Section PairedLists.
Context {A B : Type} (R : A -> B -> Prop).

Lemma Forall2_In_right (l : list A) (k : list B) (y : B) :
  Forall2 R l k -> In y k -> exists x, In x l /\ R x y.
Proof.
  induction 1 as [|x y' l k HR _ IH]; cbn; [tauto|].
  intros [<-|Hin]; [exists x; tauto|].
  destruct (IH Hin) as (x' & Hx & HRx). exists x'. tauto.
Qed.

Lemma Forall2_In_left (l : list A) (k : list B) (x : A) :
  Forall2 R l k -> In x l -> exists y, In y k /\ R x y.
Proof.
  induction 1 as [|x' y l k HR _ IH]; cbn; [tauto|].
  intros [<-|Hin]; [exists y; tauto|].
  destruct (IH Hin) as (y' & Hy & HRy). exists y'. tauto.
Qed.

Lemma Forall2_same_length (l : list A) (k : list B) :
  Forall2 R l k -> length l = length k.
Proof. induction 1; cbn; congruence. Qed.
End PairedLists.

Section ExploreLoop.
Variables (rec : Explorer) (board : Board) (player : Player) (depth : Z).

Local Abbreviation kids := (fun newBoard : Board => rec newBoard (other player) (depth - 1)).

(** When every candidate is a legal column, the loop appends to [results]
    one node per candidate, in order. *)
Lemma exploreLoop_nodes (cols : list Z) (results res : list GameNode) :
  Forall (fun col => is_Some (getAvailableRow board col)) cols ->
  exploreLoop rec board player (other player) depth cols results = Some res ->
  exists out, res = results ++ out /\ Forall2 (nodeFor kids board player) cols out.
Proof.
  revert results. induction cols as [|col rest IH]; intros results Hvalid Hrun.
  - cbn in Hrun. injection Hrun as <-. exists []. rewrite app_nil_r. split; [reflexivity|constructor].
  - inversion Hvalid as [|? ? [row Hrow] Hrest]; subst.
    cbn [exploreLoop] in Hrun. rewrite Hrow in Hrun.
    destruct (isWinningMove (dropPiece (cloneBoard board) row col player) player) eqn:Ewin.
    + destruct (IH _ Hrest Hrun) as (out & -> & Hout).
      exists (winNode col player :: out). rewrite <- app_assoc. split; [reflexivity|].
      constructor; [|exact Hout]. exists row. split; [exact Hrow|]. left. tauto.
    + destruct (rec (dropPiece (cloneBoard board) row col player) (other player) (depth - 1))
        as [nextMoves|] eqn:Erec; [|discriminate].
      destruct (IH _ Hrest Hrun) as (out & -> & Hout).
      exists (mkNode col (summarizeOutcomes nextMoves player) nextMoves :: out).
      rewrite <- app_assoc. split; [reflexivity|].
      constructor; [|exact Hout]. exists row. split; [exact Hrow|]. right.
      split; [exact Ewin|]. exists nextMoves. split; [exact Erec|reflexivity].
Qed.

(** The loop runs to its end when every recursive call it makes returns. *)
Lemma exploreLoop_returns (cols : list Z) (results : list GameNode) :
  (forall col row, In col cols -> getAvailableRow board col = Some row ->
     is_Some (kids (dropPiece (cloneBoard board) row col player))) ->
  is_Some (exploreLoop rec board player (other player) depth cols results).
Proof.
  revert results. induction cols as [|col rest IH]; intros results Hrec; cbn [exploreLoop].
  - eexists. reflexivity.
  - assert (Hrest : forall c r, In c rest -> getAvailableRow board c = Some r ->
              is_Some (kids (dropPiece (cloneBoard board) r c player))).
    { intros c r Hin. apply Hrec. right. exact Hin. }
    destruct (getAvailableRow board col) as [row|] eqn:Hrow; [|apply IH; exact Hrest].
    destruct (isWinningMove _ player); [apply IH; exact Hrest|].
    destruct (Hrec col row (or_introl eq_refl) Hrow) as [nextMoves Hnext].
    cbn beta in Hnext. rewrite Hnext. apply IH. exact Hrest.
Qed.
End ExploreLoop.

(** ** The terminal check *)

Lemma terminal_test (board : Board) (depth : Z) :
  (depth =? 0) || (length (sortByCenter (getValidColumns board)) =? 0)%nat = true <->
  terminal board depth.
Proof.
  unfold terminal. rewrite orb_true_iff, Z.eqb_eq, Nat.eqb_eq, length_sortByCenter.
  split; (intros [H|H]; [left; exact H | right]).
  - destruct (getValidColumns board); [reflexivity | discriminate].
  - rewrite H. reflexivity.
Qed.

Lemma exploreGameTree_terminal (fuel : nat) (board : Board) (player : Player) (depth : Z) :
  terminal board depth -> exploreGameTree (S fuel) board player depth = Some [sentinel].
Proof.
  intros H. apply terminal_test in H. cbn [exploreGameTree]. unfold exploreBody.
  rewrite H. reflexivity.
Qed.

Lemma exploreGameTree_nodes (fuel : nat) (board : Board) (player : Player) (depth : Z)
    (forest : list GameNode) :
  ~ terminal board depth ->
  exploreGameTree (S fuel) board player depth = Some forest ->
  Forall2
    (nodeFor (fun newBoard => exploreGameTree fuel newBoard (other player) (depth - 1))
       board player)
    (sortByCenter (getValidColumns board)) forest.
Proof.
  intros Hnt Hrun. cbn [exploreGameTree] in Hrun. unfold exploreBody in Hrun.
  destruct ((depth =? 0) || _) eqn:Et; [apply terminal_test in Et; contradiction|].
  apply exploreLoop_nodes in Hrun; [|apply candidates_valid].
  destruct Hrun as (out & -> & Hout). exact Hout.
Qed.

(** ** C10: the recursion of [exploreGameTree] ends *)

Lemma exploreGameTree_returns (fuel : nat) :
  forall (board : Board) (player : Player) (depth : Z),
    (countEmpty board < fuel)%nat ->
    is_Some (exploreGameTree fuel board player depth).
Proof.
  induction fuel as [|fuel IH]; intros board player depth Hfuel; [lia|].
  cbn [exploreGameTree]. unfold exploreBody.
  destruct ((depth =? 0) || _); [eexists; reflexivity|].
  apply exploreLoop_returns. intros col row _ Hrow. apply IH.
  pose proof (countEmpty_move board col row player Hrow). lia.
Qed.

Lemma exploreGameTree_nonempty (fuel : nat) (board : Board) (player : Player) (depth : Z)
    (forest : list GameNode) :
  exploreGameTree fuel board player depth = Some forest -> forest <> [].
Proof.
  destruct fuel as [|fuel]; [discriminate|]. intros Hrun.
  destruct (decide (depth = 0)) as [Hd|Hd].
  - rewrite exploreGameTree_terminal in Hrun by (left; exact Hd).
    injection Hrun as <-. discriminate.
  - destruct (getValidColumns board) as [|c cs] eqn:Ecols.
    + rewrite exploreGameTree_terminal in Hrun by (right; exact Ecols).
      injection Hrun as <-. discriminate.
    + apply exploreGameTree_nodes in Hrun.
      * apply Forall2_same_length in Hrun. rewrite length_sortByCenter, Ecols in Hrun.
        intros ->. discriminate.
      * intros [H|H]; [contradiction | congruence].
Qed.

Lemma countEmpty_zero_terminal (board : Board) (depth : Z) :
  countEmpty board = 0%nat -> terminal board depth.
Proof.
  intros Hzero. right. destruct (getValidColumns board) as [|c cs] eqn:E; [reflexivity|].
  assert (Hin : In c (getValidColumns board)) by (rewrite E; left; reflexivity).
  apply In_getValidColumns in Hin. destruct Hin as [_ [row Hrow]].
  pose proof (countEmpty_move board c row P1 Hrow). lia.
Qed.

(** C10.  For every 6 x 7 board (gravity is not needed), either player and
    every integer depth, negative ones included: each placement made by
    [exploreGameTree] removes an empty cell from the board handed to the
    recursive call; a board without an empty cell meets the terminal check
    whatever the depth; so with more fuel than the board has empty cells the
    explorer returns a forest, and that forest is not empty. *)
Theorem exploreGameTree_terminates (board : Board) (player : Player) (depth : Z)
    (fuel : nat) :
  wf_board board -> (countEmpty board < fuel)%nat ->
  (forall col row, getAvailableRow board col = Some row ->
     wf_board (dropPiece (cloneBoard board) row col player) /\
     (countEmpty (dropPiece (cloneBoard board) row col player) < countEmpty board)%nat) /\
  (countEmpty board = 0%nat ->
     exploreGameTree fuel board player depth = Some [sentinel]) /\
  exists forest, exploreGameTree fuel board player depth = Some forest /\ forest <> [].
Proof.
  intros Hwf Hfuel. split; [|split].
  - intros col row Hrow. split; [apply wf_board_move; exact Hwf|].
    apply countEmpty_move. exact Hrow.
  - intros Hzero. destruct fuel as [|fuel]; [lia|].
    apply exploreGameTree_terminal. apply countEmpty_zero_terminal. exact Hzero.
  - destruct (exploreGameTree_returns fuel board player depth Hfuel) as [forest Hrun].
    exists forest. split; [exact Hrun|]. eapply exploreGameTree_nonempty. exact Hrun.
Qed.

Lemma exploreGameTree_terminates_witness :
  (forall col row, getAvailableRow createBoard col = Some row ->
     wf_board (dropPiece (cloneBoard createBoard) row col P2) /\
     (countEmpty (dropPiece (cloneBoard createBoard) row col P2) < countEmpty createBoard)%nat) /\
  (countEmpty createBoard = 0%nat ->
     exploreGameTree 43 createBoard P2 (-1) = Some [sentinel]) /\
  exists forest, exploreGameTree 43 createBoard P2 (-1) = Some forest /\ forest <> [].
Proof.
  apply (exploreGameTree_terminates createBoard P2 (-1) 43).
  - exact wf_board_createBoard.
  - vm_compute. lia.
Defined.

(** ** The loop of [exploreGameTreeSmart] *)

Section SmartLoop.
Variables (rec : Explorer) (board : Board) (player : Player) (depth : Z).

Local Abbreviation kids := (smartKids rec (other player) depth).

(** Every node of the result was already in [results] or is the node of one
    of the candidates. *)
Lemma smartLoop_members (cols : list Z) (results res : list GameNode) :
  smartLoop rec board player (other player) depth cols results = Some res ->
  forall n, In n res ->
    In n results \/ exists col, In col cols /\ nodeFor kids board player col n.
Proof.
  revert results. induction cols as [|col rest IH]; intros results Hrun n Hn.
  - cbn in Hrun. injection Hrun as <-. left. exact Hn.
  - cbn [smartLoop] in Hrun.
    assert (Hstep : forall acc, smartLoop rec board player (other player) depth rest acc = Some res ->
              In n acc \/ exists c, In c (col :: rest) /\ nodeFor kids board player c n).
    { intros acc Hacc. destruct (IH acc Hacc n Hn) as [Hin|(c & Hc & Hnode)]; [left; exact Hin|].
      right. exists c. split; [right; exact Hc | exact Hnode]. }
    destruct (getAvailableRow board col) as [row|] eqn:Hrow.
    2:{ destruct (Hstep _ Hrun) as [Hin|Hex]; [left; exact Hin | right; exact Hex]. }
    destruct (isWinningMove (dropPiece (cloneBoard board) row col player) player) eqn:Ewin.
    { injection Hrun as <-. destruct Hn as [<-|[]]. right. exists col.
      split; [left; reflexivity|]. exists row. split; [exact Hrow|]. left. tauto. }
    fold (smartKids rec (other player) depth (dropPiece (cloneBoard board) row col player)) in Hrun.
    destruct (kids (dropPiece (cloneBoard board) row col player)) as [ch|] eqn:Ekids; [|discriminate].
    assert (Hnode : nodeFor kids board player col (mkNode col (summarizeOutcomes ch player) ch)).
    { exists row. split; [exact Hrow|]. right. split; [exact Ewin|].
      exists ch. split; [exact Ekids | reflexivity]. }
    cbn zeta in Hrun. case_bool_decide as Hdec.
    + injection Hrun as <-. destruct Hn as [<-|[]]. right. exists col.
      split; [left; reflexivity | exact Hnode].
    + destruct (Hstep _ Hrun) as [Hin|Hex]; [|right; exact Hex].
      apply in_app_or in Hin. destruct Hin as [Hin|[<-|[]]]; [left; exact Hin|].
      right. exists col. split; [left; reflexivity | exact Hnode].
Qed.

Lemma smartLoop_returns (cols : list Z) (results : list GameNode) :
  (forall col row, In col cols -> getAvailableRow board col = Some row ->
     is_Some (kids (dropPiece (cloneBoard board) row col player))) ->
  is_Some (smartLoop rec board player (other player) depth cols results).
Proof.
  revert results. induction cols as [|col rest IH]; intros results Hrec; cbn [smartLoop].
  - eexists. reflexivity.
  - assert (Hrest : forall c r, In c rest -> getAvailableRow board c = Some r ->
              is_Some (kids (dropPiece (cloneBoard board) r c player))).
    { intros c r Hin. apply Hrec. right. exact Hin. }
    destruct (getAvailableRow board col) as [row|] eqn:Hrow; [|apply IH; exact Hrest].
    destruct (isWinningMove _ player); [eexists; reflexivity|].
    destruct (Hrec col row (or_introl eq_refl) Hrow) as [ch Hch].
    unfold smartKids in Hch. rewrite Hch. cbn zeta.
    case_bool_decide; [eexists; reflexivity | apply IH; exact Hrest].
Qed.

(** The loop leaves with the single winning node as soon as it meets a
    candidate whose placement wins at once, whatever it has accumulated and
    whatever candidates remain, provided no earlier candidate ended it. *)
Lemma smartLoop_early_exit (pre post : list Z) (col row : Z) (results : list GameNode) :
  (forall c r, In c pre -> getAvailableRow board c = Some r ->
     is_Some (kids (dropPiece (cloneBoard board) r c player))) ->
  (forall c n, In c pre -> nodeFor kids board player c n -> outcome n <> winOf player) ->
  getAvailableRow board col = Some row ->
  isWinningMove (dropPiece (cloneBoard board) row col player) player = true ->
  smartLoop rec board player (other player) depth (pre ++ col :: post) results
  = Some [winNode col player].
Proof.
  intros Hret Hpre Hrow Hwin. revert results Hret Hpre.
  induction pre as [|c pre IH]; intros results Hret Hpre; cbn [app smartLoop].
  - rewrite Hrow, Hwin. reflexivity.
  - assert (Hret' : forall c' r, In c' pre -> getAvailableRow board c' = Some r ->
              is_Some (kids (dropPiece (cloneBoard board) r c' player))).
    { intros c' r Hin. apply Hret. right. exact Hin. }
    assert (Hpre' : forall c' n, In c' pre -> nodeFor kids board player c' n ->
              outcome n <> winOf player).
    { intros c' n Hin. apply Hpre. right. exact Hin. }
    destruct (getAvailableRow board c) as [r|] eqn:Hr; [|apply IH; assumption].
    destruct (isWinningMove (dropPiece (cloneBoard board) r c player) player) eqn:Ew.
    { exfalso. apply (Hpre c (winNode c player) (or_introl eq_refl)); [|reflexivity].
      exists r. split; [exact Hr|]. left. tauto. }
    destruct (Hret c r (or_introl eq_refl) Hr) as [ch Hch].
    pose proof Hch as Hch'. unfold smartKids in Hch'. rewrite Hch'. cbn zeta.
    case_bool_decide as Hdec; [|apply IH; assumption].
    exfalso.
    apply (Hpre c (mkNode c (summarizeOutcomes ch player) ch) (or_introl eq_refl)); [|exact Hdec].
    exists r. split; [exact Hr|]. right. split; [exact Ew|].
    exists ch. split; [exact Hch | reflexivity].
Qed.
End SmartLoop.

Lemma exploreGameTreeSmart_terminal (fuel : nat) (board : Board) (player : Player)
    (depth : Z) :
  terminal board depth -> exploreGameTreeSmart (S fuel) board player depth = Some [sentinel].
Proof.
  intros H. apply terminal_test in H. cbn [exploreGameTreeSmart]. unfold smartBody.
  rewrite H. reflexivity.
Qed.

Lemma exploreGameTreeSmart_members (fuel : nat) (board : Board) (player : Player)
    (depth : Z) (forest : list GameNode) :
  ~ terminal board depth ->
  exploreGameTreeSmart (S fuel) board player depth = Some forest ->
  forall n, In n forest ->
    exists col, nodeFor (smartKids (exploreGameTreeSmart fuel) (other player) depth)
                  board player col n.
Proof.
  intros Hnt Hrun n Hn. cbn [exploreGameTreeSmart] in Hrun. unfold smartBody in Hrun.
  destruct ((depth =? 0) || _) eqn:Et; [apply terminal_test in Et; contradiction|].
  destruct (smartLoop_members _ _ _ _ _ _ _ Hrun n Hn) as [[]|(col & _ & Hnode)].
  exists col. exact Hnode.
Qed.

Lemma smartKids_returns (fuel : nat) :
  (forall (board : Board) (player : Player) (depth : Z),
     (countEmpty board < fuel)%nat -> is_Some (exploreGameTreeSmart fuel board player depth)) ->
  forall (board : Board) (player : Player) (depth col row : Z),
    (countEmpty board < S fuel)%nat -> getAvailableRow board col = Some row ->
    is_Some (smartKids (exploreGameTreeSmart fuel) (other player) depth
               (dropPiece (cloneBoard board) row col player)).
Proof.
  intros IH board player depth col row Hfuel Hrow. unfold smartKids.
  destruct (depth <=? 3); [eexists; reflexivity|]. apply IH.
  pose proof (countEmpty_move board col row player Hrow). lia.
Qed.

Lemma exploreGameTreeSmart_returns (fuel : nat) :
  forall (board : Board) (player : Player) (depth : Z),
    (countEmpty board < fuel)%nat ->
    is_Some (exploreGameTreeSmart fuel board player depth).
Proof.
  induction fuel as [|fuel IH]; intros board player depth Hfuel; [lia|].
  cbn [exploreGameTreeSmart]. unfold smartBody.
  destruct ((depth =? 0) || _); [eexists; reflexivity|].
  apply smartLoop_returns. intros col row _ Hrow.
  apply smartKids_returns; assumption.
Qed.

(** ** C8: the terminal check *)

Lemma getValidColumns_full (board : Board) :
  (forall r c, 0 <= r < ROWS -> 0 <= c < COLS -> cellAt board r c <> Some Empty) ->
  getValidColumns board = [].
Proof.
  intros Hfull. destruct (getValidColumns board) as [|c cs] eqn:E; [reflexivity|].
  assert (Hin : In c (getValidColumns board)) by (rewrite E; left; reflexivity).
  apply In_getValidColumns in Hin. destruct Hin as [Hc [row Hrow]].
  apply getAvailableRow_Some in Hrow. destruct Hrow as (Hr & He & _).
  exfalso. apply (Hfull row c Hr Hc He).
Qed.

(** C8.  On a 6 x 7 board, when the depth is 0 or no column is legal (as on
    a board without an empty cell), both explorers return exactly one node:
    move [-1], outcome [DRAW], no children. *)
Theorem explorers_terminal_sentinel (board : Board) (player : Player) (depth : Z)
    (fuel : nat) :
  wf_board board -> (0 < fuel)%nat ->
  depth = 0 \/ getValidColumns board = [] \/
    (forall r c, 0 <= r < ROWS -> 0 <= c < COLS -> cellAt board r c <> Some Empty) ->
  exploreGameTree fuel board player depth = Some [mkNode (-1) DRAW []] /\
  exploreGameTreeSmart fuel board player depth = Some [mkNode (-1) DRAW []].
Proof.
  intros _ Hfuel Hterm. destruct fuel as [|fuel]; [lia|].
  assert (Ht : terminal board depth).
  { destruct Hterm as [H|[H|H]]; [left; exact H | right; exact H |].
    right. apply getValidColumns_full. exact H. }
  split; [apply exploreGameTree_terminal | apply exploreGameTreeSmart_terminal]; exact Ht.
Qed.

Lemma explorers_terminal_sentinel_witness :
  exploreGameTree 1 (replicate 6 (replicate 7 (Mark P1))) P2 5 = Some [mkNode (-1) DRAW []] /\
  exploreGameTreeSmart 1 (replicate 6 (replicate 7 (Mark P1))) P2 5
  = Some [mkNode (-1) DRAW []].
Proof.
  apply (explorers_terminal_sentinel (replicate 6 (replicate 7 (Mark P1))) P2 5 1).
  - split; [reflexivity | repeat constructor].
  - lia.
  - right. left. vm_compute. reflexivity.
Defined.

(** ** C1: the tree invariant *)

Lemma terminal_cases (board : Board) (depth : Z) :
  terminal board depth \/ ~ terminal board depth.
Proof.
  unfold terminal. destruct (decide (depth = 0)) as [Hd|Hd]; [left; left; exact Hd|].
  destruct (getValidColumns board) as [|c cs]; [left; right; reflexivity|].
  right. intros [H|H]; [contradiction | discriminate].
Qed.

Lemma other_involutive (player : Player) : other (other player) = player.
Proof. destruct player; reflexivity. Qed.

Lemma TreeInv_leaf (mover : Player) (n : GameNode) : children n = [] -> TreeInv mover n.
Proof.
  intros H. constructor; [intros Hne; contradiction | rewrite H; constructor].
Qed.

Lemma nodeFor_TreeInv (kids : Board -> option (list GameNode)) (board : Board)
    (player : Player) (col : Z) (n : GameNode) :
  (forall newBoard next, kids newBoard = Some next -> Forall (TreeInv (other player)) next) ->
  nodeFor kids board player col n -> TreeInv player n.
Proof.
  intros Hkids (row & _ & [[_ ->]|[_ (next & Hnext & ->)]]).
  - apply TreeInv_leaf. reflexivity.
  - constructor; cbn [children outcome]; [reflexivity|]. eapply Hkids. exact Hnext.
Qed.

Lemma exploreGameTree_TreeInv (fuel : nat) :
  forall (board : Board) (player : Player) (depth : Z) (forest : list GameNode),
    exploreGameTree fuel board player depth = Some forest ->
    Forall (TreeInv player) forest.
Proof.
  induction fuel as [|fuel IH]; intros board player depth forest Hrun; [discriminate|].
  destruct (terminal_cases board depth) as [Ht|Hnt].
  - rewrite exploreGameTree_terminal in Hrun by exact Ht. injection Hrun as <-.
    constructor; [apply TreeInv_leaf; reflexivity | constructor].
  - apply exploreGameTree_nodes in Hrun; [|exact Hnt].
    apply Forall_forall. intros n Hn.
    destruct (Forall2_In_right _ _ _ _ Hrun Hn) as (col & _ & Hnode).
    eapply nodeFor_TreeInv; [|exact Hnode].
    intros newBoard next Hnext. eapply IH. exact Hnext.
Qed.

Lemma shallowReplies_leaves (newBoard : Board) (opponent : Player) (n : GameNode) :
  In n (shallowReplies newBoard opponent) -> children n = [].
Proof.
  unfold shallowReplies. rewrite <- list_elem_of_In, list_elem_of_omap.
  intros (subCol & _ & H).
  destruct (getAvailableRow newBoard subCol) as [subRow|]; [|discriminate].
  destruct (isWinningMove _ opponent); injection H as <-; reflexivity.
Qed.

Lemma exploreGameTreeSmart_TreeInv (fuel : nat) :
  forall (board : Board) (player : Player) (depth : Z) (forest : list GameNode),
    exploreGameTreeSmart fuel board player depth = Some forest ->
    Forall (TreeInv player) forest.
Proof.
  induction fuel as [|fuel IH]; intros board player depth forest Hrun; [discriminate|].
  destruct (terminal_cases board depth) as [Ht|Hnt].
  - rewrite exploreGameTreeSmart_terminal in Hrun by exact Ht. injection Hrun as <-.
    constructor; [apply TreeInv_leaf; reflexivity | constructor].
  - apply Forall_forall. intros n Hn.
    destruct (exploreGameTreeSmart_members _ _ _ _ _ Hnt Hrun n Hn) as (col & Hnode).
    eapply nodeFor_TreeInv; [|exact Hnode].
    intros newBoard next. unfold smartKids. destruct (depth <=? 3).
    + intros [= <-]. apply Forall_forall. intros k Hk.
      apply TreeInv_leaf. eapply shallowReplies_leaves. exact Hk.
    + intros Hnext. eapply IH. exact Hnext.
Qed.

Lemma reaches_nonempty (forest : list GameNode) (path : list Z) (n : GameNode) :
  reaches forest path n -> path <> [].
Proof. intros H. destruct H; discriminate. Qed.

Lemma moverAt_succ (root : Player) (ply : nat) :
  moverAt (other root) ply = moverAt root (S ply).
Proof.
  unfold moverAt. rewrite Nat.even_succ, <- Nat.negb_even.
  destruct root, (Nat.even ply); reflexivity.
Qed.

Lemma TreeInv_reaches (forest : list GameNode) (path : list Z) (n : GameNode) :
  reaches forest path n ->
  forall root, Forall (TreeInv root) forest ->
    TreeInv (moverAt root (length path - 1)) n.
Proof.
  induction 1 as [forest n Hin | forest m path n Hin Hreach IH]; intros root Hall.
  - rewrite Forall_forall in Hall. apply Hall. exact Hin.
  - rewrite Forall_forall in Hall. specialize (Hall m Hin).
    inversion Hall as [? ? _ Hkids]; subst.
    specialize (IH (other root) Hkids). rewrite moverAt_succ in IH.
    pose proof (reaches_nonempty _ _ _ Hreach) as Hne.
    destruct path as [|c path]; [contradiction|].
    cbn [length] in IH |- *. replace (S (length path) - 1)%nat with (length path) in IH by lia.
    replace (S (S (length path)) - 1)%nat with (S (length path)) by lia. exact IH.
Qed.

(** C1.  On a 6 x 7 board, with more fuel than the board has empty cells,
    [exploreGameTree] and [exploreGameTreeSmart] both return a forest, and
    every node of either forest that has children carries
    [summarizeOutcomes] of its children for the player to move at the node's
    ply, the players alternating from the one passed at the root.  The ply
    of a node is the length of its path minus one. *)
Theorem explorers_tree_invariant (board : Board) (player : Player) (depth : Z)
    (fuel : nat) :
  wf_board board -> (countEmpty board < fuel)%nat ->
  exists forest smartForest,
    exploreGameTree fuel board player depth = Some forest /\
    exploreGameTreeSmart fuel board player depth = Some smartForest /\
    forall path n,
      reaches forest path n \/ reaches smartForest path n ->
      children n <> [] ->
      outcome n = summarizeOutcomes (children n) (moverAt player (length path - 1)).
Proof.
  intros _ Hfuel.
  destruct (exploreGameTree_returns fuel board player depth Hfuel) as [forest Hrun].
  destruct (exploreGameTreeSmart_returns fuel board player depth Hfuel) as [smartForest Hsmart].
  exists forest, smartForest. split; [exact Hrun|]. split; [exact Hsmart|].
  intros path n Hreach Hkids.
  assert (Hinv : TreeInv (moverAt player (length path - 1)) n).
  { destruct Hreach as [Hreach|Hreach].
    - eapply TreeInv_reaches; [exact Hreach|]. eapply exploreGameTree_TreeInv. exact Hrun.
    - eapply TreeInv_reaches; [exact Hreach|]. eapply exploreGameTreeSmart_TreeInv. exact Hsmart. }
  inversion Hinv as [? ? Hsum _]; subst. apply Hsum. exact Hkids.
Qed.

Lemma explorers_tree_invariant_witness :
  exists forest smartForest,
    exploreGameTree 37 threeInRow P2 2 = Some forest /\
    exploreGameTreeSmart 37 threeInRow P2 2 = Some smartForest /\
    forall path n,
      reaches forest path n \/ reaches smartForest path n ->
      children n <> [] ->
      outcome n = summarizeOutcomes (children n) (moverAt P2 (length path - 1)).
Proof.
  apply (explorers_tree_invariant threeInRow P2 2 37).
  - split; [reflexivity | repeat constructor].
  - vm_compute. lia.
Defined.

(** ** C2: leaving the loop on a winning placement *)

(** C2, as stated, fails for [exploreGameTree]: on [threeInRow] with player 1
    to move and depth 1, column 4 is a candidate whose placement wins at
    once, and the forest still has one node for each of the seven legal
    columns. *)
Lemma exploreGameTree_keeps_siblings :
  wf_board threeInRow /\ gravity threeInRow /\
  In 4 (sortByCenter (getValidColumns threeInRow)) /\
  getAvailableRow threeInRow 4 = Some 5 /\
  isWinningMove (dropPiece (cloneBoard threeInRow) 5 4 P1) P1 = true /\
  exists forest,
    exploreGameTree 40 threeInRow P1 1 = Some forest /\
    length forest = 7%nat /\
    In (winNode 4 P1) forest /\
    forest <> [winNode 4 P1].
Proof.
  split; [split; [reflexivity | repeat constructor]|].
  split; [apply gravityb_sound; vm_compute; reflexivity|].
  split; [vm_compute; tauto|].
  split; [vm_compute; reflexivity|].
  split; [vm_compute; reflexivity|].
  eexists. split; [vm_compute; reflexivity|].
  split; [reflexivity|]. split; [cbn; tauto | discriminate].
Qed.

(** C2, amended.  On a 6 x 7 board, with a depth other than 0 and enough
    fuel: when the loop of [exploreGameTreeSmart] reaches a candidate column
    whose placement wins at once for the mover (the candidates before it, in
    centre-first order, all gave a node whose outcome is not the mover's win,
    so none of them ended the loop), the explorer returns the one-element
    forest made of that winning node; the nodes accumulated so far are
    dropped and the remaining candidates are not explored. *)
Theorem exploreGameTreeSmart_early_exit (board : Board) (player : Player) (depth : Z)
    (fuel : nat) (pre post : list Z) (col row : Z) :
  wf_board board -> (countEmpty board < S fuel)%nat -> depth <> 0 ->
  sortByCenter (getValidColumns board) = pre ++ col :: post ->
  (forall c n, In c pre ->
     nodeFor (smartKids (exploreGameTreeSmart fuel) (other player) depth) board player c n ->
     outcome n <> winOf player) ->
  getAvailableRow board col = Some row ->
  isWinningMove (dropPiece (cloneBoard board) row col player) player = true ->
  exploreGameTreeSmart (S fuel) board player depth = Some [winNode col player].
Proof.
  intros _ Hfuel Hd Hcols Hpre Hrow Hwin.
  cbn [exploreGameTreeSmart]. unfold smartBody.
  destruct ((depth =? 0) || _) eqn:Et.
  { apply terminal_test in Et. destruct Et as [Ht|Ht]; [contradiction|].
    rewrite Ht in Hcols. cbn in Hcols. destruct pre; discriminate. }
  rewrite Hcols. apply smartLoop_early_exit with (row := row); try assumption.
  intros c r _ Hr. apply smartKids_returns; [|exact Hfuel|exact Hr].
  apply exploreGameTreeSmart_returns.
Qed.

Lemma exploreGameTreeSmart_early_exit_witness :
  exploreGameTreeSmart 40 threeInRow P1 1 = Some [winNode 4 P1].
Proof.
  apply (exploreGameTreeSmart_early_exit threeInRow P1 1 39 [3; 2] [1; 5; 0; 6] 4 5).
  - split; [reflexivity | repeat constructor].
  - vm_compute. lia.
  - lia.
  - vm_compute. reflexivity.
  - intros c n Hc (r & Hr & Hnode).
    destruct Hc as [<-|[<-|[]]]; vm_compute in Hr; injection Hr as <-;
      (destruct Hnode as [[Hw _]|[_ (next & Hnext & ->)]];
       [vm_compute in Hw; discriminate | vm_compute in Hnext; injection Hnext as <-;
        vm_compute; discriminate]).
  - vm_compute. reflexivity.
  - vm_compute. reflexivity.
Defined.

(** ** The path extractor *)

Lemma GameNode_nested_ind (P : GameNode -> Prop) :
  (forall mv oc ch, Forall P ch -> P (mkNode mv oc ch)) -> forall n, P n.
Proof.
  intros Hnode. fix IH 1. intros [mv oc ch]. apply Hnode.
  induction ch as [|c ch IHch]; constructor; [apply IH | exact IHch].
Qed.

(** The recursive call of [dfs] on [node.children], as written in the source. *)
Lemma dfsNode_eq (target : GameOutcome) (path : list Z) (mv : Z) (oc : GameOutcome)
    (ch : list GameNode) (depth : Z) (currentPlayer : Player) (shortest : option (list Z)) :
  dfsNode target path (mkNode mv oc ch) depth currentPlayer shortest =
  if bool_decide (oc = target) && (length ch =? 0)%nat then
    keepShorter shortest (path ++ [mv])
  else if (0 <? length ch)%nat then
    dfs target (path ++ [mv]) ch (depth + 1) (other currentPlayer) shortest
  else shortest.
Proof. reflexivity. Qed.

Lemma dfs_cons (target : GameOutcome) (path : list Z) (n : GameNode) (nodes : list GameNode)
    (depth : Z) (currentPlayer : Player) (shortest : option (list Z)) :
  dfs target path (n :: nodes) depth currentPlayer shortest =
  dfs target path nodes depth currentPlayer
    (dfsNode target path n depth currentPlayer shortest).
Proof. reflexivity. Qed.

(** [dfs] folds [keepShorter] over the hit paths, in traversal order. *)
Lemma dfsNode_hitPaths (target : GameOutcome) (n : GameNode) :
  forall path depth currentPlayer shortest,
    dfsNode target path n depth currentPlayer shortest =
    fold_left keepShorter (hitPathsNode target path n) shortest.
Proof.
  induction n as [mv oc ch IH] using GameNode_nested_ind.
  intros path depth currentPlayer shortest. rewrite dfsNode_eq. cbn [hitPathsNode].
  destruct (bool_decide (oc = target) && (length ch =? 0)%nat); [reflexivity|].
  destruct ch as [|c ch]; [reflexivity|].
  change (0 <? length (c :: ch))%nat with true. cbv iota.
  generalize (depth + 1) (other currentPlayer) (path ++ [mv]). intros d q newPath.
  revert shortest. induction IH as [|k ks Hk _ IHks]; intros shortest; [reflexivity|].
  rewrite dfs_cons. cbn [flat_map]. rewrite fold_left_app, <- (Hk newPath d q). apply IHks.
Qed.

Lemma dfs_hitPaths (target : GameOutcome) (nodes : list GameNode) :
  forall path depth currentPlayer shortest,
    dfs target path nodes depth currentPlayer shortest =
    fold_left keepShorter (hitPaths target path nodes) shortest.
Proof.
  intros path depth currentPlayer. unfold hitPaths.
  induction nodes as [|n nodes IH]; intros shortest; [reflexivity|].
  rewrite dfs_cons. cbn [flat_map].
  rewrite fold_left_app, <- (dfsNode_hitPaths target n path depth currentPlayer). apply IH.
Qed.

(** Folding [keepShorter]: the result is the start value or an element of
    the list, and nothing in sight is strictly shorter. *)
Lemma keepShorter_fold (l : list (list Z)) :
  forall (start : option (list Z)) (s : list Z),
    fold_left keepShorter l start = Some s ->
    (start = Some s \/ In s l) /\
    (forall q, In q l -> (length s <= length q)%nat) /\
    (forall s0, start = Some s0 -> (length s <= length s0)%nat).
Proof.
  induction l as [|x l IH]; intros start s Hfold; cbn [fold_left] in Hfold.
  - split; [left; exact Hfold|]. split; [intros q []|].
    intros s0 Hs0. rewrite Hs0 in Hfold. injection Hfold as <-. lia.
  - destruct (IH _ _ Hfold) as (Hwhere & Hmin & Hstart).
    assert (Hx : (length s <= length x)%nat /\
                 (forall s0, start = Some s0 -> (length s <= length s0)%nat) /\
                 (keepShorter start x = Some s -> start = Some s \/ s = x)).
    { unfold keepShorter in *. destruct start as [s0|].
      - destruct (length x <? length s0)%nat eqn:Elt.
        + apply Nat.ltb_lt in Elt. pose proof (Hstart x eq_refl).
          split; [lia|]. split; [intros ? [= <-]; lia|]. intros [= <-]. right. reflexivity.
        + apply Nat.ltb_ge in Elt. pose proof (Hstart s0 eq_refl).
          split; [lia|]. split; [intros ? [= <-]; lia|]. intros [= <-]. left. reflexivity.
      - pose proof (Hstart x eq_refl). split; [lia|]. split; [discriminate|].
        intros [= <-]. right. reflexivity. }
    destruct Hx as (Hlx & Hs0 & Hkeep). split.
    + destruct Hwhere as [Hk|Hin]; [|right; right; exact Hin].
      destruct (Hkeep Hk) as [H|H]; [left; exact H | right; left; symmetry; exact H].
    + split; [|exact Hs0]. intros q [<-|Hq]; [exact Hlx | apply Hmin; exact Hq].
Qed.

Lemma keepShorter_fold_None (l : list (list Z)) :
  fold_left keepShorter l None = None <-> l = [].
Proof.
  destruct l as [|x l]; [tauto|]. split; [|discriminate]. cbn [fold_left keepShorter].
  assert (Hs : forall k s, exists s', fold_left keepShorter k (Some s) = Some s').
  { induction k as [|y k IH]; intros s; cbn [fold_left]; [eexists; reflexivity|].
    unfold keepShorter at 2. destruct (length y <? length s)%nat; apply IH. }
  destruct (Hs l x) as [s' Hs']. rewrite Hs'. discriminate.
Qed.

Lemma reaches_split (forest : list GameNode) (path : list Z) (n : GameNode) :
  reaches forest path n <-> exists c, In c forest /\ reaches [c] path n.
Proof.
  split.
  - intros H. destruct H as [forest n Hin | forest m path n Hin Hbelow].
    + exists n. split; [exact Hin|]. constructor. left. reflexivity.
    + exists m. split; [exact Hin|]. apply reaches_below; [left; reflexivity | exact Hbelow].
  - intros (c & Hc & H). inversion H as [? ? Hin | ? m ? ? Hin Hbelow]; subst.
    + destruct Hin as [<-|[]]. constructor. exact Hc.
    + destruct Hin as [<-|[]]. apply reaches_below; assumption.
Qed.

Lemma reaches_nil (path : list Z) (n : GameNode) : ~ reaches [] path n.
Proof. intros H. inversion H as [? ? Hin | ? ? ? ? Hin _]; destruct Hin. Qed.

Lemma hit_test (target : GameOutcome) (mv : Z) (oc : GameOutcome) (ch : list GameNode) :
  bool_decide (oc = target) && (length ch =? 0)%nat = true <->
  hit target (mkNode mv oc ch).
Proof.
  unfold hit. cbn [outcome children].
  rewrite andb_true_iff, bool_decide_eq_true, Nat.eqb_eq.
  split; intros [H1 H2]; (split; [exact H1|]).
  - destruct ch; [reflexivity | discriminate].
  - rewrite H2. reflexivity.
Qed.

(** The paths listed by [hitPathsNode] are the paths of the hits below the
    node, each prefixed with [path]. *)
Lemma In_hitPathsNode (target : GameOutcome) (n : GameNode) :
  forall path q,
    In q (hitPathsNode target path n) <->
    exists q' h, q = path ++ q' /\ reaches [n] q' h /\ hit target h.
Proof.
  induction n as [mv oc ch IH] using GameNode_nested_ind. intros path q.
  cbn [hitPathsNode].
  pose proof (hit_test target mv oc ch) as Hhit.
  destruct (bool_decide (oc = target) && (length ch =? 0)%nat) eqn:Etest.
  - assert (Hh : hit target (mkNode mv oc ch)) by (apply Hhit; reflexivity).
    split.
    + intros [<-|[]]. exists [mv], (mkNode mv oc ch). split; [reflexivity|].
      split; [|exact Hh]. apply (reaches_here [mkNode mv oc ch] (mkNode mv oc ch)).
      left. reflexivity.
    + intros (q' & h & -> & Hreach & Hhh).
      inversion Hreach as [? ? Hin | ? m ? ? Hin Hbelow]; subst.
      * destruct Hin as [<-|[]]. left. reflexivity.
      * destruct Hin as [<-|[]]. destruct Hh as [_ Hch]. cbn [children] in *.
        rewrite Hch in Hbelow. exfalso. eapply reaches_nil. exact Hbelow.
  - assert (Hnh : ~ hit target (mkNode mv oc ch)).
    { intros Hh. apply Hhit in Hh. discriminate. }
    rewrite in_flat_map. rewrite Forall_forall in IH. split.
    + intros (c & Hc & Hq). apply IH in Hq; [|exact Hc].
      destruct Hq as (q' & h & -> & Hreach & Hhh).
      exists (mv :: q'), h. rewrite <- app_assoc. split; [reflexivity|].
      split; [|exact Hhh].
      apply (reaches_below [mkNode mv oc ch] (mkNode mv oc ch)); [left; reflexivity|].
      apply reaches_split. exists c. split; [exact Hc | exact Hreach].
    + intros (q' & h & -> & Hreach & Hhh).
      inversion Hreach as [? ? Hin | ? m ? ? Hin Hbelow]; subst.
      * destruct Hin as [<-|[]]. contradiction.
      * destruct Hin as [<-|[]]. cbn [children move] in *.
        apply reaches_split in Hbelow. destruct Hbelow as (c & Hc & Hcreach).
        exists c. split; [exact Hc|]. apply IH; [exact Hc|].
        eexists _, h. rewrite <- app_assoc. split; [reflexivity|]. tauto.
Qed.

Lemma In_hitPaths (target : GameOutcome) (forest : list GameNode) (path q : list Z) :
  In q (hitPaths target path forest) <->
  exists q' h, q = path ++ q' /\ reaches forest q' h /\ hit target h.
Proof.
  unfold hitPaths. rewrite in_flat_map. split.
  - intros (c & Hc & Hq). apply In_hitPathsNode in Hq.
    destruct Hq as (q' & h & -> & Hreach & Hh). exists q', h.
    split; [reflexivity|]. split; [|exact Hh]. apply reaches_split. eauto.
  - intros (q' & h & -> & Hreach & Hh). apply reaches_split in Hreach.
    destruct Hreach as (c & Hc & Hreach). exists c. split; [exact Hc|].
    apply In_hitPathsNode. eauto.
Qed.

(** The two facts about [findShortestWinningPath] on which the statements
    below rest. *)
Lemma shortest_is_minimal_hit (forest : list GameNode) (target : GameOutcome)
    (path : list Z) :
  findShortestWinningPath forest target = Some path ->
  (exists n, reaches forest path n /\ hit target n) /\
  (forall q h, reaches forest q h -> hit target h -> (length path <= length q)%nat).
Proof.
  unfold findShortestWinningPath. rewrite dfs_hitPaths. intros Hfold.
  apply keepShorter_fold in Hfold. destruct Hfold as ([Hnone|Hin] & Hmin & _); [discriminate|].
  split.
  - apply In_hitPaths in Hin. destruct Hin as (q' & h & Heq & Hreach & Hh).
    cbn [app] in Heq. subst q'. exists h. tauto.
  - intros q h Hreach Hh. apply Hmin. apply In_hitPaths. exists q, h. tauto.
Qed.

Lemma shortest_none_iff_no_hit (forest : list GameNode) (target : GameOutcome) :
  findShortestWinningPath forest target = None <->
  ~ exists path n, reaches forest path n /\ hit target n.
Proof.
  unfold findShortestWinningPath. rewrite dfs_hitPaths, keepShorter_fold_None. split.
  - intros Hnil (path & n & Hreach & Hh).
    assert (Hin : In path (hitPaths target [] forest)).
    { apply In_hitPaths. exists path, n. tauto. }
    rewrite Hnil in Hin. exact Hin.
  - intros Hno. destruct (hitPaths target [] forest) as [|q l] eqn:E; [reflexivity|].
    exfalso. apply Hno.
    assert (Hin : In q (hitPaths target [] forest)) by (rewrite E; left; reflexivity).
    apply In_hitPaths in Hin. destruct Hin as (q' & h & Heq & Hreach & Hh).
    cbn [app] in Heq. subst q'. eauto.
Qed.

(** ** C5: the returned path is a shortest path to a hit *)

(** The recursive extractor of [src/pasOpti.ts] (and the first, recursive
    one of the Go file, which copies the path before extending it) satisfies
    the property: when [findShortestWinningPath forest target] returns a
    sequence, the sequence is the path from a root of the forest to a hit (a
    node with the target outcome and no children), and no hit of the forest
    has a strictly shorter path. *)
Lemma findShortestWinningPath_minimal (forest : list GameNode) (target : GameOutcome)
    (path : list Z) :
  findShortestWinningPath forest target = Some path ->
  (exists n, reaches forest path n /\ hit target n) /\
  (forall q h, reaches forest q h -> hit target h -> (length path <= length q)%nat).
Proof. apply shortest_is_minimal_hit. Qed.

(** C5.  The stack-based extractor of the second Go program breaks the
    property: it can return a sequence that is the path of no hit.  The paths
    of the children of one node share a backing array once the path of their
    parent has spare capacity (length 3, capacity 4), and the move of a later
    child overwrites the move of an earlier one before the stack entry of the
    earlier one is popped.
    - On [sharedPrefixForest] the only hit ends the moves 3 3 3 2 3, which is
      what the recursive extractor returns; the stack-based one returns
      3 3 3 4 3.
    - On the forest that [exploreGameTreeSmart] of the same program builds
      for [lateBoard], player 1 to move, depth 8, the stack-based extractor
      returns 2 1 2 2 1, the path of no hit (the recursive one returns
      2 1 2 1 1); played on the board, these five moves do not even end in a
      line of four. *)
Theorem go2_findShortestWinningPath_shares_paths :
  (Go2.findShortestWinningPath 6 sharedPrefixForest WIN_P1 = Some (Some [3; 3; 3; 4; 3]) /\
   findShortestWinningPath sharedPrefixForest WIN_P1 = Some [3; 3; 3; 2; 3] /\
   (forall q h, reaches sharedPrefixForest q h -> hit WIN_P1 h -> q = [3; 3; 3; 2; 3]) /\
   ~ (exists h, reaches sharedPrefixForest [3; 3; 3; 4; 3] h /\ hit WIN_P1 h)) /\
  (wf_board lateBoard /\ gravity lateBoard /\
   exists forest,
     Go2.exploreGameTreeSmart 9 lateBoard P1 8 = Some forest /\
     Go2.findShortestWinningPath 64 forest WIN_P1 = Some (Some [2; 1; 2; 2; 1]) /\
     findShortestWinningPath forest WIN_P1 = Some [2; 1; 2; 1; 1] /\
     ~ (exists h, reaches forest [2; 1; 2; 2; 1] h /\ hit WIN_P1 h) /\
     exists final, playMoves lateBoard P1 [2; 1; 2; 2; 1] = Some final /\
                   isWinningMove final P1 = false).
Proof.
  split.
  - assert (Honly : forall q h, reaches sharedPrefixForest q h -> hit WIN_P1 h ->
              q = [3; 3; 3; 2; 3]).
    { intros q h Hreach Hh.
      assert (Hin : In q (hitPaths WIN_P1 [] sharedPrefixForest)).
      { apply In_hitPaths. exists q, h. tauto. }
      vm_compute in Hin. destruct Hin as [<-|[]]. reflexivity. }
    split; [vm_compute; reflexivity|]. split; [vm_compute; reflexivity|].
    split; [exact Honly|].
    intros (h & Hreach & Hh). specialize (Honly _ _ Hreach Hh). discriminate Honly.
  - split; [split; [reflexivity | repeat constructor]|].
    split; [apply gravityb_sound; vm_compute; reflexivity|].
    eexists. split; [vm_compute; reflexivity|].
    split; [vm_compute; reflexivity|]. split; [vm_compute; reflexivity|]. split.
    + intros (h & Hreach & Hh).
      match type of Hreach with reaches ?f _ _ =>
        assert (Hin : In [2; 1; 2; 2; 1] (hitPaths WIN_P1 [] f))
      end.
      { apply In_hitPaths. eexists _, h. split; [reflexivity|]. tauto. }
      vm_compute in Hin. repeat (destruct Hin as [Hin|Hin]; [discriminate Hin|]).
      exact Hin.
    + eexists. split; [vm_compute; reflexivity | vm_compute; reflexivity].
Qed.

(** ** C6: no hit, no path *)

(** C6.  [findShortestWinningPath forest target] is [None], an ordinary
    value of its result type, exactly when no node of the forest has the
    target outcome and no children. *)
Theorem findShortestWinningPath_none (forest : list GameNode) (target : GameOutcome) :
  findShortestWinningPath forest target = None <->
  ~ exists path n, reaches forest path n /\ hit target n.
Proof. apply shortest_none_iff_no_hit. Qed.

(** ** C9: the empty board at depth 8 *)

(** The node of a legal column in the forest of [exploreGameTree]. *)
Lemma exploreGameTree_child (fuel : nat) (board : Board) (player : Player) (depth : Z)
    (forest : list GameNode) (col row : Z) :
  exploreGameTree (S fuel) board player depth = Some forest ->
  depth <> 0 -> 0 <= col < COLS -> getAvailableRow board col = Some row ->
  exists n, In n forest /\
    nodeFor (fun newBoard => exploreGameTree fuel newBoard (other player) (depth - 1))
      board player col n.
Proof.
  intros Hrun Hd Hcol Hrow.
  assert (Hin : In col (getValidColumns board)).
  { apply In_getValidColumns. split; [exact Hcol | eexists; exact Hrow]. }
  apply exploreGameTree_nodes in Hrun.
  - eapply Forall2_In_left; [exact Hrun|]. apply In_sortByCenter. exact Hin.
  - intros [H|H]; [contradiction|]. rewrite H in Hin. exact Hin.
Qed.

(** A winning line no longer than the depth budget ends at a childless node
    of the forest that carries the win of the player who made its last move. *)
Lemma winningLine_reaches (moves : list Z) :
  forall (fuel : nat) (board : Board) (player : Player) (depth : Z)
         (forest : list GameNode),
    winningLine board player moves = true ->
    exploreGameTree fuel board player depth = Some forest ->
    Z.of_nat (length moves) <= depth ->
    exists n, reaches forest moves n /\
      hit (winOf (moverAt player (length moves - 1))) n.
Proof.
  induction moves as [|col rest IH]; intros fuel board player depth forest Hline Hrun Hd;
    [discriminate|].
  destruct fuel as [|fuel]; [discriminate|].
  cbn [winningLine] in Hline.
  destruct (getAvailableRow board col) as [row|] eqn:Hrow; [|discriminate].
  apply andb_true_iff in Hline. destruct Hline as [Hcol Hline].
  apply andb_true_iff in Hcol. destruct Hcol as [Hc0 Hc1].
  apply Z.leb_le in Hc0. apply Z.ltb_lt in Hc1.
  assert (Hdepth : depth <> 0) by (cbn [length] in Hd; lia).
  destruct (exploreGameTree_child fuel board player depth forest col row Hrun Hdepth
              (conj Hc0 Hc1) Hrow) as (m & Hm & (row' & Hrow' & Hnode)).
  rewrite Hrow in Hrow'. injection Hrow' as <-. cbn zeta in Hnode.
  destruct rest as [|col' rest].
  - destruct Hnode as [[_ ->]|[Hno _]]; [|congruence].
    exists (winNode col player). split.
    + apply (reaches_here forest (winNode col player)). exact Hm.
    + split; reflexivity.
  - apply andb_true_iff in Hline. destruct Hline as [Hnowin Hline].
    apply negb_true_iff in Hnowin.
    destruct Hnode as [[Hwin _]|[_ (next & Hnext & ->)]]; [congruence|].
    destruct (IH fuel _ (other player) (depth - 1) next Hline Hnext) as (n & Hreach & Hhit).
    { cbn [length] in Hd |- *. lia. }
    exists n. split.
    + apply (reaches_below forest (mkNode col (summarizeOutcomes next player) next)); assumption.
    + rewrite moverAt_succ in Hhit. cbn [length] in Hhit |- *.
      replace (S (S (length rest)) - 1)%nat with (S (S (length rest) - 1))%nat by lia.
      exact Hhit.
Qed.

Lemma winOf_inj (p q : Player) : winOf p = winOf q -> p = q.
Proof. destruct p, q; intros H; try reflexivity; discriminate H. Qed.

(** Every childless winning node of the forest of [exploreGameTree] ends a
    legal sequence of alternate moves whose last placement wins for the
    player who makes it. *)
Lemma exploreGameTree_hit_play (forest : list GameNode) (path : list Z) (n : GameNode) :
  reaches forest path n ->
  forall (fuel : nat) (board : Board) (player who : Player) (depth : Z),
    exploreGameTree fuel board player depth = Some forest ->
    hit (winOf who) n ->
    moverAt player (length path - 1) = who /\
    exists final, playMoves board player path = Some final /\
                  isWinningMove final who = true.
Proof.
  induction 1 as [forest n Hin | forest m path n Hin Hreach IH];
    intros fuel board player who depth Hrun [Hout Hkids];
    (destruct fuel as [|fuel]; [discriminate|]);
    (destruct (terminal_cases board depth) as [Ht|Hnt];
     [rewrite exploreGameTree_terminal in Hrun by exact Ht; injection Hrun as <-;
      destruct Hin as [<-|[]] | ]).
  - destruct who; discriminate Hout.
  - apply exploreGameTree_nodes in Hrun; [|exact Hnt].
    destruct (Forall2_In_right _ _ _ _ Hrun Hin) as (col & _ & (row & Hrow & Hnode)).
    cbn zeta in Hnode. destruct Hnode as [[Hwin ->]|[_ (next & Hnext & ->)]].
    + cbn [outcome] in Hout. apply winOf_inj in Hout. subst who.
      split; [reflexivity|]. cbn [move winNode playMoves]. rewrite Hrow.
      eexists. split; [reflexivity | exact Hwin].
    + cbn [children] in Hkids. subst next.
      exfalso. eapply exploreGameTree_nonempty; [exact Hnext | reflexivity].
  - exfalso. eapply reaches_nil. exact Hreach.
  - apply exploreGameTree_nodes in Hrun; [|exact Hnt].
    destruct (Forall2_In_right _ _ _ _ Hrun Hin) as (col & _ & (row & Hrow & Hnode)).
    cbn zeta in Hnode. destruct Hnode as [[_ ->]|[_ (next & Hnext & ->)]].
    + exfalso. eapply reaches_nil. exact Hreach.
    + cbn [children] in Hreach, IH. cbn [move].
      destruct (IH fuel _ (other player) who (depth - 1) Hnext (conj Hout Hkids))
        as (Hwho & final & Hplay & Hfinal).
      pose proof (reaches_nonempty _ _ _ Hreach) as Hne.
      split.
      * rewrite moverAt_succ in Hwho. destruct path as [|c path]; [contradiction|].
        cbn [length] in Hwho |- *.
        replace (S (S (length path)) - 1)%nat with (S (S (length path) - 1))%nat by lia.
        exact Hwho.
      * exists final. cbn [playMoves]. rewrite Hrow. split; assumption.
Qed.

(** *** A line of four needs four marks *)

Lemma marksInRow_insert_le (q p : Player) (row : list Cell) (i : nat) :
  (marksInRow q (<[i := Mark p]> row)
   <= marksInRow q row + (if decide (q = p) then 1 else 0))%nat.
Proof.
  unfold marksInRow. revert i. induction row as [|x row IH]; intros i.
  { destruct i; cbn; lia. }
  destruct i as [|i]; cbn.
  - destruct (decide (Mark p = Mark q)) as [Heq|Hne].
    + injection Heq as ->. destruct (decide (q = q)); [|congruence].
      destruct (decide (x = Mark q)); cbn; lia.
    + destruct (decide (q = p)) as [->|_]; [congruence|].
      destruct (decide (x = Mark q)); cbn; lia.
  - specialize (IH i). destruct (decide (x = Mark q)); cbn; [apply le_n_S|]; exact IH.
Qed.

Lemma countMarks_dropPiece_le (q p : Player) (board : Board) (row col : Z) :
  (countMarks q (dropPiece board row col p)
   <= countMarks q board + (if decide (q = p) then 1 else 0))%nat.
Proof.
  unfold dropPiece, countMarks.
  destruct ((0 <=? row) && (0 <=? col)); [|destruct (decide (q = p)); lia].
  generalize (Z.to_nat row) as i. generalize (Z.to_nat col) as j. intros j.
  induction board as [|r0 board IH]; intros i;
    [destruct i; cbn; destruct (decide (q = p)); lia|].
  destruct i as [|i]; simpl.
  - pose proof (marksInRow_insert_le q p r0 j). destruct (decide (q = p)); lia.
  - specialize (IH i). unfold fmap, alter in IH. destruct (decide (q = p)); lia.
Qed.

Lemma marksInRow_overwrite (p q : Player) (row : list Cell) (i : nat) :
  row !! i = Some (Mark p) -> q <> p ->
  (marksInRow p (<[i := Mark q]> row) + 1 = marksInRow p row)%nat.
Proof.
  unfold marksInRow. revert i. induction row as [|x row IH]; intros i Hi Hne; [discriminate|].
  destruct i as [|i]; cbn in Hi |- *.
  - injection Hi as ->.
    destruct (decide (Mark q = Mark p)) as [Heq|_]; [congruence|].
    destruct (decide (Mark p = Mark p)) as [_|Hn]; [|congruence]. cbn. lia.
  - specialize (IH i Hi Hne). destruct (decide (x = Mark p)); cbn; [f_equal|]; exact IH.
Qed.

Lemma countMarks_overwrite (p q : Player) (board : Board) (row col : Z) :
  cellAt board row col = Some (Mark p) -> q <> p ->
  (countMarks p (dropPiece board row col q) + 1 = countMarks p board)%nat.
Proof.
  unfold cellAt, dropPiece, countMarks. intros Hc Hne. revert Hc.
  destruct ((0 <=? row) && (0 <=? col)); [|discriminate].
  generalize (Z.to_nat row) as i. generalize (Z.to_nat col) as j. intros j.
  induction board as [|r0 board IH]; intros i Hc; [discriminate|].
  destruct i as [|i]; simpl in Hc |- *.
  - pose proof (marksInRow_overwrite p q r0 j Hc Hne). lia.
  - specialize (IH i Hc). unfold fmap, alter in IH. lia.
Qed.

Lemma cellAt_dropPiece_other (board : Board) (row col : Z) (q : Player) (r c : Z) :
  (r, c) <> (row, col) ->
  cellAt (dropPiece board row col q) r c = cellAt board r c.
Proof.
  intros Hne. unfold dropPiece, cellAt.
  destruct (Z.leb_spec 0 row), (Z.leb_spec 0 col); cbn [andb]; try reflexivity.
  destruct (Z.leb_spec 0 r), (Z.leb_spec 0 c); cbn [andb]; try reflexivity.
  destruct (decide (Z.to_nat row = Z.to_nat r)) as [Hr|Hr].
  - rewrite <- Hr, list_lookup_alter_eq.
    destruct (board !! Z.to_nat row) as [r0|]; [|reflexivity]. cbn.
    apply list_lookup_insert_ne. intros Hc. apply Hne. f_equal; lia.
  - rewrite list_lookup_alter_ne by exact Hr. reflexivity.
Qed.

Lemma isWinningMove_run (board : Board) (player : Player) :
  isWinningMove board player = true ->
  exists r c dr dc, (dr <> 0 \/ dc <> 0) /\
    forall i, 0 <= i < 4 -> cellAt board (r + dr * i) (c + dc * i) = Some (Mark player).
Proof.
  unfold isWinningMove, winsFrom. intros H.
  apply existsb_exists in H. destruct H as (r & _ & H).
  apply existsb_exists in H. destruct H as (c & _ & H).
  apply andb_true_iff in H. destruct H as [_ H].
  apply existsb_exists in H. destruct H as ([dr dc] & Hd & H).
  apply Z.eqb_eq in H. rewrite countRun_four in H. cbn [fst snd] in H.
  exists r, c, dr, dc. split.
  - unfold directions in Hd. cbn in Hd.
    destruct Hd as [Hd|[Hd|[Hd|[Hd|[]]]]]; injection Hd as <- <-; lia.
  - intros i Hi. destruct (H i Hi) as [_ Hh]. apply holds_true in Hh. exact Hh.
Qed.

(** A board on which a player has four in a line carries at least four of
    the player's marks. *)
Lemma win_needs_four_marks (board : Board) (player : Player) :
  isWinningMove board player = true -> (4 <= countMarks player board)%nat.
Proof.
  intros H. apply isWinningMove_run in H. destruct H as (r & c & dr & dc & Hd & Hrun).
  assert (Hq : other player <> player) by (destruct player; discriminate).
  set (b1 := dropPiece board (r + dr * 0) (c + dc * 0) (other player)).
  set (b2 := dropPiece b1 (r + dr * 1) (c + dc * 1) (other player)).
  set (b3 := dropPiece b2 (r + dr * 2) (c + dc * 2) (other player)).
  assert (H0 := countMarks_overwrite player (other player) board _ _ (Hrun 0 ltac:(lia)) Hq).
  assert (H1 : cellAt b1 (r + dr * 1) (c + dc * 1) = Some (Mark player)).
  { unfold b1. rewrite cellAt_dropPiece_other; [apply Hrun; lia|]. intros [= E1 E2]. lia. }
  assert (H2 : cellAt b2 (r + dr * 2) (c + dc * 2) = Some (Mark player)).
  { unfold b2, b1. rewrite !cellAt_dropPiece_other; [apply Hrun; lia| |];
      intros [= E1 E2]; lia. }
  assert (H3 : cellAt b3 (r + dr * 3) (c + dc * 3) = Some (Mark player)).
  { unfold b3, b2, b1. rewrite !cellAt_dropPiece_other; [apply Hrun; lia| | |];
      intros [= E1 E2]; lia. }
  pose proof (countMarks_overwrite player (other player) b1 _ _ H1 Hq) as C1.
  pose proof (countMarks_overwrite player (other player) b2 _ _ H2 Hq) as C2.
  pose proof (countMarks_overwrite player (other player) b3 _ _ H3 Hq) as C3.
  fold b1 in H0. fold b2 in C1. fold b3 in C2. lia.
Qed.

(** Replaying [moves] adds at most one mark per move, to the player whose
    turn it is. *)
Lemma playMoves_marks (moves : list Z) :
  forall (board final : Board) (player : Player),
    playMoves board player moves = Some final ->
    (countMarks player final <= countMarks player board + (length moves + 1) / 2)%nat /\
    (countMarks (other player) final
     <= countMarks (other player) board + length moves / 2)%nat.
Proof.
  induction moves as [|col rest IH]; intros board final player Hplay; cbn [playMoves] in Hplay.
  - injection Hplay as <-. cbn. lia.
  - destruct (getAvailableRow board col) as [row|]; [|discriminate].
    apply IH in Hplay. rewrite other_involutive in Hplay. destruct Hplay as [Ho Hp].
    rewrite cloneBoard_id in Ho, Hp.
    pose proof (countMarks_dropPiece_le player player board row col) as Dp.
    pose proof (countMarks_dropPiece_le (other player) player board row col) as Do.
    destruct (decide (player = player)) as [_|Hn]; [|congruence].
    destruct (decide (other player = player)) as [He|_]; [destruct player; discriminate He|].
    cbn [length].
    replace ((S (length rest) + 1) / 2)%nat with (S (length rest / 2)).
    2:{ replace (S (length rest) + 1)%nat with (length rest + 1 * 2)%nat by lia.
        rewrite Nat.div_add by lia. lia. }
    assert ((length rest + 1) / 2 <= S (length rest) / 2)%nat.
    { replace (length rest + 1)%nat with (S (length rest)) by lia. lia. }
    lia.
Qed.

(** C9, amended: a winning line instead of a forced win.  From the empty
    6 x 7 board, player 1 to move, depth 8 (and more fuel than the 42 empty
    cells): the forest of [exploreGameTree] holds a childless node won by
    player 1, at the end of the moves 3 2 3 2 3 2 3, a line of play in which
    player 2 does not defend; so [findShortestWinningPath] returns a
    sequence, which is not empty: it
    has exactly 7 moves, since a line of four needs four marks; replayed on
    the empty board with player 1 making the moves at the even indices and
    player 2 those at the odd indices, every move of the sequence is legal
    and the last one, made by player 1, completes a line of four. *)
Theorem empty_board_depth8_path (fuel : nat) :
  (42 < fuel)%nat ->
  exists forest path,
    exploreGameTree fuel createBoard P1 8 = Some forest /\
    (exists h, reaches forest [3; 2; 3; 2; 3; 2; 3] h /\ hit WIN_P1 h) /\
    findShortestWinningPath forest WIN_P1 = Some path /\
    path <> [] /\ length path = 7%nat /\
    moverAt P1 (length path - 1) = P1 /\
    exists final, playMoves createBoard P1 path = Some final /\
                  isWinningMove final P1 = true.
Proof.
  intros Hfuel.
  destruct (exploreGameTree_returns fuel createBoard P1 8) as [forest Hrun].
  { change (countEmpty createBoard) with 42%nat. exact Hfuel. }
  assert (Hline : exists h, reaches forest [3; 2; 3; 2; 3; 2; 3] h /\ hit WIN_P1 h).
  { apply (winningLine_reaches [3; 2; 3; 2; 3; 2; 3] fuel createBoard P1 8 forest);
      [vm_compute; reflexivity | exact Hrun | cbn; lia]. }
  destruct (findShortestWinningPath forest WIN_P1) as [path|] eqn:Epath.
  2:{ exfalso. apply shortest_none_iff_no_hit in Epath. apply Epath.
      destruct Hline as (h & Hreach & Hh). eauto. }
  exists forest, path. split; [exact Hrun|]. split; [exact Hline|]. split; [exact Epath|].
  apply shortest_is_minimal_hit in Epath.
  destruct Epath as ((n & Hreach & Hhit) & Hmin).
  split; [eapply reaches_nonempty; exact Hreach|].
  destruct (exploreGameTree_hit_play forest path n Hreach fuel createBoard P1 P1 8 Hrun Hhit)
    as (Hlast & final & Hplay & Hwin).
  split; [|split; [exact Hlast | exists final; split; assumption]].
  assert (Hupper : (length path <= 7)%nat).
  { destruct Hline as (h & Hr & Hh). apply (Hmin _ _ Hr Hh). }
  pose proof (win_needs_four_marks final P1 Hwin) as Hfour.
  destruct (playMoves_marks path createBoard final P1 Hplay) as [Hmarks _].
  change (countMarks P1 createBoard) with 0%nat in Hmarks.
  assert (Hlower : (4 <= (length path + 1) / 2)%nat) by lia.
  assert (Hseven : (7 <= length path)%nat).
  { destruct (le_lt_dec 7 (length path)) as [Hle|Hlt]; [exact Hle|]. exfalso.
    assert (Hdiv : ((length path + 1) / 2 < 4)%nat).
    { apply Nat.Div0.div_lt_upper_bound. lia. }
    lia. }
  lia.
Qed.

Lemma empty_board_depth8_path_witness :
  exists forest path,
    exploreGameTree 43 createBoard P1 8 = Some forest /\
    (exists h, reaches forest [3; 2; 3; 2; 3; 2; 3] h /\ hit WIN_P1 h) /\
    findShortestWinningPath forest WIN_P1 = Some path /\
    path <> [] /\ length path = 7%nat /\
    moverAt P1 (length path - 1) = P1 /\
    exists final, playMoves createBoard P1 path = Some final /\
                  isWinningMove final P1 = true.
Proof. apply (empty_board_depth8_path 43). lia. Defined.

(** ** C9: no forced win within depth 8 *)

Lemma allOf_In {A : Type} (f : A -> bool) (l : list A) (x : A) :
  allOf f l = true -> In x l -> f x = true.
Proof.
  induction l as [|y l IH]; cbn [allOf]; [intros _ []|].
  destruct (f y) eqn:E; [|discriminate]. intros H [<-|Hin]; [exact E | apply IH; assumption].
Qed.

Lemma someOf_In {A : Type} (f : A -> bool) (l : list A) :
  someOf f l = true -> exists x, In x l /\ f x = true.
Proof.
  induction l as [|y l IH]; cbn [someOf]; [discriminate|].
  destruct (f y) eqn:E.
  - intros _. exists y. split; [left; reflexivity | exact E].
  - intros H. destruct (IH H) as (x & Hin & Hx). exists x. split; [right; exact Hin | exact Hx].
Qed.

Lemma notWinP1_eq (d : nat) (board : Board) (mover : Player) (col : Z) :
  notWinP1 d board mover col =
  match getAvailableRow board col with
  | None => false
  | Some row =>
      let newBoard := dropPiece (cloneBoard board) row col mover in
      match mover with
      | P1 =>
          if isWinningMove newBoard P1 then false
          else
            match d with
            | O => true
            | S d' => allOf (notWinP1 d' newBoard P2) (getValidColumns newBoard)
            end
      | P2 =>
          match d with
          | O => true
          | S d' =>
              if isWinningMove newBoard P2 then true
              else
                match getValidColumns newBoard with
                | [] => true
                | cols => someOf (notWinP1 d' newBoard P1) cols
                end
          end
      end
  end.
Proof. destruct d; reflexivity. Qed.

Lemma nodeFor_column (kids : Board -> option (list GameNode)) (board : Board)
    (player : Player) (col : Z) (n : GameNode) :
  nodeFor kids board player col n -> move n = col.
Proof. intros (row & _ & [[_ ->]|[_ (next & _ & ->)]]); reflexivity. Qed.

(** The outcomes that [summarizeOutcomes] can give. *)
Lemma summarizeOutcomes_win (nodes : list GameNode) (player : Player) :
  summarizeOutcomes nodes player = winOf player ->
  exists k, In k nodes /\ outcome k = winOf player.
Proof.
  unfold summarizeOutcomes. destruct (existsb _ nodes) eqn:Ee.
  - intros _. apply existsb_exists in Ee. destruct Ee as (k & Hin & Hk).
    exists k. split; [exact Hin|]. eapply bool_decide_eq_true_1. exact Hk.
  - destruct (forallb _ nodes); destruct player; discriminate.
Qed.

Lemma summarizeOutcomes_lose (nodes : list GameNode) (player : Player) :
  summarizeOutcomes nodes player = loseOf player ->
  forall k, In k nodes -> outcome k = loseOf player.
Proof.
  unfold summarizeOutcomes. destruct (existsb _ nodes).
  - destruct player; discriminate.
  - destruct (forallb _ nodes) eqn:Ef; [|destruct player; discriminate].
    intros _ k Hin. rewrite forallb_forall in Ef.
    eapply bool_decide_eq_true_1. apply Ef. exact Hin.
Qed.

(** [notWinP1] is sound for the forest of [exploreGameTree]. *)
Lemma notWinP1_sound (d : nat) :
  forall (fuel : nat) (board : Board) (mover : Player) (forest : list GameNode)
         (n : GameNode),
    exploreGameTree fuel board mover (Z.of_nat (S d)) = Some forest ->
    In n forest ->
    notWinP1 d board mover (move n) = true ->
    outcome n <> WIN_P1.
Proof.
  induction d as [|d IH]; intros fuel board mover forest n Hrun Hin Htest Hout;
    (destruct fuel as [|fuel]; [discriminate|]);
    (match type of Hrun with
     | exploreGameTree _ _ _ ?dep = _ => destruct (terminal_cases board dep) as [Ht|Hnt]
     end;
     [rewrite exploreGameTree_terminal in Hrun by exact Ht; injection Hrun as <-;
      destruct Hin as [<-|[]]; discriminate Hout|]);
    apply exploreGameTree_nodes in Hrun; try exact Hnt;
    destruct (Forall2_In_right _ _ _ _ Hrun Hin) as (col & _ & Hnode);
    pose proof (nodeFor_column _ _ _ _ _ Hnode) as Hmove; rewrite Hmove in Htest;
    rewrite notWinP1_eq in Htest;
    destruct Hnode as (row & Hrow & Hnode); rewrite Hrow in Htest; cbv zeta in Htest, Hnode.
  - (* the children are explored with depth 0 *)
    destruct Hnode as [[Hwin ->]|[Hnowin (next & Hnext & ->)]].
    + destruct mover; [rewrite Hwin in Htest; discriminate Htest | discriminate Hout].
    + replace (Z.of_nat 1 - 1) with 0 in Hnext by lia.
      destruct fuel as [|fuel]; [discriminate|].
      rewrite exploreGameTree_terminal in Hnext by (left; reflexivity).
      injection Hnext as <-. destruct mover; discriminate Hout.
  - destruct Hnode as [[Hwin ->]|[Hnowin (next & Hnext & ->)]].
    + destruct mover; [rewrite Hwin in Htest; discriminate Htest | discriminate Hout].
    + replace (Z.of_nat (S (S d)) - 1) with (Z.of_nat (S d)) in Hnext by lia.
      cbn [outcome] in Hout. destruct mover; cbn [other] in Hnext.
      * (* a placement by player 1: some reply would be WIN_P1 *)
        rewrite Hnowin in Htest.
        apply (summarizeOutcomes_win next P1) in Hout. destruct Hout as (k & Hk & Hkout).
        destruct fuel as [|fuel]; [discriminate|].
        destruct (terminal_cases (dropPiece (cloneBoard board) row col P1) (Z.of_nat (S d)))
          as [Ht|Hnt'].
        { rewrite exploreGameTree_terminal in Hnext by exact Ht. injection Hnext as <-.
          destruct Hk as [<-|[]]. discriminate Hkout. }
        pose proof Hnext as Hnodes. apply exploreGameTree_nodes in Hnodes; [|exact Hnt'].
        destruct (Forall2_In_right _ _ _ _ Hnodes Hk) as (c & Hc & Hcnode).
        apply nodeFor_column in Hcnode. apply (proj1 (In_sortByCenter _ _)) in Hc.
        apply (IH (S fuel) _ P2 next k Hnext Hk); [|exact Hkout].
        rewrite Hcnode. apply (allOf_In _ _ _ Htest Hc).
      * (* a reply by player 2: every node below would be WIN_P1 *)
        rewrite Hnowin in Htest.
        pose proof (summarizeOutcomes_lose next P2 Hout) as Hall.
        destruct fuel as [|fuel]; [discriminate|].
        destruct (getValidColumns (dropPiece (cloneBoard board) row col P2))
          as [|c0 cs] eqn:Ecols.
        { rewrite exploreGameTree_terminal in Hnext by (right; exact Ecols).
          injection Hnext as <-. specialize (Hall sentinel (or_introl eq_refl)).
          discriminate Hall. }
        apply someOf_In in Htest. destruct Htest as (c & Hc & Hctest).
        rewrite <- Ecols in Hc. apply In_getValidColumns in Hc.
        destruct Hc as [Hcol [crow Hcrow]].
        destruct (exploreGameTree_child fuel _ P1 (Z.of_nat (S d)) next c crow Hnext)
          as (k & Hk & Hknode); [lia | exact Hcol | exact Hcrow |].
        apply nodeFor_column in Hknode.
        apply (IH (S fuel) _ P1 next k Hnext Hk); [rewrite Hknode; exact Hctest|].
        apply Hall. exact Hk.
Qed.

(** C9, as stated, fails: the forest that [exploreGameTree] builds for the
    empty board, player 1 to move, depth 8, contains no forced win for
    player 1.  A forced win is an outcome established by the bottom-up
    summaries, and no root of this forest carries [WIN_P1]: the test
    [notWinP1], sound for the forest, passes on each of the seven columns.
    The extractor returns a path all the same, because it looks for a
    childless [WIN_P1] node at any depth, and the moves 3 2 3 2 3 2 3 reach
    one with the help of player 2. *)
Lemma empty_board_depth8_no_forced_win :
  exists forest,
    exploreGameTree 43 createBoard P1 8 = Some forest /\
    Forall (fun n => outcome n <> WIN_P1) forest /\
    findShortestWinningPath forest WIN_P1 <> None.
Proof.
  destruct (exploreGameTree_returns 43 createBoard P1 8) as [forest Hrun].
  { vm_compute. lia. }
  exists forest. split; [exact Hrun|]. split.
  - assert (Htest : allOf (notWinP1 7 createBoard P1) (getValidColumns createBoard) = true)
      by (vm_compute; reflexivity).
    assert (Hnt : ~ terminal createBoard 8).
    { intros [H|H]; [discriminate H | vm_compute in H; discriminate H]. }
    pose proof (exploreGameTree_nodes 42 createBoard P1 8 forest Hnt Hrun) as Hnodes.
    apply Forall_forall. intros n Hin.
    destruct (Forall2_In_right _ _ _ _ Hnodes Hin) as (col & Hcol & Hnode).
    apply nodeFor_column in Hnode. apply (proj1 (In_sortByCenter _ _)) in Hcol.
    apply (notWinP1_sound 7 43 createBoard P1 forest n Hrun Hin).
    rewrite Hnode. apply (allOf_In _ _ _ Htest Hcol).
  - intros Hnone. apply shortest_none_iff_no_hit in Hnone. apply Hnone.
    destruct (winningLine_reaches [3; 2; 3; 2; 3; 2; 3] 43 createBoard P1 8 forest)
      as (h & Hreach & Hh); [vm_compute; reflexivity | exact Hrun | cbn; lia |].
    exists [3; 2; 3; 2; 3; 2; 3], h. split; [exact Hreach | exact Hh].
Qed.

(** ** The Go programs *)

Lemma go1_scanRows (board : Board) (col : Z) (n : nat) :
  Go1.scanRows board col n =
  match scanRows board col n with Some row => row | None => -1 end.
Proof.
  induction n as [|k IH]; cbn [Go1.scanRows scanRows]; [reflexivity|].
  case_bool_decide; [reflexivity | exact IH].
Qed.

(** [getAvailableRow] of the first Go program answers [-1] for [null] and
    the same row otherwise. *)
Lemma go1_getAvailableRow (board : Board) (col : Z) :
  Go1.getAvailableRow board col =
  match getAvailableRow board col with Some row => row | None => -1 end.
Proof. apply go1_scanRows. Qed.

Lemma go1_getAvailableRow_none (board : Board) (col : Z) :
  Go1.getAvailableRow board col = -1 <-> getAvailableRow board col = None.
Proof.
  rewrite go1_getAvailableRow.
  destruct (getAvailableRow board col) as [row|] eqn:E; [|tauto].
  apply getAvailableRow_Some in E. split; [lia | discriminate].
Qed.

Lemma go1_getValidColumns (board : Board) :
  Go1.getValidColumns board = getValidColumns board.
Proof.
  unfold Go1.getValidColumns, getValidColumns. apply list_filter_iff. intros c.
  rewrite go1_getAvailableRow_none. split.
  - intros H. destruct (getAvailableRow board c); [eexists; reflexivity | contradiction].
  - intros [row Hrow] E. congruence.
Qed.

Lemma go1_summarizeLoop (win lose : GameOutcome) (nodes : list GameNode) (allLose : bool) :
  Go1.summarizeLoop win lose nodes allLose =
  if existsb (fun n => bool_decide (outcome n = win)) nodes then win
  else if allLose && forallb (fun n => bool_decide (outcome n = lose)) nodes then lose
  else DRAW.
Proof.
  revert allLose. induction nodes as [|n nodes IH]; intros allLose; cbn.
  - rewrite andb_true_r. reflexivity.
  - destruct (bool_decide (outcome n = win)); cbn; [reflexivity|].
    rewrite IH. destruct (existsb _ nodes); [reflexivity|].
    destruct (decide (outcome n = lose)) as [Heq|Hne].
    + rewrite (bool_decide_eq_false_2 (outcome n <> lose)) by tauto.
      rewrite (bool_decide_eq_true_2 (outcome n = lose)) by exact Heq. reflexivity.
    + rewrite (bool_decide_eq_true_2 (outcome n <> lose)) by exact Hne.
      rewrite (bool_decide_eq_false_2 (outcome n = lose)) by exact Hne.
      rewrite andb_false_r. reflexivity.
Qed.

(** The single loop of the first Go program computes what [some] and
    [every] compute. *)
Lemma go1_summarizeOutcomes (nodes : list GameNode) (player : Player) :
  Go1.summarizeOutcomes nodes player = summarizeOutcomes nodes player.
Proof. unfold Go1.summarizeOutcomes. rewrite go1_summarizeLoop. reflexivity. Qed.

Lemma go1_exploreLoop (rec : Explorer) (board : Board) (currentPlayer opponent : Player)
    (depth : Z) (cols : list Z) :
  forall results,
    Go1.exploreLoop rec board currentPlayer opponent depth cols results =
    exploreLoop rec board currentPlayer opponent depth cols results.
Proof.
  induction cols as [|col rest IH]; intros results; [reflexivity|].
  cbn [Go1.exploreLoop exploreLoop]. cbn zeta.
  pose proof (go1_getAvailableRow_none board col) as Hnone.
  pose proof (go1_getAvailableRow board col) as Hrow.
  destruct (getAvailableRow board col) as [row|] eqn:E.
  - destruct (Z.eqb_spec (Go1.getAvailableRow board col) (-1)) as [Heq|_].
    { apply Hnone in Heq. discriminate. }
    rewrite Hrow. destruct (isWinningMove _ currentPlayer); [apply IH|].
    destruct (rec _ opponent (depth - 1)) as [next|]; [|reflexivity].
    rewrite go1_summarizeOutcomes. apply IH.
  - rewrite Hrow. cbn. apply IH.
Qed.

Section Preserved.
Context {A : Type} (P : list A -> Prop).

Lemma fold_left_preserves {B : Type} (f : list A -> B -> list A) (xs : list B) :
  (forall l x, P l -> P (f l x)) -> forall l, P l -> P (fold_left f xs l).
Proof.
  intros Hf. induction xs as [|x xs IH]; intros l Hl; [exact Hl|].
  cbn. apply IH. apply Hf. exact Hl.
Qed.
End Preserved.

Lemma go1_swapIfCloser_keeps (P : Z -> Prop) (n : nat) (center : Z) (i j : nat)
    (sorted : list Z) :
  length sorted = n /\ Forall P sorted ->
  length (Go1.swapIfCloser center i sorted j) = n /\
  Forall P (Go1.swapIfCloser center i sorted j).
Proof.
  intros [Hlen Hall]. unfold Go1.swapIfCloser.
  destruct (sorted !! i) as [si|] eqn:Ei; [|tauto].
  destruct (sorted !! j) as [sj|] eqn:Ej; [|tauto].
  destruct (Z.abs (center - sj) <? Z.abs (center - si)); [|tauto].
  rewrite !length_insert. split; [exact Hlen|].
  apply Forall_insert; [apply Forall_insert|].
  - exact Hall.
  - eapply Forall_lookup_1; [exact Hall | exact Ei].
  - eapply Forall_lookup_1; [exact Hall | exact Ej].
Qed.

(** [prioritizeCenter] only swaps entries: it keeps the length of the list
    and every property shared by its elements. *)
Lemma go1_prioritizeCenter_keeps (P : Z -> Prop) (cols : list Z) :
  Forall P cols ->
  length (Go1.prioritizeCenter cols) = length cols /\
  Forall P (Go1.prioritizeCenter cols).
Proof.
  intros Hall. unfold Go1.prioritizeCenter. cbv zeta.
  apply (fold_left_preserves (fun l => length l = length cols /\ Forall P l)); [|tauto].
  intros l i Hl.
  apply (fold_left_preserves (fun l => length l = length cols /\ Forall P l)); [|exact Hl].
  intros l' j Hl'. apply go1_swapIfCloser_keeps. exact Hl'.
Qed.

Lemma go1_exploreGameTree_returns (fuel : nat) :
  forall (board : Board) (player : Player) (depth : Z),
    (countEmpty board < fuel)%nat ->
    is_Some (Go1.exploreGameTree fuel board player depth).
Proof.
  induction fuel as [|fuel IH]; intros board player depth Hfuel; [lia|].
  cbn [Go1.exploreGameTree]. unfold Go1.exploreBody.
  destruct ((depth =? 0) || _); [eexists; reflexivity|].
  rewrite go1_exploreLoop. apply exploreLoop_returns. intros col row _ Hrow. apply IH.
  pose proof (countEmpty_move board col row player Hrow). lia.
Qed.

(** The serial explorer of the first Go program ends as the TypeScript one
    does: with more fuel than the board has empty cells it returns a forest,
    and the forest is not empty. *)
Lemma go1_exploreGameTree_terminates (board : Board) (player : Player) (depth : Z)
    (fuel : nat) :
  (countEmpty board < fuel)%nat ->
  exists forest, Go1.exploreGameTree fuel board player depth = Some forest /\ forest <> [].
Proof.
  intros Hfuel.
  destruct (go1_exploreGameTree_returns fuel board player depth Hfuel) as [forest Hrun].
  exists forest. split; [exact Hrun|].
  destruct fuel as [|fuel]; [discriminate|].
  cbn [Go1.exploreGameTree] in Hrun. unfold Go1.exploreBody in Hrun.
  destruct ((depth =? 0) || _) eqn:Et; [injection Hrun as <-; discriminate|].
  apply orb_false_iff in Et. destruct Et as [_ Hlen]. apply Nat.eqb_neq in Hlen.
  rewrite go1_exploreLoop in Hrun.
  destruct (go1_prioritizeCenter_keeps (fun col => is_Some (getAvailableRow board col))
              (Go1.getValidColumns board)) as [_ Hvalid].
  { rewrite go1_getValidColumns. apply Forall_forall. intros col Hin.
    apply In_getValidColumns in Hin. tauto. }
  apply exploreLoop_nodes in Hrun; [|exact Hvalid].
  destruct Hrun as (out & -> & Hout). apply Forall2_same_length in Hout.
  cbn [app]. intros ->. cbn in Hout. contradiction.
Qed.

Lemma go2_runLoop_four (board : Board) (player : Player) (r c : Z) (d : Z * Z) :
  (Go2.runLoop board player 4 r c d 0 =? 4) = (countRun board player r c d =? 4).
Proof.
  assert (Hbreak : forall nr nc,
            (nr <? 0) || (ROWS <=? nr) || (nc <? 0) || (COLS <=? nc)
            || negb (holds board player nr nc)
            = negb (inBounds nr nc && holds board player nr nc)).
  { intros nr nc. unfold inBounds.
    destruct (Z.ltb_spec nr 0), (Z.leb_spec ROWS nr), (Z.ltb_spec nc 0),
      (Z.leb_spec COLS nc), (Z.leb_spec 0 nr), (Z.ltb_spec nr ROWS),
      (Z.leb_spec 0 nc), (Z.ltb_spec nc COLS), (holds board player nr nc);
      cbn; try reflexivity; lia. }
  unfold countRun. cbn [Go2.runLoop fold_left]. rewrite !Hbreak.
  replace (r + d.1 * 0) with r by lia. replace (c + d.2 * 0) with c by lia.
  replace (r + d.1 * 1) with (r + d.1) by lia. replace (c + d.2 * 1) with (c + d.2) by lia.
  replace (r + d.1 * 2) with (r + d.1 + d.1) by lia.
  replace (c + d.2 * 2) with (c + d.2 + d.2) by lia.
  replace (r + d.1 * 3) with (r + d.1 + d.1 + d.1) by lia.
  replace (c + d.2 * 3) with (c + d.2 + d.2 + d.2) by lia.
  destruct (inBounds r c && holds board player r c),
    (inBounds (r + d.1) (c + d.2) && holds board player (r + d.1) (c + d.2)),
    (inBounds (r + d.1 + d.1) (c + d.2 + d.2)
     && holds board player (r + d.1 + d.1) (c + d.2 + d.2)),
    (inBounds (r + d.1 + d.1 + d.1) (c + d.2 + d.2 + d.2)
     && holds board player (r + d.1 + d.1 + d.1) (c + d.2 + d.2 + d.2));
    reflexivity.
Qed.

Lemma existsb_pointwise {A : Type} (f g : A -> bool) (l : list A) :
  (forall x, f x = g x) -> existsb f l = existsb g l.
Proof.
  intros H. induction l as [|x l IH]; [reflexivity|]. cbn. rewrite H, IH. reflexivity.
Qed.

(** The counting loop with [break] of the second Go program detects the
    same wins as the loop that tests all four cells. *)
Lemma go2_isWinningMove (board : Board) (player : Player) :
  Go2.isWinningMove board player = isWinningMove board player.
Proof.
  unfold Go2.isWinningMove, isWinningMove, winsFrom.
  apply existsb_pointwise. intros r. apply existsb_pointwise. intros c.
  f_equal. apply existsb_pointwise. intros d. apply go2_runLoop_four.
Qed.

(** * Further properties of the code *)

(** ** Placing a piece and asking for the free row *)

Lemma cellAt_dropPiece_same (board : Board) (row col : Z) (player : Player) :
  wf_board board -> 0 <= row < ROWS -> 0 <= col < COLS ->
  cellAt (dropPiece board row col player) row col = Some (Mark player).
Proof.
  intros [Hlen Hrows] Hr Hc. unfold dropPiece, cellAt.
  replace ((0 <=? row) && (0 <=? col)) with true
    by (symmetry; apply andb_true_intro; split; apply Z.leb_le; lia).
  rewrite list_lookup_alter_eq.
  destruct (board !! Z.to_nat row) as [r0|] eqn:Er0.
  - cbn. apply list_lookup_insert_eq.
    rewrite Forall_forall in Hrows.
    assert (Hl : length r0 = Z.to_nat COLS).
    { apply Hrows. apply list_elem_of_In. eapply list_elem_of_lookup_2; eauto. }
    unfold COLS in *. lia.
  - apply lookup_ge_None in Er0. unfold ROWS in *. lia.
Qed.

Lemma dropPiece_read_back_cell (board : Board) (row col : Z) (player : Player) (r c : Z) :
  wf_board board -> 0 <= row < ROWS -> 0 <= col < COLS ->
  cellAt (dropPiece board row col player) r c =
  if decide ((r, c) = (row, col)) then Some (Mark player) else cellAt board r c.
Proof.
  intros Hwf Hr Hc. destruct (decide ((r, c) = (row, col))) as [Heq|Hne].
  - injection Heq as -> ->. apply cellAt_dropPiece_same; assumption.
  - apply cellAt_dropPiece_other. exact Hne.
Qed.

(** X1.  On a 6 x 7 board, after [dropPiece board row col player] with
    [row] and [col] inside the grid, the cell [(row, col)] holds the player's
    mark, whatever it held before (no occupancy check is made), and every
    other cell reads as it did. *)
Theorem dropPiece_read_back (board : Board) (row col : Z) (player : Player) (r c : Z) :
  wf_board board -> 0 <= row < ROWS -> 0 <= col < COLS ->
  cellAt (dropPiece board row col player) r c =
  if decide ((r, c) = (row, col)) then Some (Mark player) else cellAt board r c.
Proof. apply dropPiece_read_back_cell. Qed.

Lemma dropPiece_read_back_witness :
  cellAt (dropPiece threeInRow 4 1 P1) 4 1 =
  if decide ((4, 1) = (4, 1)) then Some (Mark P1) else cellAt threeInRow 4 1.
Proof.
  apply (dropPiece_read_back threeInRow 4 1 P1 4 1).
  - split; [reflexivity | repeat constructor].
  - unfold ROWS. lia.
  - unfold COLS. lia.
Defined.

Lemma not_empty_occupied (board : Board) (r c : Z) :
  wf_board board -> 0 <= r < ROWS -> 0 <= c < COLS ->
  cellAt board r c <> Some Empty -> occupied board r c.
Proof.
  intros Hwf Hr Hc Hne. unfold occupied, occupiedb.
  destruct (wf_board_cell board r c Hwf Hr Hc) as [x Hx]. rewrite Hx.
  destruct x; [congruence | reflexivity].
Qed.

Lemma not_occupied_empty (board : Board) (r c : Z) :
  wf_board board -> 0 <= r < ROWS -> 0 <= c < COLS ->
  ~ occupied board r c -> cellAt board r c = Some Empty.
Proof.
  intros Hwf Hr Hc Hno.
  destruct (wf_board_cell board r c Hwf Hr Hc) as [x Hx]. rewrite Hx.
  destruct x as [|p]; [reflexivity|]. exfalso. apply Hno.
  unfold occupied, occupiedb. rewrite Hx. reflexivity.
Qed.

Lemma occupied_dropPiece (board : Board) (row col : Z) (player : Player) (r c : Z) :
  wf_board board -> 0 <= row < ROWS -> 0 <= col < COLS ->
  occupied (dropPiece board row col player) r c <->
  (r, c) = (row, col) \/ occupied board r c.
Proof.
  intros Hwf Hr Hc. unfold occupied, occupiedb.
  destruct (decide ((r, c) = (row, col))) as [Heq|Hne].
  - injection Heq as -> ->. rewrite cellAt_dropPiece_same by assumption. tauto.
  - rewrite cellAt_dropPiece_other by exact Hne. tauto.
Qed.

Lemma legal_move_gravity (board : Board) (col row : Z) (player : Player) :
  wf_board board -> gravity board -> 0 <= col < COLS ->
  getAvailableRow board col = Some row ->
  gravity (dropPiece board row col player).
Proof.
  intros Hwf Hg Hc Hrow. apply getAvailableRow_Some in Hrow.
  destruct Hrow as (Hr & _ & Hbelow). intros r c Hrr Hcc Hocc.
  apply occupied_dropPiece in Hocc; [|assumption..].
  apply occupied_dropPiece; [assumption..|].
  destruct Hocc as [Heq|Hocc].
  - injection Heq as -> ->. right.
    apply not_empty_occupied; [exact Hwf | unfold ROWS in *; lia | exact Hc |].
    apply Hbelow. unfold ROWS in *. lia.
  - right. apply Hg; assumption.
Qed.

(** X2.  A legal move keeps the board well formed: on a 6 x 7 board that
    satisfies gravity, placing a piece at the row that [getAvailableRow]
    answers for a column of the grid gives a 6 x 7 board that satisfies
    gravity and has exactly one empty cell fewer. *)
Theorem legal_move_keeps_board (board : Board) (col row : Z) (player : Player) :
  wf_board board -> gravity board -> 0 <= col < COLS ->
  getAvailableRow board col = Some row ->
  wf_board (dropPiece (cloneBoard board) row col player) /\
  gravity (dropPiece (cloneBoard board) row col player) /\
  (countEmpty (dropPiece (cloneBoard board) row col player) + 1 = countEmpty board)%nat.
Proof.
  intros Hwf Hg Hc Hrow. rewrite cloneBoard_id.
  split; [apply dropPiece_wf; exact Hwf|].
  split; [apply legal_move_gravity; assumption|].
  apply countEmpty_dropPiece. apply getAvailableRow_Some in Hrow. tauto.
Qed.

Lemma legal_move_keeps_board_witness :
  wf_board (dropPiece (cloneBoard threeInRow) 3 2 P1) /\
  gravity (dropPiece (cloneBoard threeInRow) 3 2 P1) /\
  (countEmpty (dropPiece (cloneBoard threeInRow) 3 2 P1) + 1 = countEmpty threeInRow)%nat.
Proof.
  apply (legal_move_keeps_board threeInRow 2 3 P1).
  - split; [reflexivity | repeat constructor].
  - apply gravityb_sound. vm_compute. reflexivity.
  - unfold COLS. lia.
  - vm_compute. reflexivity.
Defined.

Lemma scanRows_found (board : Board) (col : Z) (n : nat) (row : Z) :
  0 <= row < Z.of_nat n -> cellAt board row col = Some Empty ->
  (forall r, row < r < Z.of_nat n -> cellAt board r col <> Some Empty) ->
  scanRows board col n = Some row.
Proof.
  intros Hr He Hbelow.
  destruct (scanRows board col n) as [row'|] eqn:E.
  - apply scanRows_Some in E. destruct E as (Hr' & He' & Hbelow').
    f_equal. destruct (Z.lt_trichotomy row row') as [Hlt|[Heq|Hgt]]; [|exact (eq_sym Heq)|].
    + exfalso. apply (Hbelow row'); [lia | exact He'].
    + exfalso. apply (Hbelow' row); [lia | exact He].
  - exfalso. rewrite scanRows_None in E. apply (E row Hr He).
Qed.

Lemma scanRows_same_column (b1 b2 : Board) (col : Z) (n : nat) :
  (forall r, cellAt b1 r col = cellAt b2 r col) ->
  scanRows b1 col n = scanRows b2 col n.
Proof.
  intros H. induction n as [|k IH]; cbn; [reflexivity|]. rewrite H, IH. reflexivity.
Qed.

(** X3.  After a legal move in a column of a 6 x 7 board that satisfies
    gravity, [getAvailableRow] answers the row just above for that column
    ([None] once the top row has been taken) and answers as before for every
    other column. *)
Theorem getAvailableRow_after_move (board : Board) (col row : Z) (player : Player)
    (col' : Z) :
  wf_board board -> gravity board -> 0 <= col < COLS ->
  getAvailableRow board col = Some row ->
  getAvailableRow (dropPiece (cloneBoard board) row col player) col' =
  if decide (col' = col) then (if decide (row = 0) then None else Some (row - 1))
  else getAvailableRow board col'.
Proof.
  intros Hwf Hg Hc Hrow. rewrite cloneBoard_id.
  pose proof Hrow as Hrow'. apply getAvailableRow_Some in Hrow'.
  destruct Hrow' as (Hr & He & Hbelow).
  destruct (decide (col' = col)) as [->|Hne].
  - assert (Hnew : forall r, row <= r < ROWS ->
              cellAt (dropPiece board row col player) r col <> Some Empty).
    { intros r Hrr. rewrite dropPiece_read_back_cell by assumption.
      destruct (decide ((r, col) = (row, col))) as [_|Hn]; [discriminate|].
      apply Hbelow. assert (r <> row) by congruence. lia. }
    destruct (decide (row = 0)) as [->|Hpos].
    + apply getAvailableRow_None. intros r Hrr. apply Hnew. exact Hrr.
    + unfold getAvailableRow. apply scanRows_found.
      * unfold ROWS in *. lia.
      * rewrite dropPiece_read_back_cell by assumption.
        destruct (decide ((row - 1, col) = (row, col))) as [Heq|_].
        { injection Heq as Heq. lia. }
        apply not_occupied_empty; [exact Hwf | lia | exact Hc |].
        intros Hocc.
        assert (Hrest : occupied board (row - 1 + 1) col).
        { apply Hg; [unfold ROWS in *; lia | exact Hc | exact Hocc]. }
        replace (row - 1 + 1) with row in Hrest by lia.
        apply occupied_not_empty in Hrest. contradiction.
      * intros r Hrr. apply Hnew. unfold ROWS in *. lia.
  - unfold getAvailableRow. apply scanRows_same_column. intros r.
    apply cellAt_dropPiece_other. congruence.
Qed.

Lemma getAvailableRow_after_move_witness :
  getAvailableRow (dropPiece (cloneBoard threeInRow) 3 2 P1) 2 =
  if decide (2 = 2) then (if decide (3 = 0) then None else Some (3 - 1))
  else getAvailableRow threeInRow 2.
Proof.
  apply (getAvailableRow_after_move threeInRow 2 3 P1 2).
  - split; [reflexivity | repeat constructor].
  - apply gravityb_sound. vm_compute. reflexivity.
  - unfold COLS. lia.
  - vm_compute. reflexivity.
Defined.

(** ** The legal columns *)

Lemma StronglySorted_seqZ_from (n : nat) (m : Z) :
  StronglySorted Z.lt (seqZ m (Z.of_nat n)).
Proof.
  revert m. induction n as [|n IH]; intros m.
  - cbn. constructor.
  - rewrite Nat2Z.inj_succ, seqZ_cons by lia.
    replace (Z.pred (Z.succ (Z.of_nat n))) with (Z.of_nat n) by lia.
    constructor; [apply IH|]. apply Forall_forall. intros x Hx.
    apply list_elem_of_In, elem_of_seqZ in Hx. lia.
Qed.

Lemma StronglySorted_filter_lt (P : Z -> Prop) `{!forall x, Decision (P x)} (l : list Z) :
  StronglySorted Z.lt l -> StronglySorted Z.lt (filter P l).
Proof.
  induction 1 as [|a l Hs IH Hall]; [constructor|].
  rewrite filter_cons. destruct (decide (P a)); [|exact IH].
  constructor; [exact IH|]. rewrite Forall_forall in Hall |- *. intros x Hx.
  apply Hall. apply list_elem_of_In. apply list_elem_of_In in Hx.
  apply list_elem_of_filter in Hx. tauto.
Qed.

Lemma emptyInRow_pos (row : list Cell) :
  (0 < emptyInRow row)%nat -> exists j, row !! j = Some Empty.
Proof.
  unfold emptyInRow. induction row as [|x row IH]; [cbn; lia|].
  rewrite filter_cons. destruct (decide (x = Empty)) as [->|_].
  - intros _. exists 0%nat. reflexivity.
  - intros H. destruct (IH H) as [j Hj]. exists (S j). exact Hj.
Qed.

Lemma countEmpty_pos (board : Board) :
  (0 < countEmpty board)%nat ->
  exists i j row, board !! i = Some row /\ row !! j = Some Empty.
Proof.
  unfold countEmpty. induction board as [|r0 board IH]; [cbn; lia|].
  intros H. destruct (emptyInRow r0) as [|k] eqn:E.
  - destruct IH as (i & j & row & Hi & Hj).
    { cbn in H. rewrite E in H. exact H. }
    exists (S i), j, row. tauto.
  - destruct (emptyInRow_pos r0) as [j Hj]; [lia|].
    exists 0%nat, j, r0. tauto.
Qed.

Lemma countEmpty_pos_cell (board : Board) :
  wf_board board -> (0 < countEmpty board)%nat ->
  exists r c, 0 <= r < ROWS /\ 0 <= c < COLS /\ cellAt board r c = Some Empty.
Proof.
  intros [Hlen Hrows] Hpos. destruct (countEmpty_pos board Hpos) as (i & j & row & Hi & Hj).
  assert (Hil : (i < length board)%nat) by (eapply lookup_lt_Some; exact Hi).
  assert (Hjl : (j < length row)%nat) by (eapply lookup_lt_Some; exact Hj).
  rewrite Forall_forall in Hrows.
  assert (Hl : length row = Z.to_nat COLS).
  { apply Hrows. apply list_elem_of_In. eapply list_elem_of_lookup_2; eauto. }
  exists (Z.of_nat i), (Z.of_nat j). unfold ROWS, COLS in *.
  split; [lia|]. split; [lia|]. unfold cellAt.
  replace ((0 <=? Z.of_nat i) && (0 <=? Z.of_nat j)) with true
    by (symmetry; apply andb_true_intro; split; apply Z.leb_le; lia).
  rewrite !Nat2Z.id, Hi. exact Hj.
Qed.

Lemma valid_iff_some_empty (board : Board) (col : Z) :
  is_Some (getAvailableRow board col) <->
  exists r, 0 <= r < ROWS /\ cellAt board r col = Some Empty.
Proof.
  split.
  - intros [row Hrow]. apply getAvailableRow_Some in Hrow. exists row. tauto.
  - intros (r & Hr & He). destruct (getAvailableRow board col) as [row|] eqn:E;
      [eexists; reflexivity|].
    exfalso. apply getAvailableRow_None in E. apply (E r Hr He).
Qed.

(** X4.  On a 6 x 7 board, [getValidColumns] lists, in strictly ascending
    order, exactly the columns of the grid that have an empty cell; the list
    is empty exactly when the board has no empty cell. *)
Theorem getValidColumns_exact (board : Board) :
  wf_board board ->
  StronglySorted Z.lt (getValidColumns board) /\
  (forall col, In col (getValidColumns board) <->
     0 <= col < COLS /\ exists r, 0 <= r < ROWS /\ cellAt board r col = Some Empty) /\
  (getValidColumns board = [] <-> countEmpty board = 0%nat).
Proof.
  intros Hwf. split; [|split].
  - unfold getValidColumns. apply StronglySorted_filter_lt.
    apply (StronglySorted_seqZ_from 7 0).
  - intros col. rewrite In_getValidColumns, valid_iff_some_empty. reflexivity.
  - split.
    + intros Hnil. destruct (countEmpty board) as [|k] eqn:E; [reflexivity|]. exfalso.
      destruct (countEmpty_pos_cell board Hwf) as (r & c & Hr & Hc & He); [lia|].
      assert (Hin : In c (getValidColumns board)).
      { apply In_getValidColumns. split; [exact Hc|]. apply valid_iff_some_empty. eauto. }
      rewrite Hnil in Hin. exact Hin.
    + intros Hzero. destruct (countEmpty_zero_terminal board 1 Hzero) as [H|H];
        [discriminate | exact H].
Qed.

Lemma getValidColumns_exact_witness :
  StronglySorted Z.lt (getValidColumns threeInRow) /\
  (forall col, In col (getValidColumns threeInRow) <->
     0 <= col < COLS /\ exists r, 0 <= r < ROWS /\ cellAt threeInRow r col = Some Empty) /\
  (getValidColumns threeInRow = [] <-> countEmpty threeInRow = 0%nat).
Proof.
  apply (getValidColumns_exact threeInRow). split; [reflexivity | repeat constructor].
Defined.

Lemma filter_agree (P Q : Z -> Prop) `{!forall x, Decision (P x)} `{!forall x, Decision (Q x)}
    (l : list Z) :
  (forall x, In x l -> (P x <-> Q x)) -> filter P l = filter Q l.
Proof.
  induction l as [|a l IH]; intros Hpq; [reflexivity|].
  rewrite !filter_cons. rewrite IH by (intros x Hx; apply Hpq; right; exact Hx).
  pose proof (Hpq a (or_introl eq_refl)) as Ha.
  destruct (decide (P a)), (decide (Q a)); tauto.
Qed.

Lemma go2_getValidColumns_gravity (board : Board) :
  wf_board board -> gravity board ->
  Go2.getValidColumns board = getValidColumns board.
Proof.
  intros Hwf Hg.
  unfold Go2.getValidColumns, getValidColumns. apply filter_agree. intros c Hc.
  apply In_seqZ in Hc. rewrite valid_iff_some_empty. split.
  - intros Htop. exists 0. split; [unfold ROWS; lia | exact Htop].
  - intros (r & Hr & He).
    apply not_occupied_empty; [exact Hwf | unfold ROWS; lia | lia |].
    intros Htop.
    assert (Hocc : occupied board r c).
    { apply gravity_column; [exact Hg | lia | exact Htop | exact Hr]. }
    apply occupied_not_empty in Hocc. contradiction.
Qed.

(** X5.  On a 6 x 7 board that satisfies gravity, the two Go versions of
    [getValidColumns] return the list that the TypeScript one returns: the
    first tests [getAvailableRow(board, c) != -1], the second only looks at
    the top cell of the column. *)
Theorem go_getValidColumns_agree (board : Board) :
  wf_board board -> gravity board ->
  Go1.getValidColumns board = getValidColumns board /\
  Go2.getValidColumns board = getValidColumns board.
Proof.
  intros Hwf Hg. split; [apply go1_getValidColumns|].
  apply go2_getValidColumns_gravity; assumption.
Qed.

Lemma go_getValidColumns_agree_witness :
  Go1.getValidColumns threeInRow = getValidColumns threeInRow /\
  Go2.getValidColumns threeInRow = getValidColumns threeInRow.
Proof.
  apply (go_getValidColumns_agree threeInRow).
  - split; [reflexivity | repeat constructor].
  - apply gravityb_sound. vm_compute. reflexivity.
Defined.

(** ** The order of the candidates *)

Lemma insertByCenter_Permutation (a : Z) (l : list Z) :
  Permutation (insertByCenter a l) (a :: l).
Proof.
  induction l as [|b l IH]; cbn; [reflexivity|].
  destruct (centerDistance a <=? centerDistance b); [reflexivity|].
  rewrite IH. apply perm_swap.
Qed.

Lemma insertByCenter_sorted (a : Z) (l : list Z) :
  StronglySorted (fun x y => centerDistance x <= centerDistance y) l ->
  StronglySorted (fun x y => centerDistance x <= centerDistance y) (insertByCenter a l).
Proof.
  induction 1 as [|b l Hs IH Hall]; cbn; [repeat constructor|].
  destruct (Z.leb_spec (centerDistance a) (centerDistance b)) as [Hle|Hgt].
  - constructor; [constructor; assumption|].
    constructor; [exact Hle|]. rewrite Forall_forall in Hall |- *.
    intros x Hx. specialize (Hall x Hx). cbn in Hall. lia.
  - constructor; [exact IH|]. apply Forall_forall. intros x Hx.
    apply In_insertByCenter in Hx. destruct Hx as [->|Hx]; [lia|].
    rewrite Forall_forall in Hall. apply Hall. exact Hx.
Qed.

Lemma insertByCenter_stable (k a : Z) (l : list Z) :
  filter (fun x => centerDistance x = k) (insertByCenter a l) =
  filter (fun x => centerDistance x = k) (a :: l).
Proof.
  induction l as [|b l IH]; cbn [insertByCenter]; [reflexivity|].
  destruct (Z.leb_spec (centerDistance a) (centerDistance b)) as [Hle|Hgt]; [reflexivity|].
  rewrite filter_cons, IH, !filter_cons.
  destruct (decide (centerDistance b = k)), (decide (centerDistance a = k));
    try reflexivity. lia.
Qed.

(** X6.  The centre-first ordering applied to the candidates: [sortByCenter l]
    is a permutation of [l], in order of non-decreasing distance from column
    3, and columns at the same distance keep the order they had in [l]. *)
Theorem sortByCenter_stable_sort (l : list Z) :
  Permutation (sortByCenter l) l /\
  StronglySorted (fun x y => centerDistance x <= centerDistance y) (sortByCenter l) /\
  forall k, filter (fun x => centerDistance x = k) (sortByCenter l) =
            filter (fun x => centerDistance x = k) l.
Proof.
  unfold sortByCenter. induction l as [|a l (Hperm & Hsorted & Hstable)]; cbn [foldr].
  - split; [reflexivity|]. split; [constructor | reflexivity].
  - split; [|split].
    + rewrite insertByCenter_Permutation, Hperm. reflexivity.
    + apply insertByCenter_sorted. exact Hsorted.
    + intros k. rewrite insertByCenter_stable, !filter_cons, Hstable. reflexivity.
Qed.

Lemma filter_in_sublists (P : Z -> Prop) `{!forall x, Decision (P x)} (l : list Z) :
  In (filter P l) (sublists l).
Proof.
  induction l as [|a l IH]; [left; reflexivity|].
  rewrite filter_cons. cbn [sublists]. apply in_or_app.
  destruct (decide (P a)); [left; apply in_map; exact IH | right; exact IH].
Qed.

Lemma go1_prioritizeCenter_columns (board : Board) :
  Go1.prioritizeCenter (Go1.getValidColumns board) = sortByCenter (getValidColumns board).
Proof.
  rewrite go1_getValidColumns.
  assert (Hall : forallb (fun l => bool_decide (Go1.prioritizeCenter l = sortByCenter l))
                   (sublists (seqZ 0 COLS)) = true) by (vm_compute; reflexivity).
  rewrite forallb_forall in Hall.
  eapply bool_decide_eq_true_1. apply Hall. unfold getValidColumns. apply filter_in_sublists.
Qed.

Lemma exploreLoop_same_rec (rec rec' : Explorer) (board : Board)
    (currentPlayer opponent : Player) (depth : Z) (cols : list Z) :
  (forall b p d, rec b p d = rec' b p d) ->
  forall results,
    exploreLoop rec board currentPlayer opponent depth cols results =
    exploreLoop rec' board currentPlayer opponent depth cols results.
Proof.
  intros Hrec. induction cols as [|col rest IH]; intros results; [reflexivity|].
  cbn [exploreLoop]. destruct (getAvailableRow board col) as [row|]; [|apply IH].
  destruct (isWinningMove _ currentPlayer); [apply IH|].
  rewrite Hrec. destruct (rec' _ opponent (depth - 1)); [apply IH | reflexivity].
Qed.

(** X7.  On a 6 x 7 board, the explorer of the first Go program builds the
    forest that [exploreGameTree] of [src/pasOpti.ts] builds, for every
    player, depth and fuel: on each of the 128 lists of columns that
    [getValidColumns] can return, the exchange sort of [prioritizeCenter]
    gives the order of the stable sort, and the rest of the two functions
    agrees step by step.  (On a board of another shape the Go program stops
    with an index out of range; the boards that the recursion passes on are
    6 x 7 again.) *)
Theorem go1_exploreGameTree_same_forest (fuel : nat) (board : Board) (player : Player)
    (depth : Z) :
  wf_board board ->
  Go1.exploreGameTree fuel board player depth = exploreGameTree fuel board player depth.
Proof.
  intros _. revert board player depth.
  induction fuel as [|fuel IH]; intros board player depth; [reflexivity|].
  cbn [Go1.exploreGameTree exploreGameTree]. unfold Go1.exploreBody, exploreBody. cbv zeta.
  rewrite go1_prioritizeCenter_columns.
  destruct ((depth =? 0) || _); [reflexivity|].
  rewrite go1_exploreLoop. apply exploreLoop_same_rec. exact IH.
Qed.

Lemma go1_exploreGameTree_same_forest_witness :
  Go1.exploreGameTree 37 threeInRow P2 2 = exploreGameTree 37 threeInRow P2 2.
Proof.
  apply (go1_exploreGameTree_same_forest 37 threeInRow P2 2).
  split; [reflexivity | repeat constructor].
Defined.

(** ** What [isWinningMove] depends on *)

Lemma run_isWinningMove (board : Board) (player : Player) (r c dr dc : Z) :
  In (dr, dc) directions ->
  (forall i, 0 <= i < 4 ->
     (0 <= r + dr * i < ROWS /\ 0 <= c + dc * i < COLS) /\
     cellAt board (r + dr * i) (c + dc * i) = Some (Mark player)) ->
  isWinningMove board player = true.
Proof.
  intros Hd H. unfold isWinningMove, winsFrom.
  assert (H0 := H 0 ltac:(lia)). rewrite !Z.mul_0_r, !Z.add_0_r in H0.
  destruct H0 as [[Hr Hc] Hcell].
  apply existsb_exists. exists r. split; [apply In_seqZ; lia|].
  apply existsb_exists. exists c. split; [apply In_seqZ; lia|].
  apply andb_true_intro. split; [apply holds_true; exact Hcell|].
  apply existsb_exists. exists (dr, dc). split; [exact Hd|].
  apply Z.eqb_eq. apply countRun_four. cbn [fst snd]. intros i Hi.
  destruct (H i Hi) as [Hb Hh]. split; [apply inBounds_true | apply holds_true]; tauto.
Qed.

Lemma isWinningMove_bounded_run (board : Board) (player : Player) :
  isWinningMove board player = true ->
  exists r c dr dc, In (dr, dc) directions /\
    forall i, 0 <= i < 4 ->
      (0 <= r + dr * i < ROWS /\ 0 <= c + dc * i < COLS) /\
      cellAt board (r + dr * i) (c + dc * i) = Some (Mark player).
Proof.
  unfold isWinningMove, winsFrom. intros H.
  apply existsb_exists in H. destruct H as (r & _ & H).
  apply existsb_exists in H. destruct H as (c & _ & H).
  apply andb_true_iff in H. destruct H as [_ H].
  apply existsb_exists in H. destruct H as ([dr dc] & Hd & H).
  apply Z.eqb_eq in H. rewrite countRun_four in H. cbn [fst snd] in H.
  exists r, c, dr, dc. split; [exact Hd|]. intros i Hi.
  destruct (H i Hi) as [Hb Hh]. apply inBounds_true in Hb. apply holds_true in Hh. tauto.
Qed.

(** X8.  [isWinningMove board player] looks at the player's own marks only,
    and more marks never undo a win: when every cell that holds the player's
    mark on [board] also holds it on [board'], a win on [board] is a win on
    [board'].  A win needs at least four marks of the player on the board. *)
Theorem isWinningMove_monotone (board board' : Board) (player : Player) :
  wf_board board -> wf_board board' ->
  (forall r c, cellAt board r c = Some (Mark player) ->
               cellAt board' r c = Some (Mark player)) ->
  isWinningMove board player = true ->
  isWinningMove board' player = true /\ (4 <= countMarks player board)%nat.
Proof.
  intros _ _ Hsub Hwin. split; [|apply win_needs_four_marks; exact Hwin].
  apply isWinningMove_bounded_run in Hwin.
  destruct Hwin as (r & c & dr & dc & Hd & Hrun).
  apply (run_isWinningMove board' player r c dr dc Hd).
  intros i Hi. destruct (Hrun i Hi) as [Hb Hcell]. split; [exact Hb|].
  apply Hsub. exact Hcell.
Qed.

Lemma isWinningMove_monotone_witness :
  isWinningMove (dropPiece (dropPiece threeInRow 5 4 P1) 5 0 P2) P1 = true /\
  (4 <= countMarks P1 (dropPiece threeInRow 5 4 P1))%nat.
Proof.
  apply (isWinningMove_monotone (dropPiece threeInRow 5 4 P1)
           (dropPiece (dropPiece threeInRow 5 4 P1) 5 0 P2) P1).
  - split; [reflexivity | repeat constructor].
  - split; [reflexivity | repeat constructor].
  - intros r c H. rewrite cellAt_dropPiece_other; [exact H|].
    intros [= -> ->]. vm_compute in H. discriminate H.
  - vm_compute. reflexivity.
Defined.

(** ** What [summarizeOutcomes] depends on *)

Lemma existsb_Permutation {A : Type} (f : A -> bool) (l l' : list A) :
  Permutation l l' -> existsb f l = existsb f l'.
Proof.
  induction 1 as [|x l l' _ IH|x y l|l l' l'' _ IH1 _ IH2]; cbn.
  - reflexivity.
  - rewrite IH. reflexivity.
  - destruct (f x), (f y); reflexivity.
  - congruence.
Qed.

Lemma forallb_Permutation {A : Type} (f : A -> bool) (l l' : list A) :
  Permutation l l' -> forallb f l = forallb f l'.
Proof.
  induction 1 as [|x l l' _ IH|x y l|l l' l'' _ IH1 _ IH2]; cbn.
  - reflexivity.
  - rewrite IH. reflexivity.
  - destruct (f x), (f y); reflexivity.
  - congruence.
Qed.

Lemma existsb_map {A B : Type} (f : B -> bool) (g : A -> B) (l : list A) :
  existsb f (map g l) = existsb (fun x => f (g x)) l.
Proof. induction l as [|x l IH]; cbn; [reflexivity | rewrite IH; reflexivity]. Qed.

Lemma forallb_map {A B : Type} (f : B -> bool) (g : A -> B) (l : list A) :
  forallb f (map g l) = forallb (fun x => f (g x)) l.
Proof. induction l as [|x l IH]; cbn; [reflexivity | rewrite IH; reflexivity]. Qed.

(** X9.  [summarizeOutcomes] depends on the outcomes of the children only,
    not on their order, their moves or their subtrees: two lists of children
    whose outcomes are the same up to order get the same summary, for either
    player.  In particular the order in which sibling results are collected
    does not matter. *)
Theorem summarizeOutcomes_order_free (nodes nodes' : list GameNode) (player : Player) :
  Permutation (map outcome nodes) (map outcome nodes') ->
  summarizeOutcomes nodes player = summarizeOutcomes nodes' player.
Proof.
  intros Hperm. unfold summarizeOutcomes. cbv zeta.
  assert (He : forall l, existsb (fun n => bool_decide (outcome n = winOf player)) l =
                         existsb (fun o => bool_decide (o = winOf player)) (map outcome l)).
  { intros l. symmetry. apply (existsb_map (fun o => bool_decide (o = winOf player))). }
  assert (Hf : forall l, forallb (fun n => bool_decide (outcome n = loseOf player)) l =
                         forallb (fun o => bool_decide (o = loseOf player)) (map outcome l)).
  { intros l. symmetry. apply (forallb_map (fun o => bool_decide (o = loseOf player))). }
  rewrite !He, !Hf.
  rewrite (existsb_Permutation _ _ _ Hperm), (forallb_Permutation _ _ _ Hperm).
  reflexivity.
Qed.

Lemma summarizeOutcomes_order_free_witness :
  summarizeOutcomes [mkNode 3 DRAW [sentinel]; mkNode 2 WIN_P2 []] P1 =
  summarizeOutcomes [mkNode 0 WIN_P2 []; mkNode 6 DRAW []] P1.
Proof.
  apply (summarizeOutcomes_order_free
           [mkNode 3 DRAW [sentinel]; mkNode 2 WIN_P2 []]
           [mkNode 0 WIN_P2 []; mkNode 6 DRAW []] P1).
  cbn. apply perm_swap.
Defined.

(** ** The forests of the explorers without early exit

    [exploreGameTree] and [exploreGameTreeSmart] of the second Go program
    differ in the order of the candidates only.  The facts below are proved
    once, for an explorer [E] that runs the loop of [exploreGameTree] over
    the candidates [order board], on boards that satisfy [Inv]. *)

Lemma winningLine_step (board : Board) (player : Player) (col c : Z) (rest : list Z)
    (row : Z) :
  getAvailableRow board col = Some row ->
  winningLine board player (col :: c :: rest) =
  (0 <=? col) && (col <? COLS) &&
  (negb (isWinningMove (dropPiece (cloneBoard board) row col player) player) &&
   winningLine (dropPiece (cloneBoard board) row col player) (other player) (c :: rest)).
Proof.
  intros Hrow.
  change (winningLine board player (col :: c :: rest)) with
    (match getAvailableRow board col with
     | None => false
     | Some row =>
         (0 <=? col) && (col <? COLS) &&
         (negb (isWinningMove (dropPiece (cloneBoard board) row col player) player) &&
          winningLine (dropPiece (cloneBoard board) row col player) (other player)
            (c :: rest))
     end).
  rewrite Hrow. reflexivity.
Qed.

Section PlainExplorer.
Variable order : Board -> list Z.
Variable E : nat -> Explorer.
Variable Inv : Board -> Prop.

Hypothesis E_zero : forall board player depth, E 0 board player depth = None.
Hypothesis E_succ : forall fuel board player depth,
  E (S fuel) board player depth =
  if (depth =? 0) || (length (order board) =? 0)%nat then Some [sentinel]
  else exploreLoop (E fuel) board player (other player) depth (order board) [].
Hypothesis order_valid : forall board col,
  Inv board -> (In col (order board) <-> In col (getValidColumns board)).
Hypothesis Inv_move : forall board col row player,
  Inv board -> 0 <= col < COLS -> getAvailableRow board col = Some row ->
  Inv (dropPiece (cloneBoard board) row col player).

Lemma plain_cases (fuel : nat) (board : Board) (player : Player) (depth : Z)
    (forest : list GameNode) :
  Inv board -> E (S fuel) board player depth = Some forest ->
  (forest = [sentinel] /\ (depth = 0 \/ order board = [])) \/
  (depth <> 0 /\ order board <> [] /\
   Forall2 (nodeFor (fun newBoard => E fuel newBoard (other player) (depth - 1))
              board player) (order board) forest).
Proof.
  intros Hinv Hrun. rewrite E_succ in Hrun.
  destruct ((depth =? 0) || (length (order board) =? 0)%nat) eqn:Et.
  - left. injection Hrun as <-. split; [reflexivity|].
    apply orb_true_iff in Et. destruct Et as [Hd|Hl].
    + left. apply Z.eqb_eq. exact Hd.
    + right. apply Nat.eqb_eq in Hl. destruct (order board); [reflexivity | discriminate].
  - right. apply orb_false_iff in Et. destruct Et as [Hd Hl].
    apply Z.eqb_neq in Hd. apply Nat.eqb_neq in Hl.
    split; [exact Hd|]. split; [intros Hnil; rewrite Hnil in Hl; apply Hl; reflexivity|].
    apply exploreLoop_nodes in Hrun.
    + destruct Hrun as (out & -> & Hout). exact Hout.
    + apply Forall_forall. intros col Hin. apply order_valid in Hin; [|exact Hinv].
      apply In_getValidColumns in Hin. tauto.
Qed.

Lemma plain_nonempty (fuel : nat) (board : Board) (player : Player) (depth : Z)
    (forest : list GameNode) :
  Inv board -> E fuel board player depth = Some forest -> forest <> [].
Proof.
  intros Hinv Hrun. destruct fuel as [|fuel]; [rewrite E_zero in Hrun; discriminate|].
  destruct (plain_cases _ _ _ _ _ Hinv Hrun) as [[-> _]|(_ & Hne & Hall)]; [discriminate|].
  intros ->. apply Forall2_same_length in Hall.
  destruct (order board); [contradiction | discriminate].
Qed.

Lemma plain_returns (fuel : nat) :
  forall (board : Board) (player : Player) (depth : Z),
    (countEmpty board < fuel)%nat -> is_Some (E fuel board player depth).
Proof.
  induction fuel as [|fuel IH]; intros board player depth Hfuel; [lia|].
  rewrite E_succ. destruct ((depth =? 0) || _); [eexists; reflexivity|].
  apply exploreLoop_returns. intros col row _ Hrow. apply IH.
  pose proof (countEmpty_move board col row player Hrow). lia.
Qed.

Lemma nodeFor_move (kids : Board -> option (list GameNode)) (board : Board)
    (player : Player) (cols : list Z) (forest : list GameNode) :
  Forall2 (nodeFor kids board player) cols forest -> map move forest = cols.
Proof.
  induction 1 as [|col n cols forest (row & _ & Hn) _ IH]; [reflexivity|].
  cbn [map]. rewrite IH. f_equal.
  cbn zeta in Hn. destruct Hn as [[_ ->]|[_ (next & _ & ->)]]; reflexivity.
Qed.

(** The node of a candidate column. *)
Lemma plain_child (fuel : nat) (board : Board) (player : Player) (depth : Z)
    (forest : list GameNode) (col row : Z) :
  Inv board -> E (S fuel) board player depth = Some forest ->
  depth <> 0 -> 0 <= col < COLS -> getAvailableRow board col = Some row ->
  exists n, In n forest /\
    nodeFor (fun newBoard => E fuel newBoard (other player) (depth - 1)) board player col n.
Proof.
  intros Hinv Hrun Hd Hcol Hrow.
  assert (Hin : In col (order board)).
  { apply order_valid; [exact Hinv|]. apply In_getValidColumns.
    split; [exact Hcol | eexists; exact Hrow]. }
  destruct (plain_cases _ _ _ _ _ Hinv Hrun) as [[_ [H|H]]|(_ & _ & Hall)].
  - contradiction.
  - rewrite H in Hin. destruct Hin.
  - eapply Forall2_In_left; [exact Hall | exact Hin].
Qed.

(** Every winning line within the budget ends at a hit of the forest. *)
Lemma plain_line_hit (moves : list Z) :
  forall (fuel : nat) (board : Board) (player : Player) (depth : Z)
         (forest : list GameNode),
    Inv board -> winningLine board player moves = true ->
    E fuel board player depth = Some forest ->
    Z.of_nat (length moves) <= depth ->
    exists n, reaches forest moves n /\
      hit (winOf (moverAt player (length moves - 1))) n.
Proof.
  induction moves as [|col rest IH]; intros fuel board player depth forest Hinv Hline Hrun Hd;
    [discriminate|].
  destruct fuel as [|fuel]; [rewrite E_zero in Hrun; discriminate|].
  cbn [winningLine] in Hline.
  destruct (getAvailableRow board col) as [row|] eqn:Hrow; [|discriminate].
  apply andb_true_iff in Hline. destruct Hline as [Hcol Hline].
  apply andb_true_iff in Hcol. destruct Hcol as [Hc0 Hc1].
  apply Z.leb_le in Hc0. apply Z.ltb_lt in Hc1.
  assert (Hdepth : depth <> 0) by (cbn [length] in Hd; lia).
  destruct (plain_child fuel board player depth forest col row Hinv Hrun Hdepth
              (conj Hc0 Hc1) Hrow) as (m & Hm & (row' & Hrow' & Hnode)).
  rewrite Hrow in Hrow'. injection Hrow' as <-. cbn zeta in Hnode.
  destruct rest as [|col' rest].
  - destruct Hnode as [[_ ->]|[Hno _]]; [|congruence].
    exists (winNode col player). split.
    + apply (reaches_here forest (winNode col player)). exact Hm.
    + split; reflexivity.
  - apply andb_true_iff in Hline. destruct Hline as [Hnowin Hline].
    apply negb_true_iff in Hnowin.
    destruct Hnode as [[Hwin _]|[_ (next & Hnext & ->)]]; [congruence|].
    destruct (IH fuel _ (other player) (depth - 1) next
                (Inv_move board col row player Hinv (conj Hc0 Hc1) Hrow) Hline Hnext)
      as (n & Hreach & Hhit).
    { cbn [length] in Hd |- *. lia. }
    exists n. split.
    + apply (reaches_below forest (mkNode col (summarizeOutcomes next player) next)); assumption.
    + rewrite moverAt_succ in Hhit. cbn [length] in Hhit |- *.
      replace (S (S (length rest)) - 1)%nat with (S (S (length rest) - 1))%nat by lia.
      exact Hhit.
Qed.

(** Every childless winning node of the forest ends a winning line, which
    stays within a budget that is not negative. *)
Lemma plain_hit_line (forest : list GameNode) (path : list Z) (n : GameNode) :
  reaches forest path n ->
  forall (fuel : nat) (board : Board) (player who : Player) (depth : Z),
    Inv board -> E fuel board player depth = Some forest ->
    hit (winOf who) n ->
    winningLine board player path = true /\
    moverAt player (length path - 1) = who /\
    (0 <= depth -> Z.of_nat (length path) <= depth).
Proof.
  induction 1 as [forest n Hin | forest m path n Hin Hreach IH];
    intros fuel board player who depth Hinv Hrun [Hout Hkids];
    (destruct fuel as [|fuel]; [rewrite E_zero in Hrun; discriminate|]);
    (destruct (plain_cases _ _ _ _ _ Hinv Hrun) as [[-> _]|(Hd & _ & Hall)];
     [destruct Hin as [<-|[]] | ]).
  - destruct who; discriminate Hout.
  - destruct (Forall2_In_right _ _ _ _ Hall Hin) as (col & Hcol & (row & Hrow & Hnode)).
    apply order_valid in Hcol; [|exact Hinv]. apply In_getValidColumns in Hcol.
    destruct Hcol as [Hcol _].
    cbn zeta in Hnode. destruct Hnode as [[Hwin ->]|[_ (next & Hnext & ->)]].
    + cbn [outcome] in Hout. apply winOf_inj in Hout. subst who.
      split; [|split; [reflexivity | cbn; lia]].
      cbn [move winNode winningLine]. rewrite Hrow, Hwin.
      apply andb_true_intro. split; [|reflexivity].
      apply andb_true_intro. split; [apply Z.leb_le | apply Z.ltb_lt]; lia.
    + cbn [children] in Hkids. subst next. exfalso.
      eapply (plain_nonempty fuel); [|exact Hnext|reflexivity].
      apply Inv_move; assumption.
  - exfalso. eapply reaches_nil. exact Hreach.
  - destruct (Forall2_In_right _ _ _ _ Hall Hin) as (col & Hcol & (row & Hrow & Hnode)).
    apply order_valid in Hcol; [|exact Hinv]. apply In_getValidColumns in Hcol.
    destruct Hcol as [Hcol _].
    cbn zeta in Hnode. destruct Hnode as [[_ ->]|[Hnowin (next & Hnext & ->)]].
    + exfalso. eapply reaches_nil. exact Hreach.
    + cbn [children] in Hreach, IH. cbn [move].
      destruct (IH fuel _ (other player) who (depth - 1)
                  (Inv_move board col row player Hinv Hcol Hrow) Hnext (conj Hout Hkids))
        as (Hline & Hwho & Hlen).
      pose proof (reaches_nonempty _ _ _ Hreach) as Hne.
      destruct path as [|c path]; [contradiction|].
      split; [|split].
      * rewrite (winningLine_step _ _ _ _ _ _ Hrow), Hnowin, Hline. cbn [negb andb].
        rewrite andb_true_r.
        apply andb_true_intro. split; [apply Z.leb_le | apply Z.ltb_lt]; lia.
      * rewrite moverAt_succ in Hwho. cbn [length] in Hwho |- *.
        replace (S (S (length path)) - 1)%nat with (S (S (length path) - 1))%nat by lia.
        exact Hwho.
      * intros Hnn. cbn [length] in Hlen |- *. lia.
Qed.

(** The shape of the nodes of the forest. *)
Lemma plain_node_shape (forest : list GameNode) (path : list Z) (n : GameNode) :
  reaches forest path n ->
  forall (fuel : nat) (board : Board) (player : Player) (depth : Z),
    Inv board -> E fuel board player depth = Some forest ->
    n = sentinel \/
    (0 <= move n < COLS /\
     (children n = [] -> outcome n = winOf (moverAt player (length path - 1))) /\
     (children n <> [] ->
        outcome n = summarizeOutcomes (children n) (moverAt player (length path - 1)))).
Proof.
  induction 1 as [forest n Hin | forest m path n Hin Hreach IH];
    intros fuel board player depth Hinv Hrun;
    (destruct fuel as [|fuel]; [rewrite E_zero in Hrun; discriminate|]);
    (destruct (plain_cases _ _ _ _ _ Hinv Hrun) as [[-> _]|(Hd & _ & Hall)];
     [destruct Hin as [<-|[]] | ]).
  - left. reflexivity.
  - destruct (Forall2_In_right _ _ _ _ Hall Hin) as (col & Hcol & (row & Hrow & Hnode)).
    apply order_valid in Hcol; [|exact Hinv]. apply In_getValidColumns in Hcol.
    destruct Hcol as [Hcol _]. right.
    cbn zeta in Hnode. destruct Hnode as [[Hwin ->]|[_ (next & Hnext & ->)]].
    + cbn. split; [exact Hcol|]. split; [reflexivity | intros Hne; contradiction].
    + cbn [move children outcome length]. split; [exact Hcol|]. split; [|reflexivity].
      intros ->. exfalso. eapply (plain_nonempty fuel); [|exact Hnext|reflexivity].
      apply Inv_move; assumption.
  - exfalso. eapply reaches_nil. exact Hreach.
  - destruct (Forall2_In_right _ _ _ _ Hall Hin) as (col & Hcol & (row & Hrow & Hnode)).
    apply order_valid in Hcol; [|exact Hinv]. apply In_getValidColumns in Hcol.
    destruct Hcol as [Hcol _].
    cbn zeta in Hnode. destruct Hnode as [[_ ->]|[_ (next & Hnext & ->)]].
    + exfalso. eapply reaches_nil. exact Hreach.
    + cbn [children] in Hreach, IH.
      specialize (IH fuel _ (other player) (depth - 1)
                    (Inv_move board col row player Hinv Hcol Hrow) Hnext).
      pose proof (reaches_nonempty _ _ _ Hreach) as Hne.
      destruct path as [|c path]; [contradiction|].
      rewrite moverAt_succ in IH. cbn [length] in IH |- *.
      replace (S (S (length path)) - 1)%nat with (S (S (length path) - 1))%nat by lia.
      exact IH.
Qed.
End PlainExplorer.

(** *** [exploreGameTree] of [src/pasOpti.ts] *)

Abbreviation tsOrder := (fun board : Board => sortByCenter (getValidColumns board)).
Abbreviation anyBoard := (fun _ : Board => True).

Lemma ts_E_succ (fuel : nat) (board : Board) (player : Player) (depth : Z) :
  exploreGameTree (S fuel) board player depth =
  if (depth =? 0) || (length (tsOrder board) =? 0)%nat then Some [sentinel]
  else exploreLoop (exploreGameTree fuel) board player (other player) depth (tsOrder board) [].
Proof. reflexivity. Qed.

Lemma ts_order_valid (board : Board) (col : Z) :
  anyBoard board -> (In col (tsOrder board) <-> In col (getValidColumns board)).
Proof. intros _. apply In_sortByCenter. Qed.

Lemma ts_Inv_move (board : Board) (col row : Z) (player : Player) :
  anyBoard board -> 0 <= col < COLS -> getAvailableRow board col = Some row ->
  anyBoard (dropPiece (cloneBoard board) row col player).
Proof. intros; exact I. Qed.

(** X10.  When the depth is not 0 and some column is legal, [exploreGameTree]
    returns one node per legal column, in centre-first order, whether or not
    one of the placements wins: the moves of the forest are the sorted list
    of the legal columns. *)
Theorem exploreGameTree_one_node_per_column (board : Board) (player : Player)
    (depth : Z) (fuel : nat) :
  wf_board board -> (countEmpty board < fuel)%nat ->
  depth <> 0 -> getValidColumns board <> [] ->
  exists forest,
    exploreGameTree fuel board player depth = Some forest /\
    map move forest = sortByCenter (getValidColumns board).
Proof.
  intros _ Hfuel Hd Hcols.
  destruct (exploreGameTree_returns fuel board player depth Hfuel) as [forest Hrun].
  exists forest. split; [exact Hrun|].
  destruct fuel as [|fuel]; [discriminate|].
  apply exploreGameTree_nodes in Hrun.
  - eapply nodeFor_move. exact Hrun.
  - intros [H|H]; contradiction.
Qed.

Lemma exploreGameTree_one_node_per_column_witness :
  exists forest,
    exploreGameTree 37 threeInRow P1 5 = Some forest /\
    map move forest = sortByCenter (getValidColumns threeInRow).
Proof.
  apply (exploreGameTree_one_node_per_column threeInRow P1 5 37).
  - split; [reflexivity | repeat constructor].
  - vm_compute. lia.
  - lia.
  - vm_compute. discriminate.
Defined.

Lemma exploreGameTree_height (forest : list GameNode) (path : list Z) (n : GameNode) :
  reaches forest path n ->
  forall (fuel : nat) (board : Board) (player : Player) (depth : Z),
    exploreGameTree fuel board player depth = Some forest -> 0 <= depth ->
    Z.of_nat (length path) <= depth + 1 /\
    (n <> sentinel -> Z.of_nat (length path) <= depth).
Proof.
  induction 1 as [forest n Hin | forest m path n Hin Hreach IH];
    intros fuel board player depth Hrun Hnn;
    (destruct fuel as [|fuel]; [discriminate|]);
    (destruct (plain_cases tsOrder exploreGameTree anyBoard ts_E_succ ts_order_valid
                 _ _ _ _ _ I Hrun) as [[-> _]|(Hd & _ & Hall)];
     [destruct Hin as [<-|[]] | ]).
  - cbn. split; [lia | intros H; contradiction].
  - cbn. lia.
  - exfalso. eapply reaches_nil. exact Hreach.
  - destruct (Forall2_In_right _ _ _ _ Hall Hin) as (col & _ & (row & _ & Hnode)).
    cbn zeta in Hnode. destruct Hnode as [[_ ->]|[_ (next & Hnext & ->)]].
    + exfalso. eapply reaches_nil. exact Hreach.
    + cbn [children] in Hreach, IH.
      destruct (IH fuel _ (other player) (depth - 1) Hnext ltac:(lia)) as [H1 H2].
      cbn [length]. split; [lia|]. intros Hne. specialize (H2 Hne). lia.
Qed.

Lemma exploreGameTree_keeps_siblings_forest :
  exists forest,
    exploreGameTree 40 threeInRow P1 1 = Some forest /\ In (winNode 4 P1) forest.
Proof.
  eexists. split; [vm_compute; reflexivity|]. cbn. tauto.
Defined.

(** X11.  The forest of [exploreGameTree]: every node, at any level, is the
    sentinel [{move: -1, DRAW, no children}] or carries a column of the grid
    as move; a node without children that is not the sentinel carries the
    win of the player who made its move; and with a depth that is not
    negative no node lies deeper than [depth + 1] levels, the nodes at level
    [depth + 1] being sentinels. *)
Theorem exploreGameTree_node_shape (board : Board) (player : Player) (depth : Z)
    (fuel : nat) (forest : list GameNode) (path : list Z) (n : GameNode) :
  wf_board board -> exploreGameTree fuel board player depth = Some forest ->
  reaches forest path n ->
  (n = sentinel \/
   (0 <= move n < COLS /\
    (children n = [] -> outcome n = winOf (moverAt player (length path - 1))))) /\
  (0 <= depth ->
     Z.of_nat (length path) <= depth + 1 /\
     (n <> sentinel -> Z.of_nat (length path) <= depth)).
Proof.
  intros _ Hrun Hreach. split.
  - destruct (plain_node_shape tsOrder exploreGameTree anyBoard
                (fun _ _ _ => eq_refl) ts_E_succ ts_order_valid ts_Inv_move
                forest path n Hreach fuel board player depth I Hrun) as [H|H];
      [left; exact H | right; tauto].
  - intros Hnn. eapply exploreGameTree_height; eassumption.
Qed.

Lemma exploreGameTree_node_shape_witness :
  (winNode 4 P1 = sentinel \/
   (0 <= move (winNode 4 P1) < COLS /\
    (children (winNode 4 P1) = [] ->
     outcome (winNode 4 P1) = winOf (moverAt P1 (length [4] - 1))))) /\
  (0 <= 1 ->
     Z.of_nat (length [4]) <= 1 + 1 /\
     (winNode 4 P1 <> sentinel -> Z.of_nat (length [4]) <= 1)).
Proof.
  destruct exploreGameTree_keeps_siblings_forest as (forest & Hrun & Hin).
  apply (exploreGameTree_node_shape threeInRow P1 1 40 forest [4] (winNode 4 P1)).
  - split; [reflexivity | repeat constructor].
  - exact Hrun.
  - apply (reaches_here forest (winNode 4 P1)). exact Hin.
Defined.

(** X12.  With a depth that is not negative, the childless winning nodes of
    the forest of [exploreGameTree] are exactly the winning lines of at most
    [depth] moves: [path] leads to a childless node with the win of [who]
    exactly when [path] is a sequence of legal placements made in turn from
    [player] on, of which the last one is made by [who] and is the first to
    complete a line of four for its mover. *)
Theorem exploreGameTree_hits_are_winning_lines (board : Board) (player who : Player)
    (depth : Z) (fuel : nat) (forest : list GameNode) (path : list Z) :
  wf_board board -> 0 <= depth ->
  exploreGameTree fuel board player depth = Some forest ->
  ((exists n, reaches forest path n /\ hit (winOf who) n) <->
   (winningLine board player path = true /\
    moverAt player (length path - 1) = who /\
    Z.of_nat (length path) <= depth)).
Proof.
  intros _ Hd Hrun. split.
  - intros (n & Hreach & Hhit).
    destruct (plain_hit_line tsOrder exploreGameTree anyBoard
                (fun _ _ _ => eq_refl) ts_E_succ ts_order_valid ts_Inv_move
                forest path n Hreach fuel board player who depth I Hrun Hhit)
      as (Hline & Hwho & Hlen).
    split; [exact Hline|]. split; [exact Hwho | apply Hlen; exact Hd].
  - intros (Hline & Hwho & Hlen). subst who.
    apply (plain_line_hit tsOrder exploreGameTree anyBoard
             (fun _ _ _ => eq_refl) ts_E_succ ts_order_valid ts_Inv_move
             path fuel board player depth forest I Hline Hrun Hlen).
Qed.

Lemma exploreGameTree_hits_are_winning_lines_witness :
  exists forest,
    exploreGameTree 40 threeInRow P1 1 = Some forest /\
    ((exists n, reaches forest [4] n /\ hit (winOf P1) n) <->
     (winningLine threeInRow P1 [4] = true /\
      moverAt P1 (length [4] - 1) = P1 /\
      Z.of_nat (length [4]) <= 1)).
Proof.
  destruct exploreGameTree_keeps_siblings_forest as (forest & Hrun & _).
  exists forest. split; [exact Hrun|].
  apply (exploreGameTree_hits_are_winning_lines threeInRow P1 P1 1 40 forest [4]).
  - split; [reflexivity | repeat constructor].
  - lia.
  - exact Hrun.
Defined.

(** X13.  The explorer and the extractor composed, as the script composes
    them: for a depth that is not negative and enough fuel,
    [findShortestWinningPath (exploreGameTree board player depth) (winOf who)]
    returns a winning line for [who] of at most [depth] moves that is as
    short as any such line, and returns [None] exactly when there is no such
    line. *)
Theorem shortest_path_is_shortest_winning_line (board : Board) (player who : Player)
    (depth : Z) (fuel : nat) :
  wf_board board -> (countEmpty board < fuel)%nat -> 0 <= depth ->
  exists forest,
    exploreGameTree fuel board player depth = Some forest /\
    match findShortestWinningPath forest (winOf who) with
    | Some path =>
        winningLine board player path = true /\
        moverAt player (length path - 1) = who /\
        Z.of_nat (length path) <= depth /\
        forall line, winningLine board player line = true ->
          moverAt player (length line - 1) = who ->
          Z.of_nat (length line) <= depth ->
          (length path <= length line)%nat
    | None =>
        forall line, winningLine board player line = true ->
          moverAt player (length line - 1) = who ->
          Z.of_nat (length line) <= depth -> False
    end.
Proof.
  intros _ Hfuel Hd.
  destruct (exploreGameTree_returns fuel board player depth Hfuel) as [forest Hrun].
  exists forest. split; [exact Hrun|].
  assert (Hto : forall line, winningLine board player line = true ->
            moverAt player (length line - 1) = who ->
            Z.of_nat (length line) <= depth ->
            exists n, reaches forest line n /\ hit (winOf who) n).
  { intros line Hline Hwho Hlen. subst who.
    apply (plain_line_hit tsOrder exploreGameTree anyBoard
             (fun _ _ _ => eq_refl) ts_E_succ ts_order_valid ts_Inv_move
             line fuel board player depth forest I Hline Hrun Hlen). }
  destruct (findShortestWinningPath forest (winOf who)) as [path|] eqn:Epath.
  - apply shortest_is_minimal_hit in Epath. destruct Epath as ((n & Hreach & Hhit) & Hmin).
    destruct (plain_hit_line tsOrder exploreGameTree anyBoard
                (fun _ _ _ => eq_refl) ts_E_succ ts_order_valid ts_Inv_move
                forest path n Hreach fuel board player who depth I Hrun Hhit)
      as (Hline & Hwho & Hlen).
    split; [exact Hline|]. split; [exact Hwho|]. split; [apply Hlen; exact Hd|].
    intros line Hl Hw Hle. destruct (Hto line Hl Hw Hle) as (h & Hr & Hh).
    apply (Hmin _ _ Hr Hh).
  - intros line Hl Hw Hle. apply shortest_none_iff_no_hit in Epath. apply Epath.
    destruct (Hto line Hl Hw Hle) as (h & Hr & Hh). eauto.
Qed.

Lemma shortest_path_is_shortest_winning_line_witness :
  exists forest,
    exploreGameTree 37 threeInRow P1 2 = Some forest /\
    match findShortestWinningPath forest (winOf P2) with
    | Some path =>
        winningLine threeInRow P1 path = true /\
        moverAt P1 (length path - 1) = P2 /\
        Z.of_nat (length path) <= 2 /\
        forall line, winningLine threeInRow P1 line = true ->
          moverAt P1 (length line - 1) = P2 ->
          Z.of_nat (length line) <= 2 ->
          (length path <= length line)%nat
    | None =>
        forall line, winningLine threeInRow P1 line = true ->
          moverAt P1 (length line - 1) = P2 ->
          Z.of_nat (length line) <= 2 -> False
    end.
Proof.
  apply (shortest_path_is_shortest_winning_line threeInRow P1 P2 2 37).
  - split; [reflexivity | repeat constructor].
  - vm_compute. lia.
  - lia.
Defined.

Lemma reaches_last (forest : list GameNode) (path : list Z) (n : GameNode) :
  reaches forest path n -> list.last path = Some (move n).
Proof.
  induction 1 as [forest n Hin | forest m path n Hin Hreach IH]; [reflexivity|].
  pose proof (reaches_nonempty _ _ _ Hreach) as Hne.
  destruct path as [|c path]; [contradiction|]. exact IH.
Qed.

(** X14.  Asking the extractor for [DRAW] on a forest of [exploreGameTree]
    never yields a playable sequence: the only childless [DRAW] nodes are
    the sentinels, so a returned sequence ends with the pseudo-move [-1]. *)
Theorem draw_path_ends_with_sentinel (board : Board) (player : Player) (depth : Z)
    (fuel : nat) (forest : list GameNode) (path : list Z) :
  wf_board board -> exploreGameTree fuel board player depth = Some forest ->
  findShortestWinningPath forest DRAW = Some path ->
  list.last path = Some (-1) /\ playMoves board player path = None.
Proof.
  intros _ Hrun Hpath. apply shortest_is_minimal_hit in Hpath.
  destruct Hpath as ((n & Hreach & [Hout Hkids]) & _).
  assert (Hlast : list.last path = Some (-1)).
  { rewrite (reaches_last _ _ _ Hreach).
    destruct (plain_node_shape tsOrder exploreGameTree anyBoard
                (fun _ _ _ => eq_refl) ts_E_succ ts_order_valid ts_Inv_move
                forest path n Hreach fuel board player depth I Hrun)
      as [->|(_ & Hleaf & _)]; [reflexivity|].
    rewrite (Hleaf Hkids) in Hout. destruct (moverAt _ _); discriminate Hout. }
  split; [exact Hlast|].
  clear Hreach Hrun. revert board player.
  induction path as [|c path IH]; intros board player; [discriminate|].
  cbn [playMoves]. destruct (getAvailableRow board c) as [row|] eqn:Hrow; [|reflexivity].
  destruct path as [|c' path].
  - cbn in Hlast. injection Hlast as ->. apply getAvailableRow_Some in Hrow.
    destruct Hrow as (_ & He & _). unfold cellAt in He. cbn in He.
    rewrite andb_false_r in He. discriminate He.
  - apply IH. exact Hlast.
Qed.

Lemma draw_path_ends_with_sentinel_witness :
  list.last [3; -1] = Some (-1) /\ playMoves threeInRow P1 [3; -1] = None.
Proof.
  destruct exploreGameTree_keeps_siblings_forest as (forest & Hrun & _).
  apply (draw_path_ends_with_sentinel threeInRow P1 1 40 forest [3; -1]).
  - split; [reflexivity | repeat constructor].
  - exact Hrun.
  - vm_compute in Hrun. injection Hrun as <-. vm_compute. reflexivity.
Defined.

(** *** [exploreGameTreeSmart] of the second Go program *)

Abbreviation fairBoard := (fun board : Board => wf_board board /\ gravity board).

Lemma go2_runTasks (rec : Explorer) (board : Board) (currentPlayer opponent : Player)
    (depth : Z) (cols : list Z) :
  forall results,
    Go2.runTasks rec board currentPlayer opponent depth cols results =
    exploreLoop rec board currentPlayer opponent depth cols results.
Proof.
  induction cols as [|col rest IH]; intros results; [reflexivity|].
  cbn [Go2.runTasks exploreLoop]. cbn zeta. unfold Go2.getAvailableRow.
  pose proof (go1_getAvailableRow_none board col) as Hnone.
  pose proof (go1_getAvailableRow board col) as Hrow.
  destruct (getAvailableRow board col) as [row|] eqn:E.
  - destruct (Z.eqb_spec (Go1.getAvailableRow board col) (-1)) as [Heq|_].
    { apply Hnone in Heq. discriminate. }
    rewrite Hrow, cloneBoard_id, go2_isWinningMove.
    destruct (isWinningMove _ currentPlayer); [apply IH|].
    destruct (rec _ opponent (depth - 1)) as [next|]; [apply IH | reflexivity].
  - rewrite Hrow. cbn. apply IH.
Qed.

Lemma go2_E_succ (fuel : nat) (board : Board) (player : Player) (depth : Z) :
  Go2.exploreGameTreeSmart (S fuel) board player depth =
  if (depth =? 0) || (length (Go2.getValidColumns board) =? 0)%nat then Some [sentinel]
  else exploreLoop (Go2.exploreGameTreeSmart fuel) board player (other player) depth
         (Go2.getValidColumns board) [].
Proof.
  cbn [Go2.exploreGameTreeSmart]. unfold Go2.exploreBody.
  destruct (depth =? 0); [reflexivity|]. cbn [orb]. cbv zeta.
  destruct (length (Go2.getValidColumns board) =? 0)%nat; [reflexivity|].
  apply go2_runTasks.
Qed.

Lemma go2_order_valid (board : Board) (col : Z) :
  fairBoard board ->
  (In col (Go2.getValidColumns board) <-> In col (getValidColumns board)).
Proof. intros [Hwf Hg]. rewrite go2_getValidColumns_gravity by assumption. reflexivity. Qed.

Lemma go2_Inv_move (board : Board) (col row : Z) (player : Player) :
  fairBoard board -> 0 <= col < COLS -> getAvailableRow board col = Some row ->
  fairBoard (dropPiece (cloneBoard board) row col player).
Proof.
  intros [Hwf Hg] Hc Hrow. rewrite cloneBoard_id.
  split; [apply dropPiece_wf; exact Hwf | apply legal_move_gravity; assumption].
Qed.

(** X15.  The worker-pool explorer of the second Go program, on a 6 x 7
    board that satisfies gravity, with a depth that is not negative: it
    returns a forest; when the depth is not 0 and a column is legal the
    forest has one node per legal column, in ascending column order (no
    centre-first ordering, no early exit); and its childless winning nodes
    lie at the end of the same paths as those of the forest of
    [exploreGameTree]. *)
Theorem go2_exploreGameTreeSmart_forest (board : Board) (player : Player) (depth : Z)
    (fuel : nat) :
  wf_board board -> gravity board -> (countEmpty board < fuel)%nat -> 0 <= depth ->
  exists goForest tsForest,
    Go2.exploreGameTreeSmart fuel board player depth = Some goForest /\
    exploreGameTree fuel board player depth = Some tsForest /\
    (depth <> 0 -> getValidColumns board <> [] ->
       map move goForest = getValidColumns board) /\
    forall path who,
      (exists n, reaches goForest path n /\ hit (winOf who) n) <->
      (exists n, reaches tsForest path n /\ hit (winOf who) n).
Proof.
  intros Hwf Hg Hfuel Hd.
  destruct (plain_returns Go2.getValidColumns Go2.exploreGameTreeSmart go2_E_succ
              fuel board player depth Hfuel) as [goForest Hgo].
  destruct (exploreGameTree_returns fuel board player depth Hfuel) as [tsForest Hts].
  exists goForest, tsForest. split; [exact Hgo|]. split; [exact Hts|]. split.
  - intros Hd0 Hcols. destruct fuel as [|fuel]; [discriminate|].
    destruct (plain_cases Go2.getValidColumns Go2.exploreGameTreeSmart fairBoard
                go2_E_succ go2_order_valid _ _ _ _ _ (conj Hwf Hg) Hgo)
      as [[_ [H|H]]|(_ & _ & Hall)].
    + contradiction.
    + rewrite go2_getValidColumns_gravity in H by assumption. contradiction.
    + rewrite <- (go2_getValidColumns_gravity board Hwf Hg).
      eapply nodeFor_move. exact Hall.
  - intros path who. split; intros (n & Hreach & Hhit).
    + destruct (plain_hit_line Go2.getValidColumns Go2.exploreGameTreeSmart fairBoard
                  (fun _ _ _ => eq_refl) go2_E_succ go2_order_valid go2_Inv_move
                  goForest path n Hreach fuel board player who depth (conj Hwf Hg) Hgo Hhit)
        as (Hline & Hwho & Hlen).
      subst who.
      apply (plain_line_hit tsOrder exploreGameTree anyBoard
               (fun _ _ _ => eq_refl) ts_E_succ ts_order_valid ts_Inv_move
               path fuel board player depth tsForest I Hline Hts (Hlen Hd)).
    + destruct (plain_hit_line tsOrder exploreGameTree anyBoard
                  (fun _ _ _ => eq_refl) ts_E_succ ts_order_valid ts_Inv_move
                  tsForest path n Hreach fuel board player who depth I Hts Hhit)
        as (Hline & Hwho & Hlen).
      subst who.
      apply (plain_line_hit Go2.getValidColumns Go2.exploreGameTreeSmart fairBoard
               (fun _ _ _ => eq_refl) go2_E_succ go2_order_valid go2_Inv_move
               path fuel board player depth goForest (conj Hwf Hg) Hline Hgo (Hlen Hd)).
Qed.

Lemma go2_exploreGameTreeSmart_forest_witness :
  exists goForest tsForest,
    Go2.exploreGameTreeSmart 9 lateBoard P1 8 = Some goForest /\
    exploreGameTree 9 lateBoard P1 8 = Some tsForest /\
    (8 <> 0 -> getValidColumns lateBoard <> [] ->
       map move goForest = getValidColumns lateBoard) /\
    forall path who,
      (exists n, reaches goForest path n /\ hit (winOf who) n) <->
      (exists n, reaches tsForest path n /\ hit (winOf who) n).
Proof.
  apply (go2_exploreGameTreeSmart_forest lateBoard P1 8 9).
  - split; [reflexivity | repeat constructor].
  - apply gravityb_sound. vm_compute. reflexivity.
  - vm_compute. lia.
  - lia.
Defined.

(** ** [exploreGameTreeSmart] of the second TypeScript file *)

Section SmartLoopShape.
Variables (rec : Explorer) (board : Board) (player : Player) (depth : Z).

Local Abbreviation kids := (smartKids rec (other player) depth).

(** The loop ends in one of two ways: with the single node of a candidate
    whose outcome is the mover's win, or with one node per candidate, none of
    them a win of the mover. *)
Lemma smartLoop_outcome (cols : list Z) (results res : list GameNode) :
  Forall (fun col => is_Some (getAvailableRow board col)) cols ->
  smartLoop rec board player (other player) depth cols results = Some res ->
  (exists n col, In col cols /\ nodeFor kids board player col n /\
                 outcome n = winOf player /\ res = [n]) \/
  (exists out, res = results ++ out /\ Forall2 (nodeFor kids board player) cols out /\
               Forall (fun n => outcome n <> winOf player) out).
Proof.
  revert results. induction cols as [|col rest IH]; intros results Hvalid Hrun.
  - cbn in Hrun. injection Hrun as <-. right. exists [].
    rewrite app_nil_r. repeat split; constructor.
  - inversion Hvalid as [|? ? [row Hrow] Hrest]; subst.
    cbn [smartLoop] in Hrun. rewrite Hrow in Hrun.
    destruct (isWinningMove (dropPiece (cloneBoard board) row col player) player) eqn:Ewin.
    { injection Hrun as <-. left. exists (winNode col player), col.
      split; [left; reflexivity|]. split; [|split; reflexivity].
      exists row. split; [exact Hrow|]. left. tauto. }
    change (if depth <=? 3
            then Some (shallowReplies (dropPiece (cloneBoard board) row col player)
                         (other player))
            else rec (dropPiece (cloneBoard board) row col player) (other player) (depth - 1))
      with (kids (dropPiece (cloneBoard board) row col player)) in Hrun.
    destruct (kids (dropPiece (cloneBoard board) row col player)) as [ch|] eqn:Ekids;
      [|discriminate].
    assert (Hnode : nodeFor kids board player col (mkNode col (summarizeOutcomes ch player) ch)).
    { exists row. split; [exact Hrow|]. right. split; [exact Ewin|].
      exists ch. split; [exact Ekids | reflexivity]. }
    cbn zeta in Hrun. case_bool_decide as Hdec.
    + injection Hrun as <-. left. exists (mkNode col (summarizeOutcomes ch player) ch), col.
      split; [left; reflexivity|]. split; [exact Hnode|]. split; [exact Hdec | reflexivity].
    + destruct (IH _ Hrest Hrun) as [(n & c & Hc & Hn & Hout & ->)|(out & -> & Hall & Hno)].
      * left. exists n, c. split; [right; exact Hc|]. tauto.
      * right. exists (mkNode col (summarizeOutcomes ch player) ch :: out).
        rewrite <- app_assoc. split; [reflexivity|].
        split; constructor; assumption.
Qed.
End SmartLoopShape.

(** X16.  For every 6 x 7 board, player and integer depth, with more fuel
    than the board has empty cells, [exploreGameTreeSmart] returns a forest
    that is not empty, of one of two kinds: a single node whose outcome is
    the mover's win, or a forest in which no node carries the mover's win
    and which, when the depth is not 0 and a column is legal, has one node
    per legal column in centre-first order.  A mover's win never has
    siblings. *)
Theorem exploreGameTreeSmart_decisive_or_full (board : Board) (player : Player)
    (depth : Z) (fuel : nat) :
  wf_board board -> (countEmpty board < fuel)%nat ->
  exists forest,
    exploreGameTreeSmart fuel board player depth = Some forest /\
    forest <> [] /\
    ((exists n, forest = [n] /\ outcome n = winOf player) \/
     (Forall (fun n => outcome n <> winOf player) forest /\
      (depth <> 0 -> getValidColumns board <> [] ->
         map move forest = sortByCenter (getValidColumns board)))).
Proof.
  intros _ Hfuel.
  destruct (exploreGameTreeSmart_returns fuel board player depth Hfuel) as [forest Hrun].
  exists forest. split; [exact Hrun|].
  destruct fuel as [|fuel]; [discriminate|].
  destruct (terminal_cases board depth) as [Ht|Hnt].
  - rewrite exploreGameTreeSmart_terminal in Hrun by exact Ht. injection Hrun as <-.
    split; [discriminate|]. right. split.
    + constructor; [destruct player; discriminate | constructor].
    + intros Hd Hc. destruct Ht; contradiction.
  - cbn [exploreGameTreeSmart] in Hrun. unfold smartBody in Hrun.
    destruct ((depth =? 0) || _) eqn:Et; [apply terminal_test in Et; contradiction|].
    apply smartLoop_outcome in Hrun; [|apply candidates_valid].
    destruct Hrun as [(n & c & _ & _ & Hout & ->)|(out & -> & Hall & Hno)].
    + split; [discriminate|]. left. exists n. tauto.
    + cbn [app]. split.
      * intros ->. apply Forall2_same_length in Hall. rewrite length_sortByCenter in Hall.
        destruct (getValidColumns board) eqn:E; [|discriminate].
        apply Hnt. right. exact E.
      * right. split; [exact Hno|]. intros _ _. eapply nodeFor_move. exact Hall.
Qed.

Lemma exploreGameTreeSmart_decisive_or_full_witness :
  exists forest,
    exploreGameTreeSmart 43 createBoard P1 (-2) = Some forest /\
    forest <> [] /\
    ((exists n, forest = [n] /\ outcome n = winOf P1) \/
     (Forall (fun n => outcome n <> winOf P1) forest /\
      (-2 <> 0 -> getValidColumns createBoard <> [] ->
         map move forest = sortByCenter (getValidColumns createBoard)))).
Proof.
  apply (exploreGameTreeSmart_decisive_or_full createBoard P1 (-2) 43).
  - exact wf_board_createBoard.
  - vm_compute. lia.
Defined.

Lemma smartLoop_shallow (rec rec' : Explorer) (board : Board) (player opponent : Player)
    (depth depth' : Z) (cols : list Z) :
  depth <= 3 -> depth' <= 3 ->
  forall results,
    smartLoop rec board player opponent depth cols results =
    smartLoop rec' board player opponent depth' cols results.
Proof.
  intros Hd Hd'. induction cols as [|col rest IH]; intros results; [reflexivity|].
  cbn [smartLoop]. destruct (getAvailableRow board col) as [row|]; [|apply IH].
  destruct (isWinningMove _ player); [reflexivity|].
  replace (depth <=? 3) with true by (symmetry; apply Z.leb_le; exact Hd).
  replace (depth' <=? 3) with true by (symmetry; apply Z.leb_le; exact Hd').
  cbn zeta. case_bool_decide; [reflexivity | apply IH].
Qed.

(** X17.  For [exploreGameTreeSmart] every depth up to 3 other than 0,
    negative ones included, is the same budget: the result is the one of
    depth 1, a forest of at most two levels in which the replies of the
    opponent are never expanded.  (With depth 1 the explorer thus looks one
    ply further than [exploreGameTree] does, with depth 3 one ply less.) *)
Theorem exploreGameTreeSmart_shallow_budget (board : Board) (player : Player)
    (depth : Z) (fuel : nat) :
  wf_board board -> (0 < fuel)%nat -> depth <> 0 -> depth <= 3 ->
  exploreGameTreeSmart fuel board player depth = exploreGameTreeSmart 1 board player 1 /\
  forall forest path n,
    exploreGameTreeSmart fuel board player depth = Some forest ->
    reaches forest path n -> (length path <= 2)%nat.
Proof.
  intros _ Hfuel Hd Hle. destruct fuel as [|fuel]; [lia|].
  assert (Heq : exploreGameTreeSmart (S fuel) board player depth =
                exploreGameTreeSmart 1 board player 1).
  { cbn [exploreGameTreeSmart]. unfold smartBody. cbv zeta.
    replace (depth =? 0) with false by (symmetry; apply Z.eqb_neq; exact Hd).
    cbn [orb Z.eqb]. destruct (length _ =? 0)%nat; [reflexivity|].
    apply smartLoop_shallow; lia. }
  split; [exact Heq|]. intros forest path n Hrun Hreach.
  destruct (terminal_cases board depth) as [Ht|Hnt].
  { rewrite exploreGameTreeSmart_terminal in Hrun by exact Ht. injection Hrun as <-.
    inversion Hreach as [? ? Hin|? m ? ? Hin Hbelow]; subst; [cbn; lia|].
    destruct Hin as [<-|[]]. exfalso. eapply reaches_nil. exact Hbelow. }
  inversion Hreach as [? ? Hin|? m p' ? Hin Hbelow]; subst; [cbn; lia|].
  destruct (exploreGameTreeSmart_members _ _ _ _ _ Hnt Hrun m Hin)
    as (col & row & _ & Hnode).
  cbn zeta in Hnode. destruct Hnode as [[_ ->]|[_ (next & Hnext & ->)]].
  { exfalso. eapply reaches_nil. exact Hbelow. }
  unfold smartKids in Hnext.
  replace (depth <=? 3) with true in Hnext by (symmetry; apply Z.leb_le; exact Hle).
  injection Hnext as <-. cbn [children] in Hbelow.
  inversion Hbelow as [? ? Hin'|? m' p'' ? Hin' Hbelow']; subst; [cbn; lia|].
  apply shallowReplies_leaves in Hin'. rewrite Hin' in Hbelow'.
  exfalso. eapply reaches_nil. exact Hbelow'.
Qed.

Lemma exploreGameTreeSmart_shallow_budget_witness :
  exploreGameTreeSmart 5 threeInRow P2 (-4) = exploreGameTreeSmart 1 threeInRow P2 1 /\
  forall forest path n,
    exploreGameTreeSmart 5 threeInRow P2 (-4) = Some forest ->
    reaches forest path n -> (length path <= 2)%nat.
Proof.
  apply (exploreGameTreeSmart_shallow_budget threeInRow P2 (-4) 5).
  - split; [reflexivity | repeat constructor].
  - lia.
  - lia.
  - lia.
Defined.

Lemma last_cell_unique (board : Board) (r c r' c' : Z) :
  countEmpty board = 1%nat ->
  cellAt board r c = Some Empty -> cellAt board r' c' = Some Empty ->
  (r, c) = (r', c').
Proof.
  intros Hone He He'. destruct (decide ((r, c) = (r', c'))) as [Heq|Hne]; [exact Heq|].
  exfalso. pose proof (countEmpty_dropPiece board r c P1 He) as H1.
  assert (He2 : cellAt (dropPiece board r c P1) r' c' = Some Empty).
  { rewrite cellAt_dropPiece_other; [exact He'|]. congruence. }
  pose proof (countEmpty_dropPiece (dropPiece board r c P1) r' c' P1 He2) as H2. lia.
Qed.

Lemma last_cell_columns (board : Board) (col row : Z) :
  countEmpty board = 1%nat -> 0 <= col < COLS ->
  getAvailableRow board col = Some row ->
  getValidColumns board = [col].
Proof.
  intros Hone Hcol Hrow.
  assert (Hall : forall c, In c (getValidColumns board) -> c = col).
  { intros c Hc. apply In_getValidColumns in Hc. destruct Hc as [_ [r Hr]].
    apply getAvailableRow_Some in Hr. apply getAvailableRow_Some in Hrow.
    assert (Heq : (r, c) = (row, col)) by (apply (last_cell_unique board); tauto).
    congruence. }
  assert (Hin : In col (getValidColumns board)).
  { apply In_getValidColumns. split; [exact Hcol | eexists; exact Hrow]. }
  assert (Hsorted : StronglySorted Z.lt (getValidColumns board)).
  { unfold getValidColumns. apply StronglySorted_filter_lt.
    apply (StronglySorted_seqZ_from 7 0). }
  destruct (getValidColumns board) as [|x l]; [destruct Hin|].
  assert (x = col) by (apply Hall; left; reflexivity). subst x.
  destruct l as [|y l]; [reflexivity|]. exfalso.
  assert (y = col) by (apply Hall; right; left; reflexivity). subst y.
  inversion Hsorted as [|? ? _ Hlt]; subst. inversion Hlt as [|? ? Hc _]; subst. lia.
Qed.

(** X18.  The move that fills the board.  On a 6 x 7 board with one empty
    cell, when the placement in that cell does not win and the depth is not
    0: [exploreGameTree] classifies the move as [DRAW], with the sentinel as
    only child; [exploreGameTreeSmart], for a depth up to 3, gives the move
    no children and, [every] being true of an empty list, the outcome "win of
    the opponent", so that the extractor asked for the opponent's win returns
    this move although nobody has a line of four. *)
Theorem board_filling_move (board : Board) (player : Player) (depth col row : Z)
    (fuel : nat) :
  wf_board board -> countEmpty board = 1%nat -> 0 <= col < COLS ->
  getAvailableRow board col = Some row ->
  isWinningMove (dropPiece (cloneBoard board) row col player) player = false ->
  depth <> 0 ->
  exploreGameTree (S (S fuel)) board player depth = Some [mkNode col DRAW [sentinel]] /\
  (depth <= 3 ->
   exploreGameTreeSmart (S fuel) board player depth = Some [mkNode col (loseOf player) []] /\
   findShortestWinningPath [mkNode col (loseOf player) []] (winOf (other player))
   = Some [col] /\
   isWinningMove (dropPiece (cloneBoard board) row col player) (other player) =
   isWinningMove board (other player)).
Proof.
  intros Hwf Hone Hcol Hrow Hnowin Hd.
  pose proof (last_cell_columns board col row Hone Hcol Hrow) as Hcols.
  assert (Hfull : getValidColumns (dropPiece (cloneBoard board) row col player) = []).
  { pose proof (countEmpty_move board col row player Hrow) as Hlt.
    destruct (countEmpty_zero_terminal (dropPiece (cloneBoard board) row col player) 1)
      as [H|H]; [lia | discriminate | exact H]. }
  split.
  - cbn [exploreGameTree]. unfold exploreBody at 1. cbv zeta. rewrite Hcols.
    replace (depth =? 0) with false by (symmetry; apply Z.eqb_neq; exact Hd).
    cbn [sortByCenter foldr insertByCenter length Nat.eqb orb exploreLoop].
    rewrite Hrow, Hnowin.
    change (exploreBody (exploreGameTree fuel)) with (exploreGameTree (S fuel)).
    rewrite exploreGameTree_terminal by (right; exact Hfull).
    destruct player; reflexivity.
  - intros Hle. split; [|split].
    + cbn [exploreGameTreeSmart]. unfold smartBody. cbv zeta. rewrite Hcols.
      replace (depth =? 0) with false by (symmetry; apply Z.eqb_neq; exact Hd).
      cbn [sortByCenter foldr insertByCenter length Nat.eqb orb smartLoop].
      rewrite Hrow, Hnowin.
      replace (depth <=? 3) with true by (symmetry; apply Z.leb_le; exact Hle).
      unfold shallowReplies. rewrite Hfull. cbn [omap]. cbv zeta.
      destruct player; reflexivity.
    + destruct player; reflexivity.
    + rewrite cloneBoard_id. apply getAvailableRow_Some in Hrow.
      destruct Hrow as (Hr & He & _).
      destruct (isWinningMove (dropPiece board row col player) (other player)) eqn:Ea.
      * symmetry. apply isWinningMove_bounded_run in Ea.
        destruct Ea as (r & c & dr & dc & Hdir & Hrun).
        apply (run_isWinningMove board (other player) r c dr dc Hdir).
        intros i Hi. destruct (Hrun i Hi) as [Hb Hcell]. split; [exact Hb|].
        rewrite dropPiece_read_back_cell in Hcell by assumption.
        destruct (decide ((r + dr * i, c + dc * i) = (row, col))) as [_|_]; [|exact Hcell].
        injection Hcell as Hp. destruct player; discriminate Hp.
      * destruct (isWinningMove board (other player)) eqn:Eb; [|reflexivity].
        exfalso. apply isWinningMove_bounded_run in Eb.
        destruct Eb as (r & c & dr & dc & Hdir & Hrun).
        assert (Hw : isWinningMove (dropPiece board row col player) (other player) = true).
        { apply (run_isWinningMove _ (other player) r c dr dc Hdir).
          intros i Hi. destruct (Hrun i Hi) as [Hb Hcell]. split; [exact Hb|].
          rewrite cellAt_dropPiece_other; [exact Hcell|].
          intros [= E1 E2]. rewrite E1, E2 in Hcell. congruence. }
        congruence.
Qed.

Lemma board_filling_move_witness :
  exploreGameTree 2 lastCellBoard P2 3 = Some [mkNode 0 DRAW [sentinel]] /\
  (3 <= 3 ->
   exploreGameTreeSmart 1 lastCellBoard P2 3 = Some [mkNode 0 (loseOf P2) []] /\
   findShortestWinningPath [mkNode 0 (loseOf P2) []] (winOf (other P2)) = Some [0] /\
   isWinningMove (dropPiece (cloneBoard lastCellBoard) 0 0 P2) (other P2) =
   isWinningMove lastCellBoard (other P2)).
Proof.
  apply (board_filling_move lastCellBoard P2 3 0 0 0%nat).
  - split; [reflexivity | repeat constructor].
  - reflexivity.
  - vm_compute. split; [discriminate | reflexivity].
  - reflexivity.
  - vm_compute. reflexivity.
  - lia.
Defined.

(** ** Random self-play: [simulateGame] *)

Lemma marksInRow_place (q p : Player) (row : list Cell) (i : nat) :
  row !! i = Some Empty ->
  marksInRow q (<[i := Mark p]> row) =
  (marksInRow q row + (if decide (q = p) then 1 else 0))%nat.
Proof.
  unfold marksInRow. revert i. induction row as [|x row IH]; intros i Hi; [discriminate|].
  destruct i as [|i]; cbn in Hi |- *.
  - injection Hi as ->.
    destruct (decide (Empty = Mark q)) as [Heq|_]; [discriminate Heq|].
    destruct (decide (Mark p = Mark q)) as [Heq|Hne]; destruct (decide (q = p)) as [Hqp|Hqp];
      cbn; try lia; congruence.
  - specialize (IH i Hi). destruct (decide (x = Mark q)); cbn; [f_equal|]; exact IH.
Qed.

Lemma countMarks_place (q p : Player) (board : Board) (row col : Z) :
  cellAt board row col = Some Empty ->
  countMarks q (dropPiece board row col p) =
  (countMarks q board + (if decide (q = p) then 1 else 0))%nat.
Proof.
  unfold cellAt, dropPiece, countMarks.
  destruct ((0 <=? row) && (0 <=? col)); [|discriminate].
  generalize (Z.to_nat row) as i. generalize (Z.to_nat col) as j. intros j.
  induction board as [|r0 board IH]; intros i Hc; [discriminate|].
  destruct i as [|i]; simpl in Hc |- *.
  - pose proof (marksInRow_place q p r0 j Hc) as H. unfold fmap in *.
    destruct (decide (q = p)); lia.
  - specialize (IH i Hc). unfold fmap, alter in IH. destruct (decide (q = p)); lia.
Qed.

Lemma getValidColumns_nonempty (board : Board) :
  wf_board board -> (0 < countEmpty board)%nat -> getValidColumns board <> [].
Proof.
  intros Hwf Hpos Hnil.
  destruct (countEmpty_pos_cell board Hwf Hpos) as (r & c & Hr & Hc & He).
  assert (Hin : In c (getValidColumns board)).
  { apply In_getValidColumns. split; [exact Hc|]. apply valid_iff_some_empty. eauto. }
  rewrite Hnil in Hin. exact Hin.
Qed.

(** The loop, for any mover and any number of draws already made. *)
Lemma simulateLoop_legal (random : nat -> nat -> nat) :
  (forall k n, (0 < n)%nat -> (random k n < n)%nat) ->
  forall (moves k : nat) (board : Board) (p : Player),
    wf_board board -> gravity board ->
    let final := simulateLoop random k board p moves in
    let placed := Nat.min moves (countEmpty board) in
    wf_board final /\ gravity final /\
    (countEmpty final + placed = countEmpty board)%nat /\
    countMarks p final = (countMarks p board + (placed + 1) / 2)%nat /\
    countMarks (other p) final = (countMarks (other p) board + placed / 2)%nat /\
    (forall r c, occupied board r c -> cellAt final r c = cellAt board r c).
Proof.
  intros Hrand. induction moves as [|moves IH]; intros k board p Hwf Hg; cbv zeta.
  - cbn [simulateLoop Nat.min]. change ((0 + 1) / 2)%nat with 0%nat.
    change (0 / 2)%nat with 0%nat. repeat split; try assumption; try lia; apply Hwf.
  - cbn [simulateLoop]. cbv zeta.
    destruct (countEmpty board) as [|e] eqn:Ee.
    + destruct (countEmpty_zero_terminal board 1 Ee) as [H|H]; [discriminate|].
      rewrite H. cbn [length Nat.eqb Nat.min]. rewrite Ee.
      change ((0 + 1) / 2)%nat with 0%nat. change (0 / 2)%nat with 0%nat.
      repeat split; try assumption; try lia; apply Hwf.
    + pose proof (getValidColumns_nonempty board Hwf ltac:(lia)) as Hne.
      destruct (getValidColumns board) as [|c0 cs] eqn:Ecols; [congruence|].
      cbn [length Nat.eqb].
      destruct (lookup_lt_is_Some_2 (c0 :: cs) (random k (S (length cs)))) as [col Hcol].
      { cbn [length]. apply Hrand. lia. }
      rewrite Hcol.
      assert (Hin : In col (getValidColumns board)).
      { rewrite Ecols. apply list_elem_of_In. eapply list_elem_of_lookup_2. exact Hcol. }
      apply In_getValidColumns in Hin. destruct Hin as [Hc [row Hrow]]. rewrite Hrow.
      pose proof (getAvailableRow_Some board col row Hrow) as (Hr & He & _).
      pose proof (countEmpty_dropPiece board row col p He) as Hcount.
      destruct (IH (S k) (dropPiece board row col p) (other p)
                  (dropPiece_wf board row col p Hwf)
                  (legal_move_gravity board col row p Hwf Hg Hc Hrow))
        as (Hwf' & Hg' & Hce & Hm1 & Hm2 & Hkeep).
      rewrite other_involutive in Hm2.
      rewrite (countMarks_place (other p) p board row col He) in Hm1.
      rewrite (countMarks_place p p board row col He) in Hm2.
      destruct (decide (other p = p)) as [Hop|_]; [destruct p; discriminate Hop|].
      destruct (decide (p = p)) as [_|Hpp]; [|congruence].
      assert (He' : countEmpty (dropPiece board row col p) = e) by lia.
      rewrite He' in *. cbn [Nat.min].
      split; [exact Hwf'|]. split; [exact Hg'|]. split; [lia|].
      split; [rewrite Hm2|split; [rewrite Hm1|]].
      * pose proof (Nat.div_mod_eq (Nat.min moves e) 2).
        pose proof (Nat.div_mod_eq (S (Nat.min moves e) + 1) 2).
        pose proof (Nat.mod_upper_bound (Nat.min moves e) 2).
        pose proof (Nat.mod_upper_bound (S (Nat.min moves e) + 1) 2). lia.
      * pose proof (Nat.div_mod_eq (Nat.min moves e + 1) 2).
        pose proof (Nat.div_mod_eq (S (Nat.min moves e)) 2).
        pose proof (Nat.mod_upper_bound (Nat.min moves e + 1) 2).
        pose proof (Nat.mod_upper_bound (S (Nat.min moves e)) 2). lia.
      * intros r c Hocc. rewrite Hkeep.
        -- apply cellAt_dropPiece_other. intros [= -> ->].
           apply occupied_not_empty in Hocc. contradiction.
        -- apply occupied_dropPiece; [exact Hwf | exact Hr | exact Hc | right; exact Hocc].
Qed.

(** X19.  [simulateGame] turns a legal position into a legal position,
    whatever the random draws are (each draw an index into the list of
    valid columns): the result has the 6 x 7 shape and no mark above an
    empty cell; with [placed] the smaller of [moves] and the number of empty
    cells, exactly [placed] cells have been filled, alternately by player 1
    (who starts) and player 2; and every cell that was occupied keeps its
    mark. *)
Theorem simulateGame_legal_position (random : nat -> nat -> nat) (board : Board)
    (moves : Z) :
  wf_board board -> gravity board ->
  (forall k n, (0 < n)%nat -> (random k n < n)%nat) ->
  let final := simulateGame random board moves in
  let placed := Nat.min (Z.to_nat moves) (countEmpty board) in
  wf_board final /\ gravity final /\
  (countEmpty final + placed = countEmpty board)%nat /\
  countMarks P1 final = (countMarks P1 board + (placed + 1) / 2)%nat /\
  countMarks P2 final = (countMarks P2 board + placed / 2)%nat /\
  (forall r c, occupied board r c -> cellAt final r c = cellAt board r c).
Proof.
  intros Hwf Hg Hrand.
  exact (simulateLoop_legal random Hrand (Z.to_nat moves) 0%nat board P1 Hwf Hg).
Qed.

Lemma simulateGame_legal_position_witness :
  let final := simulateGame (fun k n => (k mod n)%nat) threeInRow 5 in
  wf_board final /\ gravity final /\
  (countEmpty final + 5 = countEmpty threeInRow)%nat /\
  countMarks P1 final = (countMarks P1 threeInRow + 3)%nat /\
  countMarks P2 final = (countMarks P2 threeInRow + 2)%nat /\
  (forall r c, occupied threeInRow r c -> cellAt final r c = cellAt threeInRow r c).
Proof.
  apply (simulateGame_legal_position (fun k n => (k mod n)%nat) threeInRow 5).
  - split; [reflexivity | repeat constructor].
  - apply gravityb_sound. vm_compute. reflexivity.
  - intros k n Hn. apply Nat.mod_upper_bound. lia.
Defined.

(** X20.  From the empty board, as in the script, at most 6 simulated moves
    never produce a line of four, whatever the draws: the board handed to
    the explorer has no winner, and its marks are those of [moves]
    alternating placements started by player 1. *)
Theorem simulateGame_opening_no_winner (random : nat -> nat -> nat) (moves : Z) :
  (forall k n, (0 < n)%nat -> (random k n < n)%nat) ->
  0 <= moves <= 6 ->
  let final := simulateGame random createBoard moves in
  isWinningMove final P1 = false /\ isWinningMove final P2 = false /\
  countMarks P1 final = Z.to_nat ((moves + 1) / 2) /\
  countMarks P2 final = Z.to_nat (moves / 2) /\
  countEmpty final = Z.to_nat (42 - moves).
Proof.
  intros Hrand Hm final.
  assert (Hg : gravity createBoard) by (apply gravityb_sound; vm_compute; reflexivity).
  pose proof (simulateLoop_legal random Hrand (Z.to_nat moves) 0%nat createBoard P1
                wf_board_createBoard Hg) as H.
  cbv zeta in H. fold (simulateGame random createBoard moves) in H. fold final in H.
  change (countEmpty createBoard) with 42%nat in H.
  change (countMarks P1 createBoard) with 0%nat in H.
  change (countMarks (other P1) createBoard) with 0%nat in H.
  change (other P1) with P2 in H.
  rewrite Nat.min_l in H by lia.
  destruct H as (_ & _ & He & H1 & H2 & _).
  assert (Hn1 : ((Z.to_nat moves + 1) / 2)%nat = Z.to_nat ((moves + 1) / 2)).
  { rewrite Z2Nat.inj_div, Z2Nat.inj_add by lia. reflexivity. }
  assert (Hn2 : (Z.to_nat moves / 2)%nat = Z.to_nat (moves / 2)).
  { rewrite Z2Nat.inj_div by lia. reflexivity. }
  rewrite Hn1 in H1. rewrite Hn2 in H2. cbn [Nat.add] in H1, H2.
  assert (Hb1 : (moves + 1) / 2 < 4) by (apply Z.div_lt_upper_bound; lia).
  assert (Hb2 : moves / 2 < 4) by (apply Z.div_lt_upper_bound; lia).
  split; [|split; [|split; [exact H1 | split; [exact H2 | lia]]]].
  - destruct (isWinningMove final P1) eqn:E; [|reflexivity].
    apply win_needs_four_marks in E. lia.
  - destruct (isWinningMove final P2) eqn:E; [|reflexivity].
    apply win_needs_four_marks in E. lia.
Qed.

Lemma simulateGame_opening_no_winner_witness :
  let final := simulateGame (fun k n => (k mod n)%nat) createBoard 6 in
  isWinningMove final P1 = false /\ isWinningMove final P2 = false /\
  countMarks P1 final = 3%nat /\ countMarks P2 final = 3%nat /\
  countEmpty final = 36%nat.
Proof.
  apply (simulateGame_opening_no_winner (fun k n => (k mod n)%nat) 6).
  - intros k n Hn. apply Nat.mod_upper_bound. lia.
  - lia.
Defined.

(** ** The stack-based extractor: what it still guarantees *)

Lemma backed_elems_length (h : list (list Z)) (s : Go2.slice) :
  backed h s -> length (Go2.elems h s) = Go2.len s.
Proof.
  intros [Hle Hb]. unfold Go2.elems. rewrite length_take.
  destruct (Go2.cap s) as [|c] eqn:E; [lia|].
  destruct Hb as (a & Ha & Hl); [lia|]. rewrite Ha. cbn. lia.
Qed.

Lemma nextCap_ge (oldCap newLen : nat) : (newLen <= Go2.nextCap oldCap newLen)%nat.
Proof.
  unfold Go2.nextCap. destruct (Nat.ltb_spec (oldCap + oldCap) newLen); lia.
Qed.

(** [append]: the new slice shows the old elements followed by [x], and
    every backed slice stays backed (its elements may change). *)
Lemma append_spec (h : list (list Z)) (s : Go2.slice) (x : Z) :
  backed h s ->
  backed (Go2.append h s x).1 (Go2.append h s x).2 /\
  Go2.len (Go2.append h s x).2 = S (Go2.len s) /\
  Go2.elems (Go2.append h s x).1 (Go2.append h s x).2 = Go2.elems h s ++ [x] /\
  (forall t, backed h t -> backed (Go2.append h s x).1 t).
Proof.
  intros Hs. pose proof (backed_elems_length h s Hs) as Hlen.
  destruct Hs as [Hle Hb]. unfold Go2.append.
  destruct (Nat.ltb_spec (Go2.len s) (Go2.cap s)) as [Hlt|Hge]; cbn [fst snd].
  - destruct Hb as (a & Ha & Hl); [lia|].
    split; [|split; [reflexivity|split]].
    + split; cbn [Go2.len Go2.cap Go2.arr]; [lia|]. intros _.
      exists (<[Go2.len s := x]> a). rewrite list_lookup_alter_eq, Ha.
      split; [reflexivity|]. rewrite length_insert. exact Hl.
    + unfold Go2.elems. cbn [Go2.len Go2.arr]. rewrite list_lookup_alter_eq, Ha.
      cbn.
      rewrite (take_S_r _ _ x) by (apply list_lookup_insert_eq; lia).
      rewrite take_insert_ge by lia. reflexivity.
    + intros t [Htle Htb]. split; [exact Htle|]. intros Hc.
      destruct (Htb Hc) as (b & Hbt & Hbl).
      destruct (decide (Go2.arr s = Go2.arr t)) as [Heq|Hne].
      * rewrite <- Heq in *. rewrite list_lookup_alter_eq, Hbt.
        eexists. split; [reflexivity|]. rewrite length_insert. exact Hbl.
      * rewrite list_lookup_alter_ne by exact Hne. eauto.
  - pose proof (nextCap_ge (Go2.cap s) (S (Go2.len s))) as Hcap.
    split; [|split; [reflexivity|split]].
    + split; cbn [Go2.len Go2.cap Go2.arr]; [exact Hcap|]. intros _.
      eexists. split; [apply list_lookup_middle; reflexivity|].
      rewrite length_app. cbn [length]. rewrite length_replicate, Hlen. lia.
    + unfold Go2.elems at 1. cbn [Go2.len Go2.arr].
      rewrite list_lookup_middle by reflexivity. cbn.
      rewrite (cons_middle x), app_assoc.
      apply take_app_length'. rewrite length_app, Hlen. cbn [length]. lia.
    + intros t [Htle Htb]. split; [exact Htle|]. intros Hc.
      destruct (Htb Hc) as (b & Hbt & Hbl). exists b. split; [|exact Hbl].
      rewrite lookup_app_l; [exact Hbt|]. eapply lookup_lt_Some. exact Hbt.
Qed.

Lemma reaches_cons (x : GameNode) (l : list GameNode) (q : list Z) (n : GameNode) :
  reaches (x :: l) q n <->
  (q = [move x] /\ n = x) \/
  (exists q', q = move x :: q' /\ reaches (children x) q' n) \/
  reaches l q n.
Proof.
  split.
  - intros H. inversion H as [? ? Hin | ? m q' ? Hin Hbelow]; subst.
    + destruct Hin as [<-|Hin]; [left; tauto|]. right. right. constructor. exact Hin.
    + destruct Hin as [<-|Hin]; [right; left; eauto|]. right. right.
      apply reaches_below; assumption.
  - intros [[-> ->]|[(q' & -> & H)|H]].
    + constructor. left. reflexivity.
    + apply reaches_below; [left; reflexivity | exact H].
    + inversion H as [? ? Hin | ? m q' ? Hin Hbelow]; subst.
      * constructor. right. exact Hin.
      * apply reaches_below; [right; exact Hin | exact Hbelow].
Qed.

Lemma sameShortest_refl (P : nat -> Z -> Prop) : sameShortest P P.
Proof. split; [tauto|]. intros L m H. exists L, m. split; [lia | exact H]. Qed.

Lemma sameShortest_trans (P Q R : nat -> Z -> Prop) :
  sameShortest P Q -> sameShortest Q R -> sameShortest P R.
Proof.
  intros [H1 H2] [H3 H4]. split; [intros L m H; apply H1, H3, H|].
  intros L m H. destruct (H2 L m H) as (L1 & m1 & Hle1 & HQ).
  destruct (H4 L1 m1 HQ) as (L2 & m2 & Hle2 & HR). exists L2, m2. split; [lia | exact HR].
Qed.

Lemma shortestOf_sameShortest (P Q : nat -> Z -> Prop) (r : option (list Z)) :
  sameShortest P Q -> shortestOf Q r -> shortestOf P r.
Proof.
  intros [H1 H2]. destruct r as [p|]; cbn [shortestOf].
  - intros [(m & Hlast & HQ) Hmin]. split; [exists m; split; [exact Hlast | apply H1, HQ]|].
    intros L m' HP. destruct (H2 L m' HP) as (L' & m'' & Hle & HQ').
    specialize (Hmin L' m'' HQ'). lia.
  - intros Hno L m HP. destruct (H2 L m HP) as (L' & m' & _ & HQ). exact (Hno L' m' HQ).
Qed.

Section StackExtractor.
Variable target : GameOutcome.

(** One iteration of the inner loop keeps the invariants and the shortest
    length in sight, and pushes at most the weight of the node. *)
Lemma visit_step (it : Go2.item) (st : Go2.state) (x : GameNode) (l : list GameNode) :
  backed (Go2.mem st) (Go2.path it) -> stackInv st ->
  backed (Go2.mem (Go2.visit target it st x)) (Go2.path it) /\
  stackInv (Go2.visit target it st x) /\
  sameShortest
    (goCandidate target (Go2.stack st) (Go2.shortest st)
       (Go2.len (Go2.path it)) (x :: l))
    (goCandidate target (Go2.stack (Go2.visit target it st x))
       (Go2.shortest (Go2.visit target it st x)) (Go2.len (Go2.path it)) l) /\
  (stackWeight (Go2.stack (Go2.visit target it st x))
   <= stackWeight (Go2.stack st) + nodeCount x)%nat.
Proof.
  intros Hit [Hstack Hshort].
  destruct (append_spec (Go2.mem st) (Go2.path it) (move x) Hit)
    as (Hnew & Hlen & Helems & Hframe).
  pose proof (backed_elems_length _ _ Hnew) as Hnl. rewrite Hlen in Hnl.
  unfold Go2.visit.
  destruct (Go2.append (Go2.mem st) (Go2.path it) (move x)) as [h newPath].
  cbn [fst snd] in *.
  destruct x as [mv oc ch]. cbn [move outcome children nodeCount] in *.
  pose proof (hit_test target mv oc ch) as Htest.
  set (d := Go2.len (Go2.path it)) in *.
  assert (Hlast : list.last (Go2.elems h newPath) = Some mv).
  { rewrite Helems. apply last_snoc. }
  assert (Hne : Go2.elems h newPath <> []).
  { rewrite Helems. intros H. apply app_eq_nil in H. destruct H as [_ H]. discriminate H. }
  destruct (bool_decide (oc = target) && (length ch =? 0)%nat) eqn:Et.
  - assert (Hh : hit target (mkNode mv oc ch)) by (apply Htest; reflexivity).
    assert (Hch : ch = []) by (apply Hh).
    assert (Hcase :
      forall sh', (sh' = Some (Go2.elems h newPath) /\
                   (forall s, Go2.shortest st = Some s -> (S d < length s)%nat)) \/
                  (sh' = Go2.shortest st /\
                   exists s, Go2.shortest st = Some s /\ (length s <= S d)%nat) ->
        backed (Go2.mem (Go2.mkState h (Go2.stack st) sh')) (Go2.path it) /\
        stackInv (Go2.mkState h (Go2.stack st) sh') /\
        sameShortest
          (goCandidate target (Go2.stack st) (Go2.shortest st) d (mkNode mv oc ch :: l))
          (goCandidate target (Go2.stack st) sh' d l) /\
        (stackWeight (Go2.stack st)
         <= stackWeight (Go2.stack st) + S (sum_list (map nodeCount ch)))%nat).
    { intros sh' Hsh. cbn [Go2.mem Go2.stack Go2.shortest].
      split; [apply Hframe; exact Hit|]. split; [|split; [|lia]].
      - split; cbn [Go2.mem Go2.stack Go2.shortest].
        + intros it' Hin. apply Hframe, Hstack, Hin.
        + intros s Hs. destruct Hsh as [[-> _]|[-> _]].
          * injection Hs as <-. exact Hne.
          * apply Hshort. exact Hs.
      - split.
        + intros L m [(s & Hs & HL & Hm)|[Hst|(q & n & Hr & Hn & HL & Hm)]].
          * destruct Hsh as [[-> _]|[-> _]].
            -- injection Hs as <-. right. right.
               exists [mv], (mkNode mv oc ch). rewrite Hlast in Hm. injection Hm as <-.
               split; [apply reaches_cons; left; tauto|]. split; [exact Hh|].
               cbn [length move]. split; [lia | reflexivity].
            -- left. eauto.
          * right. left. exact Hst.
          * right. right. exists q, n. split; [apply reaches_cons; tauto | tauto].
        + intros L m [(s & Hs & HL & Hm)|[Hst|(q & n & Hr & Hn & HL & Hm)]].
          * destruct Hsh as [[-> Hlt]|[-> _]].
            -- exists (S d), mv. specialize (Hlt s Hs). split; [lia|]. left. eauto.
            -- exists L, m. split; [lia|]. left. eauto.
          * exists L, m. split; [lia|]. right. left. exact Hst.
          * apply reaches_cons in Hr. cbn [move children] in Hr.
            destruct Hr as [[-> ->]|[(q' & -> & Hbelow)|Hr]].
            -- cbn [length] in HL. destruct Hsh as [[-> _]|[-> (s & Hs & Hsl)]].
               ++ exists (S d), mv. split; [lia|]. left. eauto.
               ++ destruct (list.last s) as [ms|] eqn:Els.
                  ** exists (length s), ms. split; [lia|]. left. eauto.
                  ** exfalso. apply (Hshort s Hs). apply last_None. exact Els.
            -- rewrite Hch in Hbelow. exfalso. eapply reaches_nil. exact Hbelow.
            -- exists L, m. split; [lia|]. right. right. exists q, n. tauto. }
    destruct (Go2.shortest st) as [s|] eqn:Es.
    + destruct (Nat.ltb_spec (Go2.len newPath) (length s)) as [Hlt|Hge].
      * apply Hcase. left. split; [reflexivity|]. intros s' [= <-]. lia.
      * apply Hcase. right. split; [reflexivity|]. exists s. split; [reflexivity | lia].
    + apply Hcase. left. split; [reflexivity|]. discriminate.
  - assert (Hnh : ~ hit target (mkNode mv oc ch)).
    { intros Hh. apply Htest in Hh. discriminate Hh. }
    destruct ch as [|c ch].
    + cbn [length Nat.ltb Nat.leb Go2.mem Go2.stack Go2.shortest map sum_list].
      split; [apply Hframe; exact Hit|]. split; [|split; [|lia]].
      * split; cbn [Go2.mem Go2.stack Go2.shortest]; [|exact Hshort].
        intros it' Hin. apply Hframe, Hstack, Hin.
      * split.
        -- intros L m [Hs|[Hst|(q & n & Hr & Hrest)]]; [left; exact Hs | right; left; exact Hst |].
           right. right. exists q, n. split; [apply reaches_cons; tauto | exact Hrest].
        -- intros L m [Hs|[Hst|(q & n & Hr & Hn & HL & Hm)]].
           ++ exists L, m. split; [lia|]. left. exact Hs.
           ++ exists L, m. split; [lia|]. right. left. exact Hst.
           ++ apply reaches_cons in Hr. cbn [move children] in Hr.
              destruct Hr as [[-> ->]|[(q' & -> & Hbelow)|Hr]].
              ** contradiction.
              ** exfalso. eapply reaches_nil. exact Hbelow.
              ** exists L, m. split; [lia|]. right. right. exists q, n. tauto.
    + change (0 <? length (c :: ch))%nat with true. cbv iota.
      cbn [Go2.mem Go2.stack Go2.shortest].
      split; [apply Hframe; exact Hit|]. split; [|split].
      * split; cbn [Go2.mem Go2.stack Go2.shortest]; [|exact Hshort].
        intros it' [<-|Hin]; [exact Hnew | apply Hframe, Hstack, Hin].
      * split.
        -- intros L m [Hs|[(it' & q & n & Hin & Hr & Hn & HL & Hm)|(q & n & Hr & Hrest)]].
           ++ left. exact Hs.
           ++ destruct Hin as [<-|Hin].
              ** cbn [Go2.nodes Go2.path] in *. right. right.
                 exists (mv :: q), n. split.
                 { apply reaches_cons. right. left. eauto. }
                 split; [exact Hn|]. cbn [length]. split; [lia | exact Hm].
              ** right. left. exists it', q, n. tauto.
           ++ right. right. exists q, n. split; [apply reaches_cons; tauto | exact Hrest].
        -- intros L m [Hs|[(it' & q & n & Hin & Hrest)|(q & n & Hr & Hn & HL & Hm)]].
           ++ exists L, m. split; [lia|]. left. exact Hs.
           ++ exists L, m. split; [lia|]. right. left. exists it', q, n.
              split; [right; exact Hin | exact Hrest].
           ++ apply reaches_cons in Hr. cbn [move children] in Hr.
              destruct Hr as [[-> ->]|[(q' & -> & Hbelow)|Hr]].
              ** contradiction.
              ** exists L, m. split; [lia|]. right. left.
                 eexists _, q', n. split; [left; reflexivity|].
                 cbn [Go2.nodes Go2.path length] in *. split; [exact Hbelow|].
                 split; [exact Hn|]. split; [lia | exact Hm].
              ** exists L, m. split; [lia|]. right. right. exists q, n. tauto.
      * unfold stackWeight, forestCount. cbn. lia.
Qed.

(** The inner loop over the children of a popped entry. *)
Lemma visit_fold (it : Go2.item) (l : list GameNode) :
  forall st,
    backed (Go2.mem st) (Go2.path it) -> stackInv st ->
    stackInv (fold_left (Go2.visit target it) l st) /\
    sameShortest
      (goCandidate target (Go2.stack st) (Go2.shortest st) (Go2.len (Go2.path it)) l)
      (goCandidate target (Go2.stack (fold_left (Go2.visit target it) l st))
         (Go2.shortest (fold_left (Go2.visit target it) l st))
         (Go2.len (Go2.path it)) []) /\
    (stackWeight (Go2.stack (fold_left (Go2.visit target it) l st))
     <= stackWeight (Go2.stack st) + forestCount l)%nat.
Proof.
  induction l as [|x l IH]; intros st Hit Hinv; cbn [fold_left].
  - split; [exact Hinv|]. split; [apply sameShortest_refl|]. unfold forestCount. cbn. lia.
  - destruct (visit_step it st x l Hit Hinv) as (Hit' & Hinv' & Hsame & Hw).
    destruct (IH _ Hit' Hinv') as (Hinv'' & Hsame' & Hw').
    split; [exact Hinv''|]. split; [eapply sameShortest_trans; eassumption|].
    unfold forestCount in *. cbn. cbn in Hw. lia.
Qed.

Lemma goCandidate_done (stack : list Go2.item) (shortest : option (list Z)) (d d' : nat) :
  sameShortest (goCandidate target stack shortest d [])
               (goCandidate target stack shortest d' []).
Proof.
  assert (H : forall a b L m, goCandidate target stack shortest a [] L m ->
                              goCandidate target stack shortest b [] L m).
  { intros a b L m [Hs|[Hst|(q & n & Hr & _)]]; [left; exact Hs | right; left; exact Hst |].
    exfalso. eapply reaches_nil. exact Hr. }
  split; [apply H|]. intros L m HP. exists L, m. split; [lia | eapply H; exact HP].
Qed.

(** The outer loop ends, with a shortest candidate of what was in sight. *)
Lemma drain_shortest (fuel : nat) :
  forall st,
    stackInv st -> (stackWeight (Go2.stack st) < fuel)%nat ->
    exists r, Go2.drain fuel target st = Some r /\
              shortestOf (goCandidate target (Go2.stack st) (Go2.shortest st) 0 []) r.
Proof.
  induction fuel as [|fuel IH]; intros st Hinv Hfuel; [lia|].
  cbn [Go2.drain]. destruct (Go2.stack st) as [|it rest] eqn:Est.
  - exists (Go2.shortest st). split; [reflexivity|].
    destruct (Go2.shortest st) as [s|] eqn:Es; cbn [shortestOf].
    + split.
      * destruct (list.last s) as [m|] eqn:El.
        -- exists m. split; [reflexivity|]. left. eauto.
        -- exfalso. apply (proj2 Hinv s); [rewrite Es; reflexivity|].
           apply last_None. exact El.
      * intros L m [(s' & [= <-] & HL & _)|[(it & q & n & [] & _)|(q & n & Hr & _)]];
          [lia|]. exfalso. eapply reaches_nil. exact Hr.
    + intros L m [(s' & Hs' & _)|[(it & q & n & [] & _)|(q & n & Hr & _)]];
        [discriminate|]. eapply reaches_nil. exact Hr.
  - destruct Hinv as [Hstack Hshort]. rewrite Est in Hstack.
    assert (Hit : backed (Go2.mem st) (Go2.path it)) by (apply Hstack; left; reflexivity).
    assert (Hinv0 : stackInv (Go2.mkState (Go2.mem st) rest (Go2.shortest st))).
    { split; cbn [Go2.mem Go2.stack Go2.shortest]; [|exact Hshort].
      intros it' Hin. apply Hstack. right. exact Hin. }
    destruct (visit_fold it (Go2.nodes it)
                (Go2.mkState (Go2.mem st) rest (Go2.shortest st)) Hit Hinv0)
      as (Hinv' & Hsame & Hw).
    cbn [Go2.mem Go2.stack Go2.shortest] in Hsame, Hw.
    destruct (IH _ Hinv') as (r & Hr & Hmin).
    { unfold stackWeight in Hfuel, Hw |- *. cbn in Hfuel. lia. }
    exists r. split; [exact Hr|].
    eapply shortestOf_sameShortest; [|exact Hmin].
    eapply sameShortest_trans; [|apply (goCandidate_done _ _ (Go2.len (Go2.path it)) 0)].
    eapply sameShortest_trans; [|exact Hsame]. split.
    + intros L m [Hs|[(it' & q & n & Hin & Hrest)|(q & n & Hq & Hrest)]].
      * left. exact Hs.
      * right. left. exists it', q, n. split; [right; exact Hin | exact Hrest].
      * right. left. exists it, q, n. split; [left; reflexivity | tauto].
    + intros L m H. exists L, m. split; [lia|].
      destruct H as [Hs|[(it' & q & n & Hin & Hrest)|(q & n & Hq & _)]].
      * left. exact Hs.
      * destruct Hin as [<-|Hin]; [right; right; exists q, n; exact Hrest|].
        right. left. exists it', q, n. tauto.
      * exfalso. eapply reaches_nil. exact Hq.
Qed.

End StackExtractor.

(** X21.  What the stack-based extractor of the second Go program still
    guarantees although its paths share storage: with more fuel than the
    forest has nodes (plus one) its loop ends; it returns [nil] exactly when
    the forest has no hit; and a returned path has the length of a shortest
    hit and ends with the move of a hit at that depth.  So the number of
    moves it reports, and whether it reports a path at all, agree with the
    recursive extractor; only the moves before the last one can be wrong. *)
Theorem go2_findShortestWinningPath_length (forest : list GameNode)
    (target : GameOutcome) (fuel : nat) :
  (forestCount forest + 1 < fuel)%nat ->
  exists r,
    Go2.findShortestWinningPath fuel forest target = Some r /\
    (r = None <-> ~ exists q n, reaches forest q n /\ hit target n) /\
    (forall p, r = Some p ->
       exists q n, reaches forest q n /\ hit target n /\
                   length p = length q /\ list.last p = Some (move n) /\
                   forall q' n', reaches forest q' n' -> hit target n' ->
                                 (length p <= length q')%nat) /\
    length <$> r = length <$> findShortestWinningPath forest target.
Proof.
  intros Hfuel. unfold Go2.findShortestWinningPath.
  set (st := Go2.mkState [] [Go2.mkItem Go2.emptySlice forest P1] None).
  assert (Hinv : stackInv st).
  { split; cbn [st Go2.mem Go2.stack Go2.shortest]; [|discriminate].
    intros it [<-|[]]. split; cbn; [lia|]. intros H. lia. }
  destruct (drain_shortest target fuel st Hinv) as (r & Hr & Hmin).
  { unfold stackWeight, forestCount in *. cbn. lia. }
  assert (Hcand : forall L m,
            goCandidate target (Go2.stack st) (Go2.shortest st) 0 [] L m <->
            exists q n, reaches forest q n /\ hit target n /\ L = length q /\ m = move n).
  { intros L m. split.
    - intros [(s & Hs & _)|[(it & q & n & Hin & Hq & Hn & HL & Hm)|(q & n & Hq & _)]].
      + discriminate Hs.
      + destruct Hin as [<-|[]]. cbn in Hq, HL. exists q, n. tauto.
      + exfalso. eapply reaches_nil. exact Hq.
    - intros (q & n & Hq & Hn & HL & Hm). right. left.
      exists (Go2.mkItem Go2.emptySlice forest P1), q, n.
      split; [left; reflexivity|]. cbn. tauto. }
  assert (Hsome : forall p, r = Some p ->
            exists q n, reaches forest q n /\ hit target n /\
                        length p = length q /\ list.last p = Some (move n) /\
                        forall q' n', reaches forest q' n' -> hit target n' ->
                                      (length p <= length q')%nat).
  { intros p ->. cbn [shortestOf] in Hmin. destruct Hmin as [(m & Hlast & HP) Hleast].
    apply Hcand in HP. destruct HP as (q & n & Hq & Hn & HL & ->).
    exists q, n. repeat (split; [assumption|]).
    intros q' n' Hq' Hn'. apply (Hleast (length q') (move n')).
    apply Hcand. exists q', n'. tauto. }
  assert (Hnone : r = None <-> ~ exists q n, reaches forest q n /\ hit target n).
  { split.
    - intros -> (q & n & Hq & Hn). cbn [shortestOf] in Hmin.
      apply (Hmin (length q) (move n)). apply Hcand. exists q, n. tauto.
    - intros Hno. destruct r as [p|]; [|reflexivity]. exfalso.
      destruct (Hsome p eq_refl) as (q & n & Hq & Hn & _). apply Hno. eauto. }
  exists r. split; [exact Hr|]. split; [exact Hnone|]. split; [exact Hsome|].
  destruct r as [p|].
  - destruct (Hsome p eq_refl) as (q & n & Hq & Hn & Hpq & _ & Hleast).
    destruct (findShortestWinningPath forest target) as [p'|] eqn:Ets.
    + destruct (shortest_is_minimal_hit forest target p' Ets) as ((n' & Hq' & Hn') & Hleast').
      specialize (Hleast p' n' Hq' Hn'). specialize (Hleast' q n Hq Hn).
      cbn. f_equal. lia.
    + exfalso. apply shortest_none_iff_no_hit in Ets. apply Ets. eauto.
  - destruct (findShortestWinningPath forest target) as [p'|] eqn:Ets; [|reflexivity].
    exfalso. destruct (shortest_is_minimal_hit forest target p' Ets) as ((n' & Hq' & Hn') & _).
    apply (proj1 Hnone eq_refl). eauto.
Qed.

Lemma go2_findShortestWinningPath_length_witness :
  exists r,
    Go2.findShortestWinningPath 8 sharedPrefixForest WIN_P1 = Some r /\
    (r = None <-> ~ exists q n, reaches sharedPrefixForest q n /\ hit WIN_P1 n) /\
    (forall p, r = Some p ->
       exists q n, reaches sharedPrefixForest q n /\ hit WIN_P1 n /\
                   length p = length q /\ list.last p = Some (move n) /\
                   forall q' n', reaches sharedPrefixForest q' n' -> hit WIN_P1 n' ->
                                 (length p <= length q')%nat) /\
    length <$> r = length <$> findShortestWinningPath sharedPrefixForest WIN_P1.
Proof.
  apply (go2_findShortestWinningPath_length sharedPrefixForest WIN_P1 8).
  vm_compute. lia.
Defined.

(** ** The Go ports of the helpers *)

(** X22.  On a 6 x 7 board and for a column of the grid, the helpers of the
    Go programs compute what the TypeScript ones compute: [getAvailableRow]
    of the first program answers the same row, with [-1] in the place of
    [null]; its [summarizeOutcomes], one loop with a flag, returns the
    outcome of the two passes [some] and [every], for every list of nodes;
    and [isWinningMove] of the second program, whose counting loop stops at
    the first cell that is not the player's, detects the same wins as the
    loop that tests all four cells. *)
Theorem go_helpers_same_results (board : Board) (col : Z) (nodes : list GameNode)
    (player : Player) :
  wf_board board -> 0 <= col < COLS ->
  Go1.getAvailableRow board col =
    match getAvailableRow board col with Some row => row | None => -1 end /\
  Go1.summarizeOutcomes nodes player = summarizeOutcomes nodes player /\
  Go2.isWinningMove board player = isWinningMove board player.
Proof.
  intros _ _. split; [apply go1_getAvailableRow|]. split; [apply go1_summarizeOutcomes|].
  apply go2_isWinningMove.
Qed.

Lemma go_helpers_same_results_witness :
  Go1.getAvailableRow (dropPiece threeInRow 5 4 P1) 1 = 3 /\
  Go1.summarizeOutcomes [mkNode 3 WIN_P2 []; mkNode 2 DRAW []] P1 = DRAW /\
  Go2.isWinningMove (dropPiece threeInRow 5 4 P1) P1 = true.
Proof.
  destruct (go_helpers_same_results (dropPiece threeInRow 5 4 P1) 1
              [mkNode 3 WIN_P2 []; mkNode 2 DRAW []] P1) as (H1 & H2 & H3).
  - split; [reflexivity | repeat constructor].
  - unfold COLS. lia.
  - rewrite H1, H2, H3. vm_compute. repeat split; reflexivity.
Defined.
